(** * Remixer Beats: the beat timeline, the export geometry and the WAV encoder

    A shallow embedding of the timeline handlers of the application
    component ([handleAnalyzeBeats], [handleSplitBeat], [handleMergeBeats]),
    of the per-sample quantisation of [audioBufferToWav], and of the crop
    geometry and the progress reports of [renderVideoToBlob], followed by
    the properties of the specification that concern them.

    JavaScript numbers are kept behind an interface ([JSNumber.Number]) with
    two implementations.  The handlers are written once, against the
    interface.  General laws are proved at the exact rationals [Q]; concrete
    runs are also replayed at IEEE 754 binary64 ([PrimFloat]), which is what
    an engine computes with. *)

From Stdlib Require Import ZArith QArith Qminmax List Bool String Ascii.
From Stdlib Require Import Lia Lqa Permutation DecimalString.
From Stdlib Require Import Uint63 PrimFloat FloatOps.
From Stdlib Require Import Qround.
Import ListNotations.

Set Implicit Arguments.

(* ================================================================== *)
(** * JavaScript numbers *)
(* ================================================================== *)

Module JSNumber.

(** [(z + 2^31) mod 2^32 - 2^31]: the two's complement reading of the low
    32 bits, the last step of ToInt32. *)
Definition wrap32 (z : Z) : Z := ((z + 2 ^ 31) mod 2 ^ 32 - 2 ^ 31)%Z.

(** What the handlers need from the [number] type. *)
Class Number (num : Type) : Type := {
  ofZ : Z -> num;                 (* an integer-valued number: a length, a literal *)
  nadd : num -> num -> num;       (* a + b *)
  nsub : num -> num -> num;       (* a - b *)
  nmul : num -> num -> num;       (* a * b *)
  ndiv : num -> num -> num;       (* a / b *)
  nltb : num -> num -> bool;      (* a < b *)
  nleb : num -> num -> bool;      (* a <= b *)
  neqb : num -> num -> bool;      (* a === b *)
  mathMax : num -> num -> num;    (* Math.max(a, b) *)
  mathMin : num -> num -> num;    (* Math.min(a, b) *)
  toInt32 : num -> Z              (* a | 0 *)
}.

(** [a > b] is [b < a], and [a >= b] is [b <= a]. *)
Definition ngtb {num} `{Number num} (a b : num) : bool := nltb b a.
Definition ngeb {num} `{Number num} (a b : num) : bool := nleb b a.

(** [a || dflt] on numbers: [0], [-0] and NaN are falsy. *)
Definition orElse {num} `{Number num} (a dflt : num) : num :=
  if neqb a (ofZ 0) || negb (neqb a a) then dflt else a.

(** ** Exact rationals

    No rounding, no NaN and no infinities; [x / 0] is [0] here, so a
    statement about a quotient is only meaningful where the divisor is
    known to be non-zero. *)

Definition Qltb (a b : Q) : bool :=
  match Qcompare a b with Lt => true | _ => false end.

Definition Qtrunc (q : Q) : Z := Z.quot (Qnum q) (Zpos (Qden q)).

#[export] Instance QNumber : Number Q := {
  ofZ := inject_Z;
  nadd := Qplus;
  nsub := Qminus;
  nmul := Qmult;
  ndiv := Qdiv;
  nltb := Qltb;
  nleb := Qle_bool;
  neqb := Qeq_bool;
  mathMax := fun a b => if Qltb a b then b else a;
  mathMin := fun a b => if Qltb b a then b else a;
  toInt32 := fun q => wrap32 (Qtrunc q)
}.

(** ** IEEE 754 binary64 *)

(** Exact for [|z| < 2^53], which covers every length and literal used. *)
Definition F64ofZ (z : Z) : float :=
  if (z <? 0)%Z then PrimFloat.opp (PrimFloat.of_uint63 (Uint63.of_Z (- z)))
  else PrimFloat.of_uint63 (Uint63.of_Z z).

(** [Math.max]: NaN is contagious and [+0] is larger than [-0]. *)
Definition F64max (a b : float) : float :=
  if PrimFloat.is_nan a || PrimFloat.is_nan b then PrimFloat.nan
  else if PrimFloat.ltb a b then b
  else if PrimFloat.ltb b a then a
  else if PrimFloat.get_sign a then b else a.

Definition F64min (a b : float) : float :=
  if PrimFloat.is_nan a || PrimFloat.is_nan b then PrimFloat.nan
  else if PrimFloat.ltb b a then b
  else if PrimFloat.ltb a b then a
  else if PrimFloat.get_sign a then a else b.

(** ToInt32: NaN, the zeros and the infinities give [0]; a finite value is
    truncated towards zero and reduced modulo [2^32]. *)
Definition F64toInt32 (x : float) : Z :=
  match Prim2SF x with
  | SpecFloat.S754_finite s m e =>
      let mag := Z.shiftl (Zpos m) e in
      wrap32 (if s then (- mag)%Z else mag)
  | _ => 0%Z
  end.

#[export] Instance F64Number : Number float := {
  ofZ := F64ofZ;
  nadd := PrimFloat.add;
  nsub := PrimFloat.sub;
  nmul := PrimFloat.mul;
  ndiv := PrimFloat.div;
  nltb := PrimFloat.ltb;
  nleb := PrimFloat.leb;
  neqb := PrimFloat.eqb;
  mathMax := F64max;
  mathMin := F64min;
  toInt32 := F64toInt32
}.

End JSNumber.

(* ================================================================== *)
(** * JavaScript strings *)
(* ================================================================== *)

Module JSString.

(** A string is its sequence of UTF-16 code units. *)
Definition jsstring : Type := list N.

(** A literal of the development, one code unit per character. *)
Definition lit (s : string) : jsstring :=
  List.map N_of_ascii (list_ascii_of_string s).

(** [s.length] *)
Definition length (s : jsstring) : Z := Z.of_nat (List.length s).

Fixpoint eqb (a b : jsstring) : bool :=
  match a, b with
  | [], [] => true
  | x :: a', y :: b' => N.eqb x y && eqb a' b'
  | _, _ => false
  end.

(** [s.substring(a, b)]: both indices are clamped to [0, s.length] and
    swapped when [a > b]. *)
Definition substring (s : jsstring) (a b : Z) : jsstring :=
  let len := length s in
  let a' := Z.min (Z.max a 0) len in
  let b' := Z.min (Z.max b 0) len in
  let from := Z.min a' b' in
  let to := Z.max a' b' in
  firstn (Z.to_nat (to - from)) (skipn (Z.to_nat from) s).

(** [s.substring(a)] *)
Definition substringFrom (s : jsstring) (a : Z) : jsstring :=
  substring s a (length s).

(** WhiteSpace and LineTerminator code units, the ones [trim] removes. *)
Definition isWhiteSpace (c : N) : bool :=
  ((9 <=? c) && (c <=? 13) || (c =? 32) || (c =? 160) || (c =? 5760)
   || (8192 <=? c) && (c <=? 8202) || (c =? 8232) || (c =? 8233)
   || (c =? 8239) || (c =? 8287) || (c =? 12288) || (c =? 65279))%N.

Fixpoint trimStart (s : jsstring) : jsstring :=
  match s with
  | c :: s' => if isWhiteSpace c then trimStart s' else s
  | [] => []
  end.

Definition trimEnd (s : jsstring) : jsstring := rev (trimStart (rev s)).

(** [s.trim()] *)
Definition trim (s : jsstring) : jsstring := trimEnd (trimStart s).

(** [s.split(sep)] for a separator of one code unit. *)
Fixpoint split (sep : N) (s : jsstring) : list jsstring :=
  match s with
  | [] => [[]]
  | c :: s' =>
      if N.eqb c sep then [] :: split sep s'
      else match split sep s' with
           | p :: ps => (c :: p) :: ps
           | [] => [[c]]
           end
  end.

(** [pieces.join(sep)] *)
Fixpoint join (sep : jsstring) (pieces : list jsstring) : jsstring :=
  match pieces with
  | [] => []
  | [p] => p
  | p :: ps => p ++ sep ++ join sep ps
  end.

(** An integer inside a template literal: its decimal digits. *)
Definition decimal (z : Z) : jsstring :=
  lit (NilZero.string_of_int (Z.to_int z)).

(** [arr.includes(s)] *)
Definition includes (arr : list jsstring) (s : jsstring) : bool :=
  existsb (eqb s) arr.

(** [Array.from(new Set(arr))]: the first occurrence of each string, in order. *)
Fixpoint unique (seen arr : list jsstring) : list jsstring :=
  match arr with
  | [] => []
  | s :: arr' =>
      if includes seen s then unique seen arr'
      else s :: unique (s :: seen) arr'
  end.

End JSString.

(* ================================================================== *)
(** * The data model (the type declarations) *)
(* ================================================================== *)

Module Types.
Import JSString.

Inductive LayoutMode : Type := PORTRAIT | LANDSCAPE.

Inductive OverlayType : Type := FULL | SPLIT.

(** An optional field is an [option]: [None] is [undefined]. *)
Record BeatStyleConfig (num : Type) : Type := {
  themePrompt : option jsstring;
  imageCount : option num;
  referenceImage : option jsstring;
  avatarImage : option jsstring
}.

Record BRollSettings (num : Type) : Type := {
  x : num;
  y : num;
  scale : num;
  height : num;
  aRollOffsetY : option num
}.

Record Beat (num : Type) : Type := {
  id : jsstring;
  startTime : num;
  endTime : num;
  textSegment : jsstring;
  visualPrompt : jsstring;
  bRollImage : option jsstring;
  overlayType : OverlayType;
  isEnabled : bool;
  bRollSettings : BRollSettings num;
  bRollOptions : option (list jsstring);
  styleConfig : option (BeatStyleConfig num)
}.

End Types.

(* ================================================================== *)
(** * The timeline handlers of the application component *)
(* ================================================================== *)

Module App.
Import JSNumber JSString Types.

Section Handlers.
Context {num : Type} `{Number num}.

(** [arr.sort(cmp)]: a stable sort; [cmp a b > 0] puts [b] first. *)
Fixpoint insertBy {A : Type} (cmp : A -> A -> num) (a : A) (l : list A) : list A :=
  match l with
  | [] => [a]
  | b :: l' =>
      if ngtb (cmp a b) (ofZ 0) then b :: insertBy cmp a l'
      else a :: b :: l'
  end.

Fixpoint sortBy {A : Type} (cmp : A -> A -> num) (l : list A) : list A :=
  match l with
  | [] => []
  | a :: l' => insertBy cmp a (sortBy cmp l')
  end.

(** [(a, b) => a.startTime - b.startTime] *)
Definition byStartTime (a b : Beat num) : num :=
  nsub (startTime a) (startTime b).

(** [arr.findIndex(p)], with [-1] when no element satisfies [p]. *)
Fixpoint findIndexFrom {A : Type} (p : A -> bool) (i : Z) (l : list A) : Z :=
  match l with
  | [] => (-1)%Z
  | a :: l' => if p a then i else findIndexFrom p (i + 1) l'
  end.

Definition findIndex {A : Type} (p : A -> bool) (l : list A) : Z :=
  findIndexFrom p 0 l.

(** [arr.splice(index, 1, ...items)] on a copy of [arr], for an index
    inside the array. *)
Definition splice1 {A : Type} (arr : list A) (index : Z) (items : list A) : list A :=
  firstn (Z.to_nat index) arr ++ items ++ skipn (S (Z.to_nat index)) arr.

(** ** handleAnalyzeBeats

    The [map] callback with the running [currentT] threaded through:
    [{ ...beat, startTime: currentT, endTime: currentT + dur }]. *)

Definition wordCount (beat : Beat num) : Z :=
  Z.of_nat (List.length (split 32 (textSegment beat))).

Definition beatDuration (beat : Beat num) : num :=
  mathMax (ofZ 2) (ndiv (ofZ (wordCount beat)) (ndiv (ofZ 5) (ofZ 2))).

Fixpoint assignTimes (currentT : num) (beats : list (Beat num)) : list (Beat num) :=
  match beats with
  | [] => []
  | beat :: rest =>
      let dur := beatDuration beat in
      let b := {| id := id beat;
                  startTime := currentT;
                  endTime := nadd currentT dur;
                  textSegment := textSegment beat;
                  visualPrompt := visualPrompt beat;
                  bRollImage := bRollImage beat;
                  overlayType := overlayType beat;
                  isEnabled := isEnabled beat;
                  bRollSettings := bRollSettings beat;
                  bRollOptions := bRollOptions beat;
                  styleConfig := styleConfig beat |} in
      b :: assignTimes (nadd currentT dur) rest
  end.

(** The new [state.beats], given the beats the analysis service returned. *)
Definition handleAnalyzeBeats (beats : list (Beat num)) : list (Beat num) :=
  assignTimes (ofZ 0) beats.

(** ** handleSplitBeat *)

Record Part : Type := { text : jsstring; len : Z }.

Definition splitParts (txt : jsstring) (startIdx endIdx : Z) : list Part :=
  let len1 := startIdx in
  let len2 := (endIdx - startIdx)%Z in
  let len3 := (length txt - endIdx)%Z in
  (if (len1 >? 0)%Z then [{| text := substring txt 0 startIdx; len := len1 |}] else [])
  ++ [{| text := substring txt startIdx endIdx; len := len2 |}]
  ++ (if (len3 >? 0)%Z then [{| text := substringFrom txt endIdx; len := len3 |}] else []).

Definition defaultSplitSettings : BRollSettings num :=
  {| x := ofZ 0; y := ofZ 0; scale := ofZ 1; height := ofZ 50;
     aRollOffsetY := Some (ofZ 50) |}.

Definition promptSuffix : jsstring :=
  lit ", photorealistic, 4k, b-roll, cinematic lighting".

(** The [for] loop over [parts], from index [i] with [currentStartTime];
    [dateNow i] is what [Date.now()] returns in iteration [i]. *)
Fixpoint splitLoop (dateNow : Z -> Z) (originalBeat : Beat num)
    (totalLength : Z) (totalDuration : num)
    (i : Z) (currentStartTime : num) (parts : list Part) : list (Beat num) :=
  match parts with
  | [] => []
  | part :: rest =>
      let partDuration :=
        nmul (ndiv (ofZ (len part)) (ofZ totalLength)) totalDuration in
      let newBeat :=
        {| id := lit "beat-" ++ decimal (dateNow i) ++ lit "-" ++ decimal i;
           startTime := currentStartTime;
           endTime := nadd currentStartTime partDuration;
           textSegment := trim (text part);
           visualPrompt := trim (text part) ++ promptSuffix;
           overlayType := overlayType originalBeat;
           isEnabled := true;
           bRollImage := None;
           bRollSettings := defaultSplitSettings;
           bRollOptions := Some [];
           styleConfig := styleConfig originalBeat |} in
      newBeat :: splitLoop dateNow originalBeat totalLength totalDuration
                   (i + 1) (nadd currentStartTime partDuration) rest
  end.

(** The beats one split puts in place of [originalBeat]. *)
Definition splitChildren (dateNow : Z -> Z) (originalBeat : Beat num)
    (startIdx endIdx : Z) : list (Beat num) :=
  let txt := textSegment originalBeat in
  splitLoop dateNow originalBeat (length txt)
    (nsub (endTime originalBeat) (startTime originalBeat))
    0 (startTime originalBeat) (splitParts txt startIdx endIdx).

(** [None] is a [return] before [setState]; [Some l] is the call
    [setState(prev => ({ ...prev, beats: l }))]. *)
Definition handleSplitBeat (dateNow : Z -> Z) (beatId : jsstring)
    (startIdx endIdx : Z) (beats : list (Beat num)) : option (list (Beat num)) :=
  let beatIndex := findIndex (fun b => eqb (id b) beatId) beats in
  if (beatIndex =? -1)%Z then None else
  match nth_error beats (Z.to_nat beatIndex) with
  | None => None
  | Some originalBeat =>
      let txt := textSegment originalBeat in
      if (startIdx <? 0)%Z || (endIdx >? length txt)%Z || (startIdx >=? endIdx)%Z
      then None
      else Some (splice1 beats beatIndex
                   (splitChildren dateNow originalBeat startIdx endIdx))
  end.

(** ** handleMergeBeats *)

(** [b.bRollOptions || []] *)
Definition optionsOrEmpty (b : Beat num) : list jsstring :=
  match bRollOptions b with Some o => o | None => [] end.

(** The gallery of the merged beat. *)
Definition mergedImages (firstBeat : Beat num) (selectedBeats : list (Beat num))
    : list jsstring :=
  let allImages := unique [] (flat_map optionsOrEmpty selectedBeats) in
  match bRollImage firstBeat with
  | Some img =>
      if negb (eqb img []) && negb (includes allImages img)
      then img :: allImages else allImages
  | None => allImages
  end.

(** The [mergedBeat] literal, from the selection sorted by start time. *)
Definition mergedBeat (now : Z) (firstBeat lastBeat : Beat num)
    (selectedBeats : list (Beat num)) : Beat num :=
  {| id := lit "beat-merged-" ++ decimal now;
     startTime := startTime firstBeat;
     endTime := endTime lastBeat;
     textSegment := join (lit " ") (List.map (@textSegment num) selectedBeats);
     visualPrompt := visualPrompt firstBeat;
     bRollImage := bRollImage firstBeat;
     overlayType := overlayType firstBeat;
     isEnabled := isEnabled firstBeat;
     bRollSettings := bRollSettings firstBeat;
     bRollOptions := Some (mergedImages firstBeat selectedBeats);
     styleConfig := styleConfig firstBeat |}.

(** [state.beats.filter(b => beatIds.includes(b.id))], sorted in place. *)
Definition selectBeats (beatIds : list jsstring) (beats : list (Beat num))
    : list (Beat num) :=
  filter (fun b => includes beatIds (id b)) beats.

Definition remainingBeats (beatIds : list jsstring) (beats : list (Beat num))
    : list (Beat num) :=
  filter (fun b => negb (includes beatIds (id b))) beats.

Definition handleMergeBeats (now : Z) (beatIds : list jsstring)
    (beats : list (Beat num)) : option (list (Beat num)) :=
  let selectedBeats := selectBeats beatIds beats in
  if (List.length selectedBeats <? 2)%nat then None else
  let selectedBeats := sortBy byStartTime selectedBeats in
  match selectedBeats with
  | [] => None
  | firstBeat :: _ =>
      let lastBeat := last selectedBeats firstBeat in
      let merged := mergedBeat now firstBeat lastBeat selectedBeats in
      Some (sortBy byStartTime (remainingBeats beatIds beats ++ [merged]))
  end.

(** The beat list after a handler ran. *)
Definition beatsAfter (beats : list (Beat num)) (update : option (list (Beat num)))
    : list (Beat num) :=
  match update with Some l => l | None => beats end.

End Handlers.
End App.

(* ================================================================== *)
(** * The WAV encoder ([audioBufferToWav]) *)
(* ================================================================== *)

Module AudioUtils.
Import JSNumber.

(** [view.setInt16(_, v, true)] keeps the low 16 bits of [v], read back as
    a signed integer. *)
Definition wrap16 (v : Z) : Z := ((v + 2 ^ 15) mod 2 ^ 16 - 2 ^ 15)%Z.

Section Wav.
Context {num : Type} `{Number num}.

(** [Math.max(-1, Math.min(1, channels[i][pos]))] *)
Definition clamp (sample : num) : num :=
  mathMax (ofZ (-1)) (mathMin (ofZ 1) sample).

(** [(0.5 + sample < 0 ? sample * 32768 : sample * 32767) | 0]; the
    comparison binds weaker than the sum, so the test is
    [(0.5 + sample) < 0]. *)
Definition quantize (sample : num) : Z :=
  toInt32 (if nltb (nadd (ndiv (ofZ 1) (ofZ 2)) sample) (ofZ 0)
           then nmul sample (ofZ 32768)
           else nmul sample (ofZ 32767)).

(** The 16-bit value stored for one sample of a channel. *)
Definition encodeSample (sample : num) : Z :=
  wrap16 (quantize (clamp sample)).

(** The inner [for] loop: one stored value per channel at frame [pos]
    (a missing sample reads as [undefined], which ends up as [0]). *)
Definition encodeFrame (channels : list (list num)) (pos : nat) : list Z :=
  List.map (fun ch => match nth_error ch pos with
                      | Some s => encodeSample s
                      | None => 0%Z
                      end) channels.

(** The [while (pos < buffer.length)] loop, [fuel] frames from [pos].
    The thirteen header writes leave [pos] at 44, and the loop goes on
    from there: frame [pos] is stored from byte [44 + offset] on. *)
Fixpoint encodeFrames (channels : list (list num)) (fuel pos : nat) : list Z :=
  match fuel with
  | O => []
  | S fuel' => encodeFrame channels pos ++ encodeFrames channels fuel' (S pos)
  end.

(** The 16-bit values of the data chunk, in the order they are written,
    for a buffer of [bufferLength] frames. *)
Definition dataSamples (channels : list (list num)) (bufferLength : nat) : list Z :=
  encodeFrames channels (bufferLength - 44) 44.

End Wav.
End AudioUtils.

(* ================================================================== *)
(** * The export renderer ([renderVideoToBlob]) *)
(* ================================================================== *)

Module VideoExport.
Import JSNumber JSString Types.

Inductive RecorderState : Type := inactive | recording | recorderPaused.

Section Render.
Context {num : Type} `{Number num}.

(** What [renderFrame] reads from the video element. *)
Record Video : Type := {
  videoWidth : num;
  videoHeight : num;
  currentTime : num;
  duration : num;
  paused : bool;
  ended : bool
}.

(** The source rectangle [(sX, sY, sW, sH)] of a [drawImage] call. *)
Record Crop : Type := { sX : num; sY : num; sW : num; sH : num }.

Definition canvasWidth (layoutMode : LayoutMode) : num :=
  match layoutMode with PORTRAIT => ofZ 1080 | LANDSCAPE => ofZ 1920 end.

Definition canvasHeight (layoutMode : LayoutMode) : num :=
  match layoutMode with PORTRAIT => ofZ 1920 | LANDSCAPE => ofZ 1080 end.

(** [beats.find(b => currentTime >= b.startTime && currentTime < b.endTime
    && b.isEnabled)] *)
Definition activeBeat (time : num) (beats : list (Beat num)) : option (Beat num) :=
  find (fun b => ngeb time (startTime b) && nltb time (endTime b) && isEnabled b)
       beats.

(** [currentBeat?.bRollSettings?.height || 50] *)
Definition splitHPercent (currentBeat : option (Beat num)) : num :=
  match currentBeat with
  | Some b => orElse (height (bRollSettings b)) (ofZ 50)
  | None => ofZ 50
  end.

(** [currentBeat?.bRollSettings?.aRollOffsetY ?? 50] *)
Definition panPercent (currentBeat : option (Beat num)) : num :=
  match currentBeat with
  | Some b => match aRollOffsetY (bRollSettings b) with
              | Some p => p
              | None => ofZ 50
              end
  | None => ofZ 50
  end.

(** The crop of the A-roll band in split mode: the source is
    [videoWidth x videoHeight], the band is [width x aRollH]. *)
Definition coverCrop (vw vh width aRollH pan : num) : Crop :=
  let videoRatio := ndiv vw vh in
  let targetRatio := ndiv width aRollH in
  if ngtb videoRatio targetRatio then
    let sH := vh in
    let sW := nmul sH targetRatio in
    {| sX := ndiv (nsub vw sW) (ofZ 2); sY := ofZ 0; sW := sW; sH := sH |}
  else
    let sW := vw in
    let sH := ndiv sW targetRatio in
    {| sX := ofZ 0; sY := nmul (nsub vh sH) (ndiv pan (ofZ 100));
       sW := sW; sH := sH |}.

(** The source rectangle [renderFrame] draws the A-roll from when the
    active beat is a split beat; [None] when the frame is drawn in full
    mode. *)
Definition aRollCrop (layoutMode : LayoutMode) (video : Video)
    (beats : list (Beat num)) : option Crop :=
  let currentBeat := activeBeat (currentTime video) beats in
  let isSplit := match currentBeat with
                 | Some b => match overlayType b with SPLIT => true | FULL => false end
                 | None => false
                 end in
  let splitPixelH :=
    nmul (canvasHeight layoutMode) (ndiv (splitHPercent currentBeat) (ofZ 100)) in
  if isSplit then
    Some (coverCrop (videoWidth video) (videoHeight video)
            (canvasWidth layoutMode)
            (nsub (canvasHeight layoutMode) splitPixelH)
            (panPercent currentBeat))
  else None.

(** ** Progress reports *)

(** The recorder and the arguments [onProgress] was called with, oldest
    first. *)
Record Export : Type := {
  recorder : RecorderState;
  reported : list num
}.

(** What runs on the event loop after [mediaRecorder.start()]: a frame
    callback seeing the video as [v], or the video's [ended] event. *)
Inductive Event : Type :=
| Frame (v : Video)
| Ended.

Definition isInactive (s : RecorderState) : bool :=
  match s with inactive => true | _ => false end.

(** The progress value of a frame:
    [Math.min(0.99, currentTime / video.duration)]. *)
Definition frameProgress (v : Video) : num :=
  mathMin (ndiv (ofZ 99) (ofZ 100)) (ndiv (currentTime v) (duration v)).

Definition renderFrame (v : Video) (st : Export) : Export :=
  if isInactive (recorder st) then st
  else if paused v && negb (ended v) then st
  else if ngtb (duration v) (ofZ 0) then
    {| recorder := recorder st; reported := reported st ++ [frameProgress v] |}
  else st.

(** [video.onended]: [mediaRecorder.stop()] then [onProgress(1)]. *)
Definition onended (st : Export) : Export :=
  if negb (isInactive (recorder st)) then
    {| recorder := inactive; reported := reported st ++ [ofZ 1] |}
  else st.

Definition step (st : Export) (e : Event) : Export :=
  match e with
  | Frame v => renderFrame v st
  | Ended => onended st
  end.

Definition run (events : list Event) (st : Export) : Export :=
  fold_left step events st.

(** Right after [mediaRecorder.start()]. *)
Definition started : Export := {| recorder := recording; reported := [] |}.

End Render.
End VideoExport.

(* ================================================================== *)
(** * The vocabulary of the specification *)
(* ================================================================== *)

Module Partition.
Import JSNumber JSString Types.
Local Open Scope Q_scope.

(** A relation that holds between every element and its successor. *)
Fixpoint adjacent {A : Type} (R : A -> A -> Prop) (l : list A) : Prop :=
  match l with
  | a :: (b :: _) as l' => R a b /\ adjacent R l'
  | _ => True
  end.

(** The interval [[startTime, endTime)] of a beat is not empty. *)
Definition wellFormed (b : Beat Q) : Prop := startTime b < endTime b.

(** Each beat ends where the next one starts. *)
Definition contiguous (l : list (Beat Q)) : Prop :=
  adjacent (fun a b => endTime a == startTime b) l.

(** The beats come by ascending start time. *)
Definition ordered (l : list (Beat Q)) : Prop :=
  adjacent (fun a b => startTime a <= startTime b) l.

(** Two half-open intervals share a point. *)
Definition overlap (a b : Beat Q) : Prop :=
  startTime a < endTime b /\ startTime b < endTime a.

(** No two beats of the list overlap. *)
Definition nonOverlapping (l : list (Beat Q)) : Prop :=
  ForallOrdPairs (fun a b => ~ overlap a b) l.

(** The partition invariant of the beat list. *)
Definition valid (l : list (Beat Q)) : Prop :=
  Forall wellFormed l /\ contiguous l /\ nonOverlapping l /\ ordered l.

(** [chain t l t']: the beats of [l] tile [[t, t')] from left to right. *)
Fixpoint chain (t : Q) (l : list (Beat Q)) (t' : Q) : Prop :=
  match l with
  | [] => t == t'
  | b :: l' => startTime b == t /\ startTime b < endTime b /\ chain (endTime b) l' t'
  end.

(** The character ranges a split keeps, in text order: the leading and
    the trailing range only when they are not empty. *)
Definition keptRanges (startOffset endOffset len : Z) : list (Z * Z) :=
  (if (0 <? startOffset)%Z then [(0, startOffset)%Z] else [])
  ++ [(startOffset, endOffset)]
  ++ (if (endOffset <? len)%Z then [(endOffset, len)] else []).

(** The total of the lengths of the parts of a split. *)
Definition sumLen (parts : list App.Part) : Z :=
  fold_right (fun p acc => (App.len p + acc)%Z) 0%Z parts.

(** The least and the greatest number of a list ([0] for the empty list,
    which no statement below relies on). *)
Definition listMin {num} `{Number num} (l : list num) : num :=
  match l with
  | [] => ofZ 0
  | a :: l' => fold_left mathMin l' a
  end.

Definition listMax {num} `{Number num} (l : list num) : num :=
  match l with
  | [] => ofZ 0
  | a :: l' => fold_left mathMax l' a
  end.

(** The frames of one playback: a fixed duration and a clock that never
    runs backwards. *)
Definition playback (d : Q) (frames : list (VideoExport.Video (num := Q))) : Prop :=
  Forall (fun v => VideoExport.duration v = d) frames
  /\ adjacent (fun u v => VideoExport.currentTime u <= VideoExport.currentTime v) frames.

(** The frames that get past the two early returns of [renderFrame] and
    the test of the duration. *)
Definition reports {num} `{Number num} (v : VideoExport.Video) : bool :=
  negb (VideoExport.paused v && negb (VideoExport.ended v))
  && ngtb (VideoExport.duration v) (ofZ 0).

(** A sequence of numbers that never decreases. *)
Definition nonDecreasing (l : list Q) : Prop := adjacent Qle l.

End Partition.

(* ================================================================== *)
(** * Sample data *)
(* ================================================================== *)

Module Scenario.
Import JSNumber JSString Types App.

(** What [Date.now()] returns throughout a sample run. *)
Definition clock (_ : Z) : Z := 1700000000000%Z.

Section AnyNumber.
Context {num : Type} `{Number num}.

(** A disabled split-mode beat over [[s, e)] with settings of its own,
    none of which a child of a split should show. *)
Definition beat (name : string) (s e : Z) (txt : string) : Beat num :=
  {| id := lit name;
     startTime := ofZ s;
     endTime := ofZ e;
     textSegment := lit txt;
     visualPrompt := lit "a desk by a window";
     bRollImage := Some (lit "blob:1");
     overlayType := SPLIT;
     isEnabled := false;
     bRollSettings := {| x := ofZ 10; y := ofZ (-5); scale := ofZ 2;
                         height := ofZ 30; aRollOffsetY := Some (ofZ 80) |};
     bRollOptions := Some [lit "blob:1"];
     styleConfig := Some {| themePrompt := Some (lit "noir"); imageCount := None;
                            referenceImage := None; avatarImage := None |} |}.

(** The ten-second beat of the specification's scenario. *)
Definition tenSeconds : Beat num := beat "beat-1-0" 0 10 "ABCDEFGHIJ".

(** Three one-second beats that tile [[0, 3)]. *)
Definition threeBeats : list (Beat num) :=
  [beat "a" 0 1 "A"; beat "b" 1 2 "B"; beat "c" 2 3 "C"].

(** A seven-second beat over three characters. *)
Definition sevenSeconds : Beat num := beat "s" 0 7 "ABC".

(** A beat whose text has a space at the place it is split. *)
Definition twoWords : Beat num := beat "w" 0 5 "AB CD".

(** What the analysis service returns for three segments: no times yet. *)
Definition analysed : list (Beat num) :=
  [beat "beat-1-0" 0 0 "one two three four five six seven";
   beat "beat-1-1" 0 0 "x";
   beat "beat-1-2" 0 0 "a  b"].

(** A split-mode beat over [[0, 10)] whose B-roll band takes 68.75% of the
    frame height, which leaves 600 of the 1920 rows of a portrait frame to
    the A-roll, with the pan [pan]. *)
Definition splitBeat (pan : Z) : Beat num :=
  {| id := lit "split";
     startTime := ofZ 0;
     endTime := ofZ 10;
     textSegment := lit "";
     visualPrompt := lit "";
     bRollImage := None;
     overlayType := SPLIT;
     isEnabled := true;
     bRollSettings := {| x := ofZ 0; y := ofZ 0; scale := ofZ 1;
                         height := ndiv (ofZ 275) (ofZ 4);
                         aRollOffsetY := Some (ofZ pan) |};
     bRollOptions := None;
     styleConfig := None |}.

(** An enabled beat over [[14/5, 24/5)], that is [[2.8, 4.8)], with a text
    of three characters. *)
Definition fractional : Beat num :=
  {| id := lit "f";
     startTime := ndiv (ofZ 14) (ofZ 5);
     endTime := ndiv (ofZ 24) (ofZ 5);
     textSegment := lit "ABC";
     visualPrompt := lit "";
     bRollImage := None;
     overlayType := FULL;
     isEnabled := true;
     bRollSettings := {| x := ofZ 0; y := ofZ 0; scale := ofZ 1;
                         height := ofZ 50; aRollOffsetY := None |};
     bRollOptions := None;
     styleConfig := None |}.

(** The ten-second sample video, playing, at [quarters / 4] seconds. *)
Definition hdVideoAt (quarters : Z) : VideoExport.Video :=
  {| VideoExport.videoWidth := ofZ 1920;
     VideoExport.videoHeight := ofZ 1080;
     VideoExport.currentTime := ndiv (ofZ quarters) (ofZ 4);
     VideoExport.duration := ofZ 10;
     VideoExport.paused := false;
     VideoExport.ended := false |}.

(** A 1920x1080 video of ten seconds, playing, at [time] seconds. *)
Definition hdVideo (time : Z) : VideoExport.Video :=
  {| VideoExport.videoWidth := ofZ 1920;
     VideoExport.videoHeight := ofZ 1080;
     VideoExport.currentTime := ofZ time;
     VideoExport.duration := ofZ 10;
     VideoExport.paused := false;
     VideoExport.ended := false |}.

End AnyNumber.
End Scenario.

(* ================================================================== *)
(** * The placements of the export renderer *)
(* ================================================================== *)

Module Compositor.
Import JSNumber JSString Types.

Section Placement.
Context {num : Type} `{Number num}.

(** The destination rectangle [(dX, dY, dW, dH)] of a [drawImage] call. *)
Record Dest : Type := { dX : num; dY : num; dW : num; dH : num }.

(** [drawContain]: where the whole [vw x vh] video is drawn inside the
    target rectangle. *)
Definition drawContain (vw vh targetX targetY targetW targetH : num) : Dest :=
  let videoRatio := ndiv vw vh in
  let targetRatio := ndiv targetW targetH in
  if ngtb videoRatio targetRatio then
    let dW := targetW in
    let dH := ndiv targetW videoRatio in
    {| dX := targetX; dY := nadd targetY (ndiv (nsub targetH dH) (ofZ 2));
       dW := dW; dH := dH |}
  else
    let dH := targetH in
    let dW := nmul targetH videoRatio in
    {| dX := nadd targetX (ndiv (nsub targetW dW) (ofZ 2)); dY := targetY;
       dW := dW; dH := dH |}.

(** The size [(renderW, renderH)] at which the B-roll image of
    [imgW x imgH] pixels is drawn for an area of [areaW x areaH]. *)
Definition overlaySize (imgW imgH areaW areaH : num) : num * num :=
  let areaRatio := ndiv areaW areaH in
  let imgRatio := ndiv imgW imgH in
  if ngtb imgRatio areaRatio then
    let renderH := areaH in
    let renderW := nmul areaH imgRatio in
    if nltb renderW areaW then (areaW, ndiv areaW imgRatio)
    else (renderW, renderH)
  else
    let renderW := areaW in
    let renderH := ndiv areaW imgRatio in
    if nltb renderH areaH then (nmul areaH imgRatio, areaH)
    else (renderW, renderH).

(** The rectangle of the canvas the B-roll image lands on:
    [ctx.translate(centerX + tx, centerY + ty)], [ctx.scale(scale, scale)]
    and [ctx.drawImage(img, -renderW/2, -renderH/2, renderW, renderH)] map
    the local point [p] to [centre + shift + scale * p].  The area starts
    at [(0, 0)]. *)
Definition overlayDest (settings : BRollSettings num) (imgW imgH areaW areaH : num)
    : Dest :=
  let centerX := nadd (ofZ 0) (ndiv areaW (ofZ 2)) in
  let centerY := nadd (ofZ 0) (ndiv areaH (ofZ 2)) in
  let tx := nmul (ndiv (x settings) (ofZ 100)) areaW in
  let ty := nmul (ndiv (y settings) (ofZ 100)) areaH in
  let renderW := fst (overlaySize imgW imgH areaW areaH) in
  let renderH := snd (overlaySize imgW imgH areaW areaH) in
  let originX := nadd centerX tx in
  let originY := nadd centerY ty in
  let negHalf (r : num) := ndiv (nmul (ofZ (-1)) r) (ofZ 2) in
  {| dX := nadd originX (nmul (scale settings) (negHalf renderW));
     dY := nadd originY (nmul (scale settings) (negHalf renderH));
     dW := nmul (scale settings) renderW;
     dH := nmul (scale settings) renderH |}.

End Placement.

(** [Math.floor] of an exact rational. *)
Definition mathFloor (q : Q) : Z := Qfloor q.

(** [Math.round]: the nearest integral number, the greater one of two
    that are equally near. *)
Class Rounding (num : Type) : Type := { mathRound : num -> num }.

(** In exact arithmetic: the integer [floor (q + 1/2)]. *)
Definition Qround (q : Q) : Z := Qfloor (q + (1 # 2)).

#[export] Instance QRounding : Rounding Q := {
  mathRound := fun q => inject_Z (Qround q)
}.

(** In binary64: a number with a non-negative exponent is integral and is
    returned as it is, as are NaN, the infinities and the zeros; any other
    finite number [(-1)^s * m * 2^e] is rounded exactly, a result [0]
    keeping the sign of the argument. *)
Definition F64round (x : float) : float :=
  match Prim2SF x with
  | SpecFloat.S754_finite s m e =>
      if (0 <=? e)%Z then x
      else
        let scale := (2 ^ (- e))%Z in
        let twice := (if s then - (2 * Zpos m) else 2 * Zpos m)%Z in
        let z := ((twice + scale) / (2 * scale))%Z in
        if (z =? 0)%Z then (if s then PrimFloat.neg_zero else PrimFloat.zero)
        else F64ofZ z
  | _ => x
  end.

#[export] Instance F64Rounding : Rounding float := { mathRound := F64round }.

(** What the export handler shows for a progress value:
    [Math.round(p * 100)]. *)
Definition exportPercent {num : Type} `{Number num} `{Rounding num} (p : num) : num :=
  mathRound (nmul p (ofZ 100)).

End Compositor.

(* ================================================================== *)
(** * Audio buffers, PCM decoding, WAV files and clip merging *)
(* ================================================================== *)

Module WavFile.
Import JSNumber JSString.

(** The four bytes [setUint32(_, v, true)] stores and the two bytes
    [setUint16(_, v, true)] and [setInt16(_, v, true)] store: the low bits
    of [v], least significant byte first. *)
Definition le16 (v : Z) : list Z := [v mod 256; (v / 256) mod 256]%Z.

Definition le32 (v : Z) : list Z :=
  [v mod 256; (v / 256) mod 256; (v / 65536) mod 256; (v / 16777216) mod 256]%Z.

(** Reading them back, as [getUint32(_, true)] and an [Int16Array] on a
    little-endian platform do. *)
Definition fromLe32 (bytes : list Z) : Z :=
  match bytes with
  | [b0; b1; b2; b3] => (b0 + 256 * b1 + 65536 * b2 + 16777216 * b3)%Z
  | _ => 0%Z
  end.

Definition int16OfBytes (lo hi : Z) : Z := AudioUtils.wrap16 (lo + 256 * hi).

(** [new Int16Array(bytes.buffer)]: [None] is the RangeError for a byte
    length that is not a multiple of 2. *)
Fixpoint int16Array (bytes : list Z) : option (list Z) :=
  match bytes with
  | [] => Some []
  | [_] => None
  | lo :: hi :: rest =>
      match int16Array rest with
      | Some samples => Some (int16OfBytes lo hi :: samples)
      | None => None
      end
  end.

(** [decode]: the bytes of the binary string that [atob] returned; a
    [Uint8Array] keeps each code unit modulo 256. *)
Definition decode (binaryString : jsstring) : list Z :=
  List.map (fun c => (Z.of_N c mod 256)%Z) binaryString.

(** A write of [bytes] at [pos] through a [DataView] over [view]; [None]
    is the RangeError of a write that does not fit. *)
Definition store (view : list Z) (pos : Z) (bytes : list Z) : option (list Z) :=
  if (pos <? 0)%Z
     || (Z.of_nat (List.length view) <? pos + Z.of_nat (List.length bytes))%Z
  then None
  else Some (firstn (Z.to_nat pos) view ++ bytes
             ++ skipn (Z.to_nat pos + List.length bytes) view).

(** The view and the running [pos] of the header writes. *)
Definition setUint16 (data : Z) (st : list Z * Z) : option (list Z * Z) :=
  match store (fst st) (snd st) (le16 data) with
  | Some view => Some (view, (snd st + 2)%Z)
  | None => None
  end.

Definition setUint32 (data : Z) (st : list Z * Z) : option (list Z * Z) :=
  match store (fst st) (snd st) (le32 data) with
  | Some view => Some (view, (snd st + 4)%Z)
  | None => None
  end.

(** One write after the other, stopping at the first that throws. *)
Fixpoint inOrder {S : Type} (steps : list (S -> option S)) (st : S) : option S :=
  match steps with
  | [] => Some st
  | step :: steps' =>
      match step st with
      | Some st' => inOrder steps' st'
      | None => None
      end
  end.

Section Buffers.
Context {num : Type} `{Number num}.

(** An [AudioBuffer]: [channels] holds what [getChannelData(i)] returns,
    [numberOfChannels] is the number of channels it holds. *)
Record AudioBuffer : Type := {
  sampleRate : num;
  length : nat;
  channels : list (list num)
}.

Definition numberOfChannels (buffer : AudioBuffer) : nat :=
  List.length (channels buffer).

(** [ctx.createBuffer(numberOfChannels, length, sampleRate)] with silent
    channels, for a rate and a number of channels that the platform
    supports; the Web Audio API rejects a buffer without channels or
    without frames, which is [None] here. *)
Definition createBuffer (nChannels frames : nat) (rate : num) : option AudioBuffer :=
  match nChannels, frames with
  | O, _ => None
  | _, O => None
  | _, _ => Some {| sampleRate := rate; length := frames;
                    channels := repeat (repeat (ofZ 0) frames) nChannels |}
  end.

(** [dataInt16[i * numChannels + channel] / 32768.0] *)
Definition pcmToFloat (v : Z) : num := ndiv (ofZ v) (ofZ 32768).

(** [decodeAudioData]: the frames are the whole multiples of
    [numChannels] samples; frame [i] of channel [c] is sample
    [i * numChannels + c]. *)
Definition decodeAudioData (binaryString : jsstring) (rate : num) (numChannels : nat)
    : option AudioBuffer :=
  match int16Array (decode binaryString) with
  | None => None
  | Some dataInt16 =>
      let frameCount := (List.length dataInt16 / numChannels)%nat in
      match createBuffer numChannels frameCount rate with
      | None => None
      | Some buffer =>
          Some {| sampleRate := sampleRate buffer;
                  length := length buffer;
                  channels :=
                    List.map
                      (fun channel =>
                         List.map
                           (fun i => pcmToFloat
                                       (nth (i * numChannels + channel) dataInt16 0%Z))
                           (seq 0 frameCount))
                      (seq 0 numChannels) |}
      end
  end.

(** The thirteen header writes of [audioBufferToWav], for a file of
    [fileLength] bytes. *)
Definition headerWrites (buffer : AudioBuffer) (fileLength : Z)
    : list (list Z * Z -> option (list Z * Z)) :=
  let numOfChan := Z.of_nat (numberOfChannels buffer) in
  [ setUint32 1179011410;
    setUint32 (fileLength - 8);
    setUint32 1163280727;
    setUint32 544501094;
    setUint32 16;
    setUint16 1;
    setUint16 numOfChan;
    setUint32 (toInt32 (sampleRate buffer));
    setUint32 (toInt32 (nmul (nmul (sampleRate buffer) (ofZ 2)) (ofZ numOfChan)));
    setUint16 (numOfChan * 2);
    setUint16 16;
    setUint32 1635017060;
    fun st => setUint32 (fileLength - snd st - 4) st ]%Z.

(** The inner [for] loop at frame [pos]: one [setInt16] per channel at
    [44 + offset], [offset] growing by 2. *)
Fixpoint writeSamples (samples : list Z) (st : list Z * Z) : option (list Z * Z) :=
  match samples with
  | [] => Some st
  | sample :: samples' =>
      match store (fst st) (44 + snd st) (le16 sample) with
      | Some view => writeSamples samples' (view, (snd st + 2)%Z)
      | None => None
      end
  end.

(** The [while (pos < buffer.length)] loop, [fuel] frames from [pos], on
    the view and the running [offset]. *)
Fixpoint writeFrames (channelData : list (list num)) (fuel pos : nat)
    (st : list Z * Z) : option (list Z * Z) :=
  match fuel with
  | O => Some st
  | S fuel' =>
      match writeSamples (AudioUtils.encodeFrame channelData pos) st with
      | Some st' => writeFrames channelData fuel' (S pos) st'
      | None => None
      end
  end.

(** [audioBufferToWav]: the bytes of the blob, or [None] if a write threw.
    The loop over the frames starts at the [pos] the header writes left. *)
Definition audioBufferToWav (buffer : AudioBuffer) : option (list Z) :=
  let numOfChan := Z.of_nat (numberOfChannels buffer) in
  let fileLength := (Z.of_nat (length buffer) * numOfChan * 2 + 44)%Z in
  let view := repeat 0%Z (Z.to_nat fileLength) in
  match inOrder (headerWrites buffer fileLength) (view, 0%Z) with
  | None => None
  | Some (view', pos) =>
      match writeFrames (channels buffer) (length buffer - Z.to_nat pos)
              (Z.to_nat pos) (view', 0%Z) with
      | Some (view'', _) => Some view''
      | None => None
      end
  end.

(** [outputData.set(inputData, offset)]; [None] is the RangeError of a
    source that does not fit. *)
Definition setAt (outputData inputData : list num) (offset : nat)
    : option (list num) :=
  if (List.length outputData <? offset + List.length inputData)%nat then None
  else Some (firstn offset outputData ++ inputData
             ++ skipn (offset + List.length inputData) outputData).

(** The copy of the first [nChannels] channels of [buff] into the output
    channels at [offset]; [getChannelData] throws for a channel that
    [buff] does not have. *)
Fixpoint copyChannels (buff : AudioBuffer) (offset : nat) (channel : nat)
    (outputs : list (list num)) : option (list (list num)) :=
  match outputs with
  | [] => Some []
  | outputData :: outputs' =>
      match nth_error (channels buff) channel with
      | None => None
      | Some inputData =>
          match setAt outputData inputData offset with
          | None => None
          | Some outputData' =>
              match copyChannels buff offset (S channel) outputs' with
              | None => None
              | Some outputs'' => Some (outputData' :: outputs'')
              end
          end
      end
  end.

(** The copy loop over the buffers, with the running [offset]. *)
Fixpoint copyBuffers (audioBuffers : list AudioBuffer) (offset : nat)
    (outputs : list (list num)) : option (list (list num)) :=
  match audioBuffers with
  | [] => Some outputs
  | buff :: rest =>
      match copyChannels buff offset 0 outputs with
      | None => None
      | Some outputs' => copyBuffers rest (offset + length buff) outputs'
      end
  end.

(** [mergeAudioClips] on the decoded clips, up to the buffer it hands to
    [audioBufferToWav]; [None] is a thrown error. *)
Definition mergeAudioBuffers (audioBuffers : list AudioBuffer) : option AudioBuffer :=
  match audioBuffers with
  | [] => None
  | firstBuffer :: _ =>
      let totalLength :=
        fold_left (fun acc buff => (acc + length buff)%nat) audioBuffers 0%nat in
      match createBuffer (numberOfChannels firstBuffer) totalLength
              (sampleRate firstBuffer) with
      | None => None
      | Some resultBuffer =>
          match copyBuffers audioBuffers 0 (channels resultBuffer) with
          | None => None
          | Some outputs =>
              Some {| sampleRate := sampleRate resultBuffer;
                      length := length resultBuffer;
                      channels := outputs |}
          end
      end
  end.

Definition mergeAudioClips (audioBuffers : list AudioBuffer) : option (list Z) :=
  match mergeAudioBuffers audioBuffers with
  | None => None
  | Some resultBuffer => audioBufferToWav resultBuffer
  end.

End Buffers.
End WavFile.

(* ================================================================== *)
(** * The layout of a WAV file, in the words of the format *)
(* ================================================================== *)

Module WavLayout.
Import WavFile.

(** The 44 bytes of a canonical PCM header: "RIFF", the file size less 8,
    "WAVE", "fmt ", 16, the format tag 1, the channels, the sample rate,
    the byte rate, the block size, 16 bits per sample, "data" and the size
    of the data chunk. *)
Definition wavHeader (numOfChan rate byteRate fileLength : Z) : list Z :=
  le32 1179011410 ++ le32 (fileLength - 8) ++ le32 1163280727
  ++ le32 544501094 ++ le32 16 ++ le16 1 ++ le16 numOfChan
  ++ le32 rate ++ le32 byteRate ++ le16 (numOfChan * 2) ++ le16 16
  ++ le32 1635017060 ++ le32 (fileLength - 44).

(** What a 16-bit sample becomes when it is decoded to a float and
    encoded again: the samples below -16384 and 0 are kept, every other
    sample moves one step towards 0. *)
Definition requantized (v : Z) : Z :=
  if (v <? -16384)%Z then v
  else if (v =? 0)%Z then 0%Z
  else if (0 <? v)%Z then (v - 1)%Z
  else (v + 1)%Z.

(** Every 16-bit sample value, from -32768 to 32767. *)
Fixpoint countFrom (first : Z) (n : nat) : list Z :=
  match n with
  | O => []
  | S n' => first :: countFrom (first + 1) n'
  end.

Definition allInt16 : list Z := countFrom (-32768) (Z.to_nat 65536).

(** Every channel of a buffer holds as many samples as the buffer has
    frames, as [getChannelData] guarantees. *)
Definition wellFormedBuffer {num : Type} `{JSNumber.Number num}
    (buffer : AudioBuffer (num := num)) : Prop :=
  Forall (fun channelData => List.length channelData = length buffer)
         (channels buffer).

(** Channel [c] of each buffer, one after the other. *)
Definition concatChannel {num : Type} `{JSNumber.Number num}
    (audioBuffers : list (AudioBuffer (num := num))) (c : nat) : list num :=
  List.concat (List.map (fun buff => nth c (channels buff) []) audioBuffers).

Definition totalFrames {num : Type} `{JSNumber.Number num}
    (audioBuffers : list (AudioBuffer (num := num))) : nat :=
  list_sum (List.map (fun buff => length buff) audioBuffers).

End WavLayout.

(* ================================================================== *)
(** * The service wrapper ([runWithRetry], [generateSpeech]) *)
(* ================================================================== *)

Module GeminiService.
Import JSNumber JSString.

(** [haystack.includes(needle)] on strings. *)
Fixpoint startsWith (needle haystack : jsstring) : bool :=
  match needle, haystack with
  | [], _ => true
  | _ :: _, [] => false
  | c :: needle', d :: haystack' => N.eqb c d && startsWith needle' haystack'
  end.

Fixpoint includesText (haystack needle : jsstring) : bool :=
  startsWith needle haystack
  || match haystack with
     | [] => false
     | _ :: haystack' => includesText haystack' needle
     end.

(** What the retry wrapper reads from a caught error: [error.status]
    when it is a number, [error.message] when it is a string, and
    [error.toString()]. *)
Record ApiError : Type := {
  status : option Z;
  message : option jsstring;
  toString : jsstring
}.

Definition isQuotaError (error : ApiError) : bool :=
  match status error with Some s => (s =? 429)%Z | None => false end
  || match message error with
     | Some (c :: m) => includesText (c :: m) (lit "429")
     | _ => false
     end
  || (includesText (toString error) (lit "quota")
      || includesText (toString error) (lit "RESOURCE_EXHAUSTED")).

(** How a call of [fn] ends. *)
Inductive Outcome (T : Type) : Type :=
| resolved (value : T)
| rejected (error : ApiError).

Arguments resolved {T} value.
Arguments rejected {T} error.

Section Retry.
Context {num : Type} `{Number num}.

(** [runWithRetry(fn, retries, delay)]: [fn call] is how the call number
    [call] of [fn] ends.  The result is how the wrapper ends, with the
    delays it slept, in order. *)
Fixpoint runWithRetry {T : Type} (fn : nat -> Outcome T) (retries : nat)
    (delay : num) (call : nat) : Outcome T * list num :=
  match fn call with
  | resolved value => (resolved value, [])
  | rejected error =>
      match retries with
      | S retries' =>
          if isQuotaError error
          then
            let (outcome, slept) :=
              runWithRetry fn retries' (nmul delay (ofZ 2)) (S call) in
            (outcome, delay :: slept)
          else (rejected error, [])
      | O => (rejected error, [])
      end
  end.

(** [generateSpeech] from the response on: [inlineData] is the binary
    string that the base64 data of the response stands for, [None] when
    the response holds none.  [None] as a result is a thrown error. *)
Definition generateSpeech (inlineData : option jsstring) : option (list Z) :=
  match inlineData with
  | None => None
  | Some [] => None
  | Some binaryString =>
      match WavFile.decodeAudioData binaryString (ofZ 24000) 1 with
      | None => None
      | Some audioBuffer => WavFile.audioBufferToWav audioBuffer
      end
  end.

End Retry.

(** An outcome that [runWithRetry] hands on at once: a value, or an error
    that is not a quota error. *)
Definition final {T : Type} (outcome : Outcome T) : Prop :=
  match outcome with
  | resolved _ => True
  | rejected error => isQuotaError error = false
  end.

End GeminiService.

(* ================================================================== *)
(** * The chat sessions of the application component *)
(* ================================================================== *)

Module Sessions.
Import JSString.

Section Chat.
Variable ChatMessage : Type.

Record ChatSession : Type := {
  id : jsstring;
  title : jsstring;
  messages : list ChatMessage;
  lastUpdated : Z
}.

(** The two fields of the project state that the session handlers use;
    [None] is [null]. *)
Record State : Type := {
  chatSessions : list ChatSession;
  currentChatSessionId : option jsstring
}.

(** [INITIAL_STATE], created at time [now]. *)
Definition INITIAL_STATE (now : Z) : State :=
  {| chatSessions := [ {| id := lit "default-session"; title := lit "New Chat";
                          messages := []; lastUpdated := now |} ];
     currentChatSessionId := Some (lit "default-session") |}.

(** The handlers below read [Date.now()] twice: [now] for the id and
    [now'] for [lastUpdated]. *)
Definition handleNewSession (now now' : Z) (prev : State) : State :=
  let newId := lit "session-" ++ decimal now in
  let newSession := {| id := newId; title := lit "New Chat";
                       messages := []; lastUpdated := now' |} in
  {| chatSessions := chatSessions prev ++ [newSession];
     currentChatSessionId := Some newId |}.

Definition handleUpdateSession (session : ChatSession) (prev : State) : State :=
  {| chatSessions :=
       List.map (fun s => if eqb (id s) (id session) then session else s)
                (chatSessions prev);
     currentChatSessionId := currentChatSessionId prev |}.

Definition handleSwitchSession (id' : jsstring) (prev : State) : State :=
  {| chatSessions := chatSessions prev; currentChatSessionId := Some id' |}.

(** [!newCurrentId]: [null] and the empty string. *)
Definition falsy (s : option jsstring) : bool :=
  match s with
  | None => true
  | Some [] => true
  | Some (_ :: _) => false
  end.

Definition handleDeleteSession (now now' : Z) (id' : jsstring) (prev : State) : State :=
  let newSessions := filter (fun s => negb (eqb (id s) id')) (chatSessions prev) in
  let newCurrentId :=
    match currentChatSessionId prev with
    | Some current =>
        if eqb id' current
        then match newSessions with
             | s :: _ => Some (id s)
             | [] => None
             end
        else Some current
    | None => None
    end in
  if falsy newCurrentId && (List.length newSessions =? 0)%nat
  then
    let defaultS := {| id := lit "session-" ++ decimal now; title := lit "New Chat";
                       messages := []; lastUpdated := now' |} in
    {| chatSessions := [defaultS]; currentChatSessionId := Some (id defaultS) |}
  else {| chatSessions := newSessions; currentChatSessionId := newCurrentId |}.

(** One call of a session handler; the panel offers only the sessions
    of the list to switch to. *)
Inductive step (prev : State) : State -> Prop :=
| step_new (now now' : Z) : step prev (handleNewSession now now' prev)
| step_update (session : ChatSession) : step prev (handleUpdateSession session prev)
| step_switch (s : ChatSession) :
    In s (chatSessions prev) -> step prev (handleSwitchSession (id s) prev)
| step_delete (now now' : Z) (id' : jsstring) :
    step prev (handleDeleteSession now now' id' prev).

(** The current session is one of the list. *)
Definition hasCurrent (st : State) : Prop :=
  exists s, In s (chatSessions st) /\ currentChatSessionId st = Some (id s).

End Chat.
End Sessions.

(* ================================================================== *)
(** * The audio clips of the application component *)
(* ================================================================== *)

Module AudioClips.
Import JSNumber JSString.

Section Clips.
Context {num : Type} `{Number num}.

Record AudioClip : Type := {
  id : jsstring;
  text : jsstring;
  audioUrl : jsstring;
  duration : num;
  createdAt : num
}.

(** The two fields of the project state that the audio handlers use. *)
Record State : Type := {
  audioClips : list AudioClip;
  selectedAudioIds : list jsstring
}.

Definition handleDeleteAudio (id' : jsstring) (prev : State) : State :=
  {| audioClips := filter (fun c => negb (eqb (id c) id')) (audioClips prev);
     selectedAudioIds :=
       filter (fun sid => negb (eqb sid id')) (selectedAudioIds prev) |}.

Definition handleAudioSelect (id' : jsstring) (prev : State) : State :=
  let isSelected := includes (selectedAudioIds prev) id' in
  let newSelection :=
    if isSelected
    then filter (fun mid => negb (eqb mid id')) (selectedAudioIds prev)
    else selectedAudioIds prev ++ [id'] in
  {| audioClips := audioClips prev; selectedAudioIds := newSelection |}.

(** The [setState] call that ends [handleGenerateSpeech] and
    [handleMergeAudio]. *)
Definition addClip (newClip : AudioClip) (prev : State) : State :=
  {| audioClips := newClip :: audioClips prev;
     selectedAudioIds := [id newClip] |}.

(** The clip [handleGenerateSpeech] makes of the text it spoke and the
    url of the file; [now] and [now'] are the two readings of
    [Date.now()]. *)
Definition speechClip (now now' : Z) (fullText audioUrl' : jsstring) : AudioClip :=
  {| id := decimal now;
     text := substring fullText 0 50
             ++ (if (length fullText >? 50)%Z then lit "..." else []);
     audioUrl := audioUrl';
     duration := ofZ 0;
     createdAt := ofZ now' |}.




(** The clip [handleMergeAudio] makes of the merged file. *)
Definition mergedClip (now now' : Z) (clips : list AudioClip) (audioUrl' : jsstring)
    : AudioClip :=
  let mergedText := join (lit " | ") (List.map text clips) in
  {| id := lit "merged-" ++ decimal now;
     text := lit "Merged Audio: " ++ substring mergedText 0 30 ++ lit "...";
     audioUrl := audioUrl';
     duration := ofZ 0;
     createdAt := ofZ now' |}.

(** One call of a handler that changes the clips or the selection; the
    list offers only its own clips to select. *)
Inductive step (prev : State) : State -> Prop :=
| step_delete (id' : jsstring) : step prev (handleDeleteAudio id' prev)
| step_select (c : AudioClip) :
    In c (audioClips prev) -> step prev (handleAudioSelect (id c) prev)
| step_add (newClip : AudioClip) : step prev (addClip newClip prev).

(** No id is selected twice, and every selected id is the id of a clip. *)
Definition selectionOfClips (st : State) : Prop :=
  NoDup (selectedAudioIds st)
  /\ forall sid, In sid (selectedAudioIds st) ->
                 exists c, In c (audioClips st) /\ id c = sid.

End Clips.
End AudioClips.

(* ================================================================== *)
(** * The image handlers of the application component *)
(* ================================================================== *)

(** [Partial<Beat>]: a field that an update does not name is [None]. *)
Module Partial.
Import JSString.

Record Beat (num : Type) : Type := {
  id : option jsstring;
  startTime : option num;
  endTime : option num;
  textSegment : option jsstring;
  visualPrompt : option jsstring;
  bRollImage : option (option jsstring);
  overlayType : option Types.OverlayType;
  isEnabled : option bool;
  bRollSettings : option (Types.BRollSettings num);
  bRollOptions : option (option (list jsstring));
  styleConfig : option (option (Types.BeatStyleConfig num))
}.

End Partial.

Module Images.
Import JSNumber JSString Types App.

(** One item of the answer of the analysis service. *)
Record Item : Type := {
  itemTextSegment : jsstring;
  itemVisualPrompt : jsstring;
  itemOverlayType : OverlayType
}.

Section Handlers.
Context {num : Type} `{Number num}.

Definition orKeep {A : Type} (update : option A) (old : A) : A :=
  match update with Some v => v | None => old end.

(** [{ ...b, ...updates }] *)
Definition spread (b : Beat num) (updates : Partial.Beat num) : Beat num :=
  {| id := orKeep (Partial.id updates) (id b);
     startTime := orKeep (Partial.startTime updates) (startTime b);
     endTime := orKeep (Partial.endTime updates) (endTime b);
     textSegment := orKeep (Partial.textSegment updates) (textSegment b);
     visualPrompt := orKeep (Partial.visualPrompt updates) (visualPrompt b);
     bRollImage := orKeep (Partial.bRollImage updates) (bRollImage b);
     overlayType := orKeep (Partial.overlayType updates) (overlayType b);
     isEnabled := orKeep (Partial.isEnabled updates) (isEnabled b);
     bRollSettings := orKeep (Partial.bRollSettings updates) (bRollSettings b);
     bRollOptions := orKeep (Partial.bRollOptions updates) (bRollOptions b);
     styleConfig := orKeep (Partial.styleConfig updates) (styleConfig b) |}.

Definition updateBeat (beatId : jsstring) (updates : Partial.Beat num)
    (prev : list (Beat num)) : list (Beat num) :=
  List.map (fun b => if eqb (id b) beatId then spread b updates else b) prev.

(** [{ bRollImage: image }], with [bRollOptions: options] when given. *)
Definition imageUpdates (image : jsstring) (options : option (list jsstring))
    : Partial.Beat num :=
  {| Partial.id := None;
     Partial.startTime := None;
     Partial.endTime := None;
     Partial.textSegment := None;
     Partial.visualPrompt := None;
     Partial.bRollImage := Some (Some image);
     Partial.overlayType := None;
     Partial.isEnabled := None;
     Partial.bRollSettings := None;
     Partial.bRollOptions :=
       match options with Some o => Some (Some o) | None => None end;
     Partial.styleConfig := None |}.

(** [handleRegenerateImage] once the image is there; [beat] is the beat
    the button was rendered with. *)
Definition handleRegenerateImage (beat : Beat num) (img : jsstring)
    (prev : list (Beat num)) : list (Beat num) :=
  updateBeat (id beat) (imageUpdates img (Some (optionsOrEmpty beat ++ [img]))) prev.

(** [handleUploadImage]: [stateBeats] is [state.beats] of the render the
    handler belongs to. *)
Definition handleUploadImage (beatId url : jsstring) (stateBeats : list (Beat num))
    (prev : list (Beat num)) : list (Beat num) :=
  match find (fun b => eqb (id b) beatId) stateBeats with
  | Some currentBeat =>
      updateBeat beatId (imageUpdates url (Some (optionsOrEmpty currentBeat ++ [url])))
                 prev
  | None => prev
  end.

Definition handleSelectImage (beatId imageUrl : jsstring) (prev : list (Beat num))
    : list (Beat num) :=
  updateBeat beatId (imageUpdates imageUrl None) prev.

(** [!!s] for an optional string. *)
Definition truthy (s : option jsstring) : bool :=
  match s with
  | Some (_ :: _) => true
  | _ => false
  end.

(** [{ ...b, bRollImage, bRollOptions, visualPrompt }] *)
Definition withImage (b : Beat num) (image : option jsstring)
    (options : list jsstring) (prompt : jsstring) : Beat num :=
  {| id := id b;
     startTime := startTime b;
     endTime := endTime b;
     textSegment := textSegment b;
     visualPrompt := prompt;
     bRollImage := image;
     overlayType := overlayType b;
     isEnabled := isEnabled b;
     bRollSettings := bRollSettings b;
     bRollOptions := Some options;
     styleConfig := styleConfig b |}.

(** The [setState] updater of [handleBulkGenerate] for image [j] of
    [beat]. *)
Definition bulkUpdater (beat : Beat num) (j : Z) (img : jsstring)
    (prev : list (Beat num)) : list (Beat num) :=
  List.map
    (fun b =>
       if eqb (id b) (id beat)
       then
         let isFirst :=
           negb (truthy (bRollImage b))
           && (Z.of_nat (List.length (optionsOrEmpty b)) =? 0)%Z
           && (j =? 0)%Z in
         withImage b
           (if isFirst then Some img
            else if truthy (bRollImage b) then bRollImage b else Some img)
           (optionsOrEmpty b ++ [img])
           (visualPrompt b)
       else b)
    prev.

(** The [setState] updater of [handleGenerateImageFromPrompt]. *)
Definition promptUpdater (beatId prompt img : jsstring) (prev : list (Beat num))
    : list (Beat num) :=
  match find (fun bt => eqb (id bt) beatId) prev with
  | None => prev
  | Some b =>
      let newOptions := optionsOrEmpty b ++ [img] in
      List.map (fun bt => if eqb (id bt) beatId
                          then withImage bt (Some img) newOptions prompt
                          else bt)
               prev
  end.

(** The beats [analyzeBeats] makes of the items of the answer; [dateNow i]
    is what [Date.now()] returns for item [i]. *)
Fixpoint analyzeBeatsFrom (dateNow : Z -> Z) (index : Z) (items : list Item)
    : list (Beat num) :=
  match items with
  | [] => []
  | item :: rest =>
      {| id := lit "beat-" ++ decimal (dateNow index) ++ lit "-" ++ decimal index;
         startTime := ofZ 0;
         endTime := ofZ 0;
         textSegment := itemTextSegment item;
         visualPrompt := itemVisualPrompt item;
         bRollImage := None;
         overlayType := itemOverlayType item;
         isEnabled := true;
         bRollSettings := {| x := ofZ 0; y := ofZ 0; scale := ofZ 1;
                             height := ofZ 50; aRollOffsetY := None |};
         bRollOptions := Some [];
         styleConfig := None |}
      :: analyzeBeatsFrom dateNow (index + 1) rest
  end.

Definition analyzeBeats (dateNow : Z -> Z) (items : list Item) : list (Beat num) :=
  analyzeBeatsFrom dateNow 0 items.

(** One change of [state.beats] by an image handler.  The gallery offers
    only its own images to select. *)
Inductive imageStep (prev : list (Beat num)) : list (Beat num) -> Prop :=
| step_regenerate (beat : Beat num) (img : jsstring) :
    imageStep prev (handleRegenerateImage beat img prev)
| step_bulk (beat : Beat num) (j : Z) (img : jsstring) :
    imageStep prev (bulkUpdater beat j img prev)
| step_prompt (beatId prompt img : jsstring) :
    imageStep prev (promptUpdater beatId prompt img prev)
| step_upload (beatId url : jsstring) (stateBeats : list (Beat num)) :
    imageStep prev (handleUploadImage beatId url stateBeats prev)
| step_select (beatId imageUrl : jsstring) :
    (forall b, In b prev -> id b = beatId -> In imageUrl (optionsOrEmpty b)) ->
    imageStep prev (handleSelectImage beatId imageUrl prev).

(** One change of [state.beats] by any handler of the timeline. *)
Inductive step (prev : list (Beat num)) : list (Beat num) -> Prop :=
| step_image (next : list (Beat num)) : imageStep prev next -> step prev next
| step_analyze (dateNow : Z -> Z) (items : list Item) :
    step prev (handleAnalyzeBeats (analyzeBeats dateNow items))
| step_split (dateNow : Z -> Z) (beatId : jsstring) (startIdx endIdx : Z)
    (next : list (Beat num)) :
    handleSplitBeat dateNow beatId startIdx endIdx prev = Some next -> step prev next
| step_merge (now : Z) (beatIds : list jsstring) (next : list (Beat num)) :
    handleMergeBeats now beatIds prev = Some next -> step prev next
| step_remove : step prev [].

(** The image a beat shows is one of its gallery. *)
Definition chosenInGallery (b : Beat num) : Prop :=
  match bRollImage b with
  | Some (c :: image) => In (c :: image) (optionsOrEmpty b)
  | _ => True
  end.

(** What the timeline and the renderer read of a beat apart from its
    images and its prompt. *)
Definition sameSlot (b b' : Beat num) : Prop :=
  id b' = id b /\ startTime b' = startTime b /\ endTime b' = endTime b
  /\ textSegment b' = textSegment b /\ isEnabled b' = isEnabled b
  /\ overlayType b' = overlayType b /\ bRollSettings b' = bRollSettings b
  /\ styleConfig b' = styleConfig b.

End Handlers.
End Images.

(* ================================================================== *)
(** * The script editor ([handleSort]) and the player ([formatTime]) *)
(* ================================================================== *)

Module ScriptEditor.
Import JSString.

Inductive Align : Type := left | center | right.

Inductive BlockType : Type := p | h1 | h2 | blockquote.

Record ScriptBlock : Type := {
  id : jsstring;
  content : jsstring;
  align : Align;
  type : BlockType
}.

(** [arr.splice(start, 1)] and [arr.splice(start, 0, item)] on the array
    left; a start after the end inserts at the end. *)
Definition removeAt {A : Type} (start : nat) (arr : list A) : list A :=
  firstn start arr ++ skipn (S start) arr.

Definition insertAt {A : Type} (start : nat) (item : A) (arr : list A) : list A :=
  firstn start arr ++ item :: skipn start arr.

(** [handleSort]: the array handed to [onChange], or [None] when the
    handler does not call it.  An element [None] of the array is the
    [undefined] that [splice(...)[0]] gives for a [dragItem] after the end. *)
Definition handleSort (dragItem dragOverItem : option nat) (blocks : list ScriptBlock)
    : option (list (option ScriptBlock)) :=
  match dragItem, dragOverItem with
  | Some from, Some to =>
      if (from =? to)%nat then None
      else
        let draggedItemContent := nth_error blocks from in
        let _blocks := removeAt from blocks in
        Some (insertAt to draggedItemContent (List.map Some _blocks))
  | _, _ => None
  end.

End ScriptEditor.

Module VideoComposer.
Import JSString.

(** [a % b] on numbers: the remainder has the sign of [a]. *)
Definition remainder (a b : Q) : Q :=
  (a - b * inject_Z (JSNumber.Qtrunc (a / b)))%Q.

(** [s.padStart(2, '0')] *)
Definition padStart2 (s : jsstring) : jsstring :=
  match s with
  | [] => lit "00"
  | [c] => lit "0" ++ [c]
  | _ => s
  end.

(** [formatTime] of a time in exact arithmetic. *)
Definition formatTime (t : Q) : jsstring :=
  let m := Compositor.mathFloor (t / 60) in
  let s := Compositor.mathFloor (remainder t 60) in
  decimal m ++ lit ":" ++ padStart2 (decimal s).

(** The two decimal digits of a number below 100. *)
Definition twoDigits (n : Z) : jsstring :=
  [Z.to_N (48 + n / 10); Z.to_N (48 + n mod 10)].

End VideoComposer.

Unset Implicit Arguments.

(* ================================================================== *)
(** * Strings and arrays *)
(* ================================================================== *)

Module ArrayFacts.
Import JSNumber JSString Types App.

Lemma eqb_eq (a b : jsstring) : eqb a b = true <-> a = b.
Proof.
  revert b; induction a as [|x a IH]; intros [|y b]; simpl;
    try (split; [discriminate | congruence]); try tauto.
  rewrite andb_true_iff, N.eqb_eq, IH. split.
  - intros [-> ->]; reflexivity.
  - intros E; injection E as -> ->; auto.
Qed.

Lemma eqb_refl (a : jsstring) : eqb a a = true.
Proof. apply eqb_eq; reflexivity. Qed.

Lemma includes_In (arr : list jsstring) (s : jsstring) :
  includes arr s = true <-> In s arr.
Proof.
  unfold includes. rewrite existsb_exists. split.
  - intros (y & Hy & E). apply eqb_eq in E. subst; assumption.
  - intros Hin. exists s. split; [assumption | apply eqb_refl].
Qed.

(** [includes] only looks at which strings the array holds. *)
Lemma includes_Permutation (arr arr' : list jsstring) (s : jsstring) :
  Permutation arr arr' -> includes arr' s = includes arr s.
Proof.
  intros P.
  destruct (includes arr s) eqn:E.
  - apply includes_In. apply (Permutation_in _ P). apply includes_In; assumption.
  - destruct (includes arr' s) eqn:E'; [|reflexivity].
    apply includes_In in E'. apply (Permutation_in _ (Permutation_sym P)) in E'.
    apply includes_In in E'. congruence.
Qed.

Lemma filter_all {A : Type} (p : A -> bool) (l : list A) :
  Forall (fun a => p a = true) l -> filter p l = l.
Proof.
  induction 1 as [|a l Ha _ IH]; simpl; [reflexivity|].
  rewrite Ha, IH; reflexivity.
Qed.

Lemma filter_none {A : Type} (p : A -> bool) (l : list A) :
  Forall (fun a => p a = false) l -> filter p l = [].
Proof.
  induction 1 as [|a l Ha _ IH]; simpl; [reflexivity|].
  rewrite Ha, IH; reflexivity.
Qed.

(** [findIndex] stops at the first element that satisfies the test. *)
Lemma findIndexFrom_spec {A : Type} (p : A -> bool) (l : list A) (i : Z) :
  (0 <= i)%Z ->
  (findIndexFrom p i l = (-1)%Z /\ Forall (fun a => p a = false) l)
  \/ exists pre a post,
       l = pre ++ a :: post /\ p a = true
       /\ Forall (fun b => p b = false) pre
       /\ findIndexFrom p i l = (i + Z.of_nat (List.length pre))%Z.
Proof.
  revert i; induction l as [|a l IH]; intros i Hi; simpl.
  - left; split; [reflexivity | constructor].
  - destruct (p a) eqn:Ha.
    + right. exists [], a, l. simpl. repeat split; auto. lia.
    + destruct (IH (i + 1)%Z) as [[E Hall] | (pre & b & post & -> & Hb & Hpre & E)];
        [lia | |].
      * left; split; [assumption | constructor; assumption].
      * right. exists (a :: pre), b, post. simpl List.length.
        repeat split; auto. rewrite E. lia.
Qed.

Lemma firstn_pre {A : Type} (pre : list A) (l : list A) :
  firstn (List.length pre) (pre ++ l) = pre.
Proof. induction pre as [|a pre IH]; simpl; [destruct l|rewrite IH]; reflexivity. Qed.

Lemma skipn_post {A : Type} (pre : list A) (a : A) (post : list A) :
  skipn (S (List.length pre)) (pre ++ a :: post) = post.
Proof. induction pre as [|c pre IH]; simpl; [reflexivity | exact IH]. Qed.

Lemma findIndexFrom_first {A : Type} (p : A -> bool) (pre : list A) (a : A)
    (post : list A) (i : Z) :
  Forall (fun b => p b = false) pre -> p a = true ->
  findIndexFrom p i (pre ++ a :: post) = (i + Z.of_nat (List.length pre))%Z.
Proof.
  intros Hpre Ha. revert i. induction Hpre as [|b pre Hb _ IH]; intros i; simpl.
  - rewrite Ha. lia.
  - rewrite Hb, IH. lia.
Qed.

Section Generic.
Context {num : Type} `{Number num}.

(** A split of the first beat that carries the id, at offsets inside its
    text, puts the children in its place. *)
Lemma handleSplitBeat_at (dateNow : Z -> Z) (beatId : jsstring)
    (startIdx endIdx : Z) (pre post : list (Beat num)) (b : Beat num) :
  id b = beatId ->
  Forall (fun c => id c <> beatId) pre ->
  (0 <= startIdx < endIdx)%Z ->
  (endIdx <= length (textSegment b))%Z ->
  handleSplitBeat dateNow beatId startIdx endIdx (pre ++ b :: post)
  = Some (pre ++ splitChildren dateNow b startIdx endIdx ++ post).
Proof.
  intros Hid Hpre Hs He. unfold handleSplitBeat, findIndex.
  rewrite (findIndexFrom_first (fun c => eqb (id c) beatId) pre b post 0).
  - simpl Z.add.
    destruct (Z.eqb_spec (Z.of_nat (List.length pre)) (-1)) as [Hm|Hm]; [lia|].
    rewrite Nat2Z.id, nth_error_app2, Nat.sub_diag by lia. simpl nth_error.
    cbv beta iota zeta.
    destruct (Z.ltb_spec startIdx 0); [lia|].
    destruct (Z.gtb_spec endIdx (length (textSegment b))); [lia|].
    destruct (Z.geb_spec startIdx endIdx); [lia|]. simpl orb.
    unfold splice1. rewrite Nat2Z.id, firstn_pre, skipn_post. reflexivity.
  - eapply Forall_impl; [|exact Hpre]. simpl. intros c Hc.
    destruct (eqb (id c) beatId) eqn:E; [|reflexivity].
    apply eqb_eq in E. contradiction.
  - apply eqb_eq; assumption.
Qed.

(** Any other call returns before [setState]. *)
Lemma handleSplitBeat_cases (dateNow : Z -> Z) (beatId : jsstring)
    (startIdx endIdx : Z) (beats : list (Beat num)) :
  handleSplitBeat dateNow beatId startIdx endIdx beats = None
  \/ exists pre b post,
       beats = pre ++ b :: post
       /\ id b = beatId
       /\ Forall (fun c => id c <> beatId) pre
       /\ (0 <= startIdx < endIdx)%Z
       /\ (endIdx <= length (textSegment b))%Z.
Proof.
  destruct (findIndexFrom_spec (fun b => eqb (id b) beatId) beats 0)
    as [[E _] | (pre & b & post & -> & Hb & Hpre & E)]; [lia | |].
  - left. unfold handleSplitBeat, findIndex. rewrite E. reflexivity.
  - unfold handleSplitBeat, findIndex. rewrite E. simpl Z.add.
    destruct (Z.of_nat (List.length pre) =? -1)%Z eqn:Hm; [lia|].
    rewrite Nat2Z.id, nth_error_app2, Nat.sub_diag by lia. simpl nth_error.
    cbv beta iota zeta.
    destruct ((startIdx <? 0)%Z || (endIdx >? length (textSegment b))%Z
              || (startIdx >=? endIdx)%Z) eqn:G; [left; reflexivity|].
    right. exists pre, b, post.
    apply orb_false_iff in G as [G G3]. apply orb_false_iff in G as [G1 G2].
    repeat split; try lia.
    + apply eqb_eq; assumption.
    + eapply Forall_impl; [|exact Hpre]. simpl. intros c Hc Heq.
      subst beatId. rewrite eqb_refl in Hc. discriminate.
Qed.

End Generic.

End ArrayFacts.

(* ================================================================== *)
(** * Tilings of the time line, in exact arithmetic *)
(* ================================================================== *)

Module ChainFacts.
Import JSNumber JSString Types App Partition.
Local Open Scope Q_scope.

Lemma Qltb_lt (a b : Q) : Qltb a b = true <-> a < b.
Proof. unfold Qltb. rewrite Qlt_alt. destruct (a ?= b); split; congruence. Qed.

Lemma Qltb_ge (a b : Q) : Qltb a b = false <-> b <= a.
Proof.
  split; intros Hab.
  - apply Qnot_lt_le. intros Hlt. apply Qltb_lt in Hlt. congruence.
  - destruct (Qltb a b) eqn:E; [|reflexivity].
    apply Qltb_lt in E. exfalso. apply (Qlt_not_le _ _ E). assumption.
Qed.

Lemma adjacent_cons {A : Type} (R : A -> A -> Prop) (a : A) (l : list A) :
  adjacent R (a :: l) -> adjacent R l.
Proof. destruct l; simpl; tauto. Qed.

(** The end points of a tiling may be replaced by equal rationals. *)
Lemma chain_proper (l : list (Beat Q)) (t1 t2 t1' t2' : Q) :
  t1 == t2 -> t1' == t2' -> chain t1 l t1' -> chain t2 l t2'.
Proof.
  destruct l as [|b l]; simpl.
  - intros E E' Hc. rewrite <- E, <- E'. assumption.
  - intros E E' (Hs & Hw & Hc). repeat split; [rewrite <- E; assumption | assumption |].
    clear Hs Hw E. revert Hc. generalize (endTime b). clear b.
    induction l as [|c l IH]; simpl; intros t Hc.
    + rewrite <- E'. assumption.
    + destruct Hc as (Hs & Hw & Hc). repeat split; auto.
Qed.

(** Tilings compose. *)
Lemma chain_app (l1 l2 : list (Beat Q)) (t t' : Q) :
  chain t (l1 ++ l2) t' <-> exists m, chain t l1 m /\ chain m l2 t'.
Proof.
  revert t; induction l1 as [|b l1 IH]; intros t; simpl.
  - split.
    + intros Hc. exists t. split; [reflexivity | assumption].
    + intros (m & E & Hc). apply (chain_proper l2 _ _ _ _ (Qeq_sym _ _ E) (Qeq_refl t')).
      assumption.
  - rewrite IH. split.
    + intros (Hs & Hw & m & H1 & H2). exists m. tauto.
    + intros (m & (Hs & Hw & H1) & H2). repeat split; auto. exists m. tauto.
Qed.

Lemma chain_le (l : list (Beat Q)) (t t' : Q) : chain t l t' -> t <= t'.
Proof.
  revert t; induction l as [|b l IH]; simpl; intros t.
  - intros E. rewrite E. apply Qle_refl.
  - intros (Hs & Hw & Hc). apply IH in Hc. rewrite <- Hs.
    apply Qle_trans with (endTime b); [apply Qlt_le_weak|]; assumption.
Qed.

(** Every beat of a tiling of [[t, t')] lies inside [[t, t')]. *)
Lemma chain_bounds (l : list (Beat Q)) (t t' : Q) :
  chain t l t' -> Forall (fun b => t <= startTime b /\ endTime b <= t') l.
Proof.
  revert t; induction l as [|b l IH]; simpl; intros t; [constructor|].
  intros (Hs & Hw & Hc). constructor.
  - split; [rewrite Hs; apply Qle_refl | apply (chain_le _ _ _ Hc)].
  - eapply Forall_impl; [|apply (IH _ Hc)]. simpl. intros c [H1 H2].
    split; [|assumption].
    apply Qle_trans with (endTime b); [|assumption].
    rewrite <- Hs. apply Qlt_le_weak; assumption.
Qed.

Lemma chain_head (b : Beat Q) (l : list (Beat Q)) (t t' : Q) :
  chain t (b :: l) t' -> startTime b == t.
Proof. simpl; tauto. Qed.

Lemma chain_last (l : list (Beat Q)) (d : Beat Q) (t t' : Q) :
  chain t l t' -> l <> [] -> endTime (last l d) == t'.
Proof.
  revert t; induction l as [|b l IH]; intros t Hc Hne; [congruence|].
  destruct Hc as (Hs & Hw & Hc). destruct l as [|c l].
  - simpl in *. assumption.
  - change (last (b :: c :: l) d) with (last (c :: l) d).
    apply (IH _ Hc). discriminate.
Qed.

(** A tiling is a valid beat list. *)
Lemma chain_valid (l : list (Beat Q)) (t t' : Q) : chain t l t' -> valid l.
Proof.
  revert t; induction l as [|b l IH]; intros t Hc.
  - repeat split; simpl; auto; constructor.
  - destruct Hc as (Hs & Hw & Hc).
    destruct (IH _ Hc) as (Hwf & Hcont & Hno & Hord).
    assert (Hb := chain_bounds _ _ _ Hc).
    repeat split.
    + constructor; assumption.
    + destruct l as [|c l]; simpl; [trivial|]. split; [|assumption].
      destruct Hc as (Hc & _). symmetry; assumption.
    + constructor; [|assumption].
      eapply Forall_impl; [|exact Hb]. simpl. intros c [H1 _] [_ H2].
      apply (Qlt_not_le _ _ H2). assumption.
    + destruct l as [|c l]; simpl; [trivial|]. split; [|assumption].
      destruct Hc as (Hc & _). rewrite Hc. apply Qlt_le_weak; assumption.
Qed.

Lemma last_cons {A : Type} (l : list A) (c d : A) : last (c :: l) d = last l c.
Proof.
  revert c d; induction l as [|a l IH]; intros c d; [reflexivity|].
  change (last (c :: a :: l) d) with (last (a :: l) d).
  rewrite (IH a d), (IH a c). reflexivity.
Qed.

(** A valid beat list tiles the span from its first start to its last end. *)
Lemma valid_chain (b : Beat Q) (l : list (Beat Q)) :
  Forall wellFormed (b :: l) -> contiguous (b :: l) ->
  chain (startTime b) (b :: l) (endTime (last l b)).
Proof.
  revert b; induction l as [|c l IH]; intros b Hwf Hcont.
  - simpl. inversion Hwf; subst. split; [reflexivity|]. split; [assumption | reflexivity].
  - inversion Hwf as [|? ? Hb Hwf']; subst. destruct Hcont as [Hbc Hcont].
    split; [reflexivity|]. split; [exact Hb|].
    apply chain_proper with (t1 := startTime c) (t1' := endTime (last l c)).
    + symmetry; assumption.
    + rewrite (last_cons l c b). reflexivity.
    + apply IH; assumption.
Qed.

Lemma valid_nil : valid [].
Proof. repeat split; simpl; auto; constructor. Qed.

Lemma valid_tiles (l : list (Beat Q)) :
  valid l -> l <> [] -> exists t t', chain t l t'.
Proof.
  intros (Hwf & Hcont & _ & _) Hne. destruct l as [|b l]; [congruence|].
  eexists; eexists. apply valid_chain; assumption.
Qed.

(** One beat may be replaced by a tiling of its interval. *)
Lemma valid_replace (pre post cs : list (Beat Q)) (b : Beat Q) :
  valid (pre ++ b :: post) ->
  chain (startTime b) cs (endTime b) ->
  valid (pre ++ cs ++ post).
Proof.
  intros Hv Hcs.
  destruct (valid_tiles _ Hv) as (t & t' & Hc); [destruct pre; discriminate|].
  apply chain_app in Hc as (m & Hpre & Hs & Hw & Hpost).
  apply chain_valid with (t := t) (t' := t').
  apply chain_app. exists m. split; [assumption|].
  apply chain_app. exists (endTime b). split; [|assumption].
  apply (chain_proper cs _ _ _ _ Hs (Qeq_refl _)). assumption.
Qed.

End ChainFacts.

(* ================================================================== *)
(** * The split loop *)
(* ================================================================== *)

Module SplitFacts.
Import JSNumber JSString Types App Partition ArrayFacts ChainFacts.

Lemma splitParts_ranges (txt : jsstring) (s e : Z) :
  splitParts txt s e
  = List.map (fun r => {| text := substring txt (fst r) (snd r);
                          len := snd r - fst r |})
             (keptRanges s e (length txt)).
Proof.
  unfold splitParts, keptRanges, substringFrom.
  rewrite !map_app. rewrite (Z.gtb_ltb s 0), (Z.gtb_ltb (length txt - e) 0).
  replace (0 <? length txt - e)%Z with (e <? length txt)%Z
    by (destruct (Z.ltb_spec e (length txt)), (Z.ltb_spec 0 (length txt - e)); lia).
  destruct (0 <? s)%Z, (e <? length txt)%Z; simpl; rewrite ?Z.sub_0_r; reflexivity.
Qed.

Lemma splitParts_lens (txt : jsstring) (s e : Z) :
  (0 <= s < e)%Z -> (e <= length txt)%Z ->
  Forall (fun p => (0 < len p)%Z) (splitParts txt s e)
  /\ sumLen (splitParts txt s e) = length txt.
Proof.
  intros Hs He. unfold splitParts.
  destruct (Z.gtb_spec s 0), (Z.gtb_spec (length txt - e) 0); simpl;
    (split; [repeat constructor; simpl; lia | unfold sumLen; simpl; lia]).
Qed.

Lemma splitParts_nonempty (txt : jsstring) (s e : Z) : splitParts txt s e <> [].
Proof.
  unfold splitParts. destruct (s >? 0)%Z; simpl; [discriminate|].
  discriminate.
Qed.

Section AnyNumber.
Context {num : Type} `{Number num}.

(** Whatever the arithmetic, the loop starts at [currentStartTime] and
    starts each beat at the very number the previous one ends at. *)
Lemma splitLoop_linked (dateNow : Z -> Z) (ob : Beat num) (L : Z) (D : num)
    (parts : list Part) (i : Z) (t : num) :
  adjacent (fun a b => endTime a = startTime b)
           (splitLoop dateNow ob L D i t parts)
  /\ (forall d, parts <> [] ->
        startTime (hd d (splitLoop dateNow ob L D i t parts)) = t).
Proof.
  revert i t; induction parts as [|p parts IH]; intros i t; simpl.
  - split; [trivial | congruence].
  - split; [|reflexivity].
    destruct (IH (i + 1)%Z (nadd t (nmul (ndiv (ofZ (len p)) (ofZ L)) D)))
      as [Hadj Hhd].
    destruct parts as [|q parts]; [simpl; trivial|].
    specialize (Hhd ob ltac:(discriminate)).
    simpl in Hhd, Hadj |- *. split; [reflexivity | exact Hadj].
Qed.

Lemma splitLoop_length (dateNow : Z -> Z) (ob : Beat num) (L : Z) (D : num)
    (parts : list Part) (i : Z) (t : num) :
  List.length (splitLoop dateNow ob L D i t parts) = List.length parts.
Proof.
  revert i t; induction parts as [|p parts IH]; intros i t; simpl;
    [reflexivity | rewrite IH; reflexivity].
Qed.

(** What a child takes from its part and from the original beat. *)
Lemma splitLoop_fields (dateNow : Z -> Z) (ob : Beat num) (L : Z) (D : num)
    (parts : list Part) (i : Z) (t : num) :
  Forall2 (fun p c =>
             textSegment c = trim (text p)
             /\ visualPrompt c = trim (text p) ++ promptSuffix
             /\ overlayType c = overlayType ob
             /\ styleConfig c = styleConfig ob
             /\ isEnabled c = true
             /\ bRollSettings c = defaultSplitSettings
             /\ bRollImage c = None
             /\ bRollOptions c = Some [])
          parts (splitLoop dateNow ob L D i t parts).
Proof.
  revert i t; induction parts as [|p parts IH]; intros i t; simpl;
    constructor; [simpl; repeat split | apply IH].
Qed.

End AnyNumber.

Local Open Scope Q_scope.

Lemma inject_Z_nonzero (z : Z) : (0 < z)%Z -> ~ inject_Z z == 0.
Proof. intros Hz E. unfold Qeq in E. simpl in E. lia. Qed.

Lemma inject_Z_pos (z : Z) : (0 < z)%Z -> 0 < inject_Z z.
Proof. intros Hz. unfold Qlt. simpl. lia. Qed.

Lemma part_duration_pos (l L : Z) (D : Q) :
  (0 < l)%Z -> (0 < L)%Z -> 0 < D -> 0 < inject_Z l / inject_Z L * D.
Proof.
  intros Hl HL HD. apply Qmult_lt_0_compat; [|assumption].
  apply Qlt_shift_div_l; [apply inject_Z_pos; assumption|].
  rewrite Qmult_0_l. apply inject_Z_pos; assumption.
Qed.

(** In exact arithmetic the loop tiles the interval that starts at
    [currentStartTime] and takes the parts' share of the duration. *)
Lemma splitLoop_chain (dateNow : Z -> Z) (ob : Beat Q) (L : Z) (D : Q)
    (parts : list Part) (i : Z) (t : Q) :
  (0 < L)%Z -> 0 < D -> Forall (fun p => (0 < len p)%Z) parts ->
  chain t (splitLoop dateNow ob L D i t parts)
        (t + inject_Z (sumLen parts) / inject_Z L * D).
Proof.
  intros HL HD Hparts. revert i t.
  induction Hparts as [|p parts Hp _ IH]; intros i t.
  - simpl. unfold Qdiv. ring.
  - cbn [splitLoop chain startTime endTime nadd nmul ndiv ofZ QNumber].
    split; [reflexivity|]. split.
    + rewrite <- (Qplus_0_r t) at 1. apply Qplus_lt_r.
      apply part_duration_pos; assumption.
    + eapply chain_proper; [reflexivity | | apply IH].
      unfold sumLen; simpl fold_right. fold (sumLen parts).
      rewrite inject_Z_plus. unfold Qdiv. ring.
Qed.

(** Each child lasts its part's share of the duration. *)
Lemma splitLoop_durations (dateNow : Z -> Z) (ob : Beat Q) (L : Z) (D : Q)
    (parts : list Part) (i : Z) (t : Q) :
  Forall2 (fun p c => endTime c - startTime c == D * inject_Z (len p) / inject_Z L)
          parts (splitLoop dateNow ob L D i t parts).
Proof.
  revert i t; induction parts as [|p parts IH]; intros i t; simpl;
    constructor; [|apply IH].
  simpl. unfold Qdiv. ring.
Qed.

(** In exact arithmetic the children of a split tile the original interval. *)
Lemma splitChildren_chain (dateNow : Z -> Z) (b : Beat Q) (s e : Z) :
  wellFormed b -> (0 <= s < e)%Z -> (e <= length (textSegment b))%Z ->
  chain (startTime b) (splitChildren dateNow b s e) (endTime b).
Proof.
  intros Hw Hs He. unfold splitChildren.
  destruct (splitParts_lens (textSegment b) s e Hs He) as [Hpos Hsum].
  assert (HL : (0 < length (textSegment b))%Z) by lia.
  eapply chain_proper; [reflexivity | | apply splitLoop_chain; try assumption].
  - rewrite Hsum. cbn [nsub QNumber]. field. apply inject_Z_nonzero; assumption.
  - cbn [nsub QNumber]. unfold wellFormed in Hw.
    apply (Qplus_lt_l _ _ (startTime b)). ring_simplify. assumption.
Qed.

End SplitFacts.

(* ================================================================== *)
(** * Sorting by start time and the merge *)
(* ================================================================== *)

Module MergeFacts.
Import JSNumber JSString Types App Partition ArrayFacts ChainFacts.

Section AnyNumber.
Context {num : Type} `{Number num}.

Lemma insertBy_perm {A : Type} (cmp : A -> A -> num) (a : A) (l : list A) :
  Permutation (insertBy cmp a l) (a :: l).
Proof.
  induction l as [|b l IH]; simpl; [apply Permutation_refl|].
  destruct (ngtb (cmp a b) (ofZ 0)); [|apply Permutation_refl].
  apply perm_trans with (b :: a :: l); [apply perm_skip; exact IH | apply perm_swap].
Qed.

(** [sort] rearranges; it neither drops nor adds an element. *)
Lemma sortBy_perm {A : Type} (cmp : A -> A -> num) (l : list A) :
  Permutation (sortBy cmp l) l.
Proof.
  induction l as [|a l IH]; simpl; [apply perm_nil|].
  apply perm_trans with (a :: sortBy cmp l);
    [apply insertBy_perm | apply perm_skip; exact IH].
Qed.

Lemma sortBy_length {A : Type} (cmp : A -> A -> num) (l : list A) :
  List.length (sortBy cmp l) = List.length l.
Proof. apply Permutation_length, sortBy_perm. Qed.

(** With fewer than two selected beats the handler returns early. *)
Lemma handleMergeBeats_few (now : Z) (beatIds : list jsstring)
    (beats : list (Beat num)) :
  (List.length (selectBeats beatIds beats) < 2)%nat ->
  handleMergeBeats now beatIds beats = None.
Proof.
  intros Hlen. unfold handleMergeBeats.
  destruct (Nat.ltb_spec (List.length (selectBeats beatIds beats)) 2);
    [reflexivity | lia].
Qed.

(** With two or more it replaces them by one merged beat. *)
Lemma handleMergeBeats_some (now : Z) (beatIds : list jsstring)
    (beats : list (Beat num)) :
  (2 <= List.length (selectBeats beatIds beats))%nat ->
  exists firstBeat rest,
    sortBy byStartTime (selectBeats beatIds beats) = firstBeat :: rest
    /\ handleMergeBeats now beatIds beats
       = Some (sortBy byStartTime
                 (remainingBeats beatIds beats
                  ++ [mergedBeat now firstBeat (last (firstBeat :: rest) firstBeat)
                        (firstBeat :: rest)])).
Proof.
  intros Hlen. unfold handleMergeBeats.
  destruct (Nat.ltb_spec (List.length (selectBeats beatIds beats)) 2); [lia|].
  cbv zeta.
  destruct (sortBy byStartTime (selectBeats beatIds beats)) as [|f rest] eqn:E.
  - apply (f_equal (@List.length _)) in E. rewrite sortBy_length in E.
    simpl in E. lia.
  - exists f, rest. split; reflexivity.
Qed.

(** The handler only asks which ids the array holds. *)
Lemma handleMergeBeats_Permutation (now : Z) (beatIds beatIds' : list jsstring)
    (beats : list (Beat num)) :
  Permutation beatIds beatIds' ->
  handleMergeBeats now beatIds' beats = handleMergeBeats now beatIds beats.
Proof.
  intros P. unfold handleMergeBeats, selectBeats, remainingBeats.
  rewrite (filter_ext (fun b => includes beatIds' (id b))
                      (fun b => includes beatIds (id b)))
    by (intros b; apply includes_Permutation; assumption).
  rewrite (filter_ext (fun b => negb (includes beatIds' (id b)))
                      (fun b => negb (includes beatIds (id b))))
    by (intros b; f_equal; apply includes_Permutation; assumption).
  reflexivity.
Qed.

(** At most one beat of a list with distinct ids carries a given id. *)
Lemma select_one (i : jsstring) (beats : list (Beat num)) :
  NoDup (List.map (@id num) beats) ->
  (List.length (selectBeats [i] beats) <= 1)%nat.
Proof.
  unfold selectBeats. induction beats as [|b beats IH]; simpl; [lia|].
  intros Hnd. inversion Hnd as [|? ? Hnotin Hnd']; subst.
  specialize (IH Hnd'). rewrite orb_false_r.
  destruct (eqb (id b) i) eqn:E; [|exact IH].
  apply eqb_eq in E. subst i. simpl.
  rewrite filter_none; [simpl; lia|].
  apply Forall_forall. intros c Hc. simpl. rewrite orb_false_r.
  destruct (eqb (id c) (id b)) eqn:E; [|reflexivity].
  apply eqb_eq in E. exfalso. apply Hnotin. rewrite <- E.
  apply in_map; assumption.
Qed.

End AnyNumber.

Local Open Scope Q_scope.

Lemma after_iff (a b : Beat Q) :
  ngtb (byStartTime a b) (ofZ 0) = true <-> startTime b < startTime a.
Proof.
  unfold ngtb, byStartTime. cbn [nltb nsub ofZ QNumber]. rewrite Qltb_lt.
  change (inject_Z 0) with 0. split; intros Hlt; lra.
Qed.

Lemma not_after_iff (a b : Beat Q) :
  ngtb (byStartTime a b) (ofZ 0) = false <-> startTime a <= startTime b.
Proof.
  split; intros Hab.
  - apply Qnot_lt_le. intros Hlt. apply after_iff in Hlt. congruence.
  - destruct (ngtb (byStartTime a b) (ofZ 0)) eqn:E; [|reflexivity].
    apply after_iff in E. exfalso. apply (Qlt_not_le _ _ E). assumption.
Qed.

Lemma insertBy_ordered (a : Beat Q) (l : list (Beat Q)) :
  ordered l -> ordered (insertBy byStartTime a l).
Proof.
  unfold ordered. induction l as [|b l IH]; cbn [insertBy adjacent]; [trivial|].
  intros Hord. destruct (ngtb (byStartTime a b) (ofZ 0)) eqn:E.
  - apply after_iff in E. specialize (IH (adjacent_cons _ _ _ Hord)).
    destruct l as [|c l]; cbn [insertBy adjacent] in *.
    + split; [apply Qlt_le_weak; assumption | trivial].
    + destruct (ngtb (byStartTime a c) (ofZ 0)) eqn:E'.
      * split; [apply Hord | exact IH].
      * split; [apply Qlt_le_weak; assumption | exact IH].
  - apply not_after_iff in E. split; [assumption | exact Hord].
Qed.

(** The outcome of [sort] is ordered by start time. *)
Lemma sortBy_ordered (l : list (Beat Q)) : ordered (sortBy byStartTime l).
Proof.
  induction l as [|a l IH]; simpl; [exact I | apply insertBy_ordered, IH].
Qed.

Lemma insertBy_front (a : Beat Q) (l : list (Beat Q)) :
  ordered (a :: l) -> insertBy byStartTime a l = a :: l.
Proof.
  unfold ordered. destruct l as [|b l]; cbn [insertBy adjacent]; [reflexivity|].
  intros [Hab _]. apply not_after_iff in Hab. rewrite Hab. reflexivity.
Qed.

(** [sort] leaves an ordered array as it is. *)
Lemma sortBy_id (l : list (Beat Q)) : ordered l -> sortBy byStartTime l = l.
Proof.
  induction l as [|a l IH]; intros Hord; cbn [sortBy]; [reflexivity|].
  rewrite IH by (exact (adjacent_cons _ _ _ Hord)).
  apply insertBy_front; assumption.
Qed.

Lemma sortBy_append_least (m : Beat Q) (post : list (Beat Q)) :
  ordered post -> Forall (fun c => startTime m < startTime c) post ->
  sortBy byStartTime (post ++ [m]) = m :: post.
Proof.
  induction post as [|c post IH]; intros Hord Hlt; cbn [sortBy app];
    [reflexivity|].
  inversion Hlt as [|? ? Hc Hlt']; subst.
  rewrite IH by (try exact (adjacent_cons _ _ _ Hord); assumption).
  cbn [insertBy]. apply after_iff in Hc. rewrite Hc.
  rewrite insertBy_front by assumption. reflexivity.
Qed.

(** A beat appended to an ordered array is moved to its place. *)
Lemma sortBy_place (pre post : list (Beat Q)) (m : Beat Q) :
  ordered (pre ++ m :: post) ->
  Forall (fun c => startTime m < startTime c) post ->
  sortBy byStartTime (pre ++ post ++ [m]) = pre ++ m :: post.
Proof.
  induction pre as [|a pre IH]; intros Hord Hlt.
  - simpl app. apply sortBy_append_least; [|assumption].
    exact (adjacent_cons _ _ _ Hord).
  - cbn [sortBy app]. rewrite IH by (try exact (adjacent_cons _ _ _ Hord); assumption).
    apply insertBy_front. exact Hord.
Qed.

End MergeFacts.

(* ================================================================== *)
(** * The span of a selection *)
(* ================================================================== *)

Module SpanFacts.
Import JSNumber JSString Types App Partition ArrayFacts ChainFacts MergeFacts.
Local Open Scope Q_scope.

Lemma mathMin_cases (a b : Q) :
  (mathMin a b = b /\ b < a) \/ (mathMin a b = a /\ a <= b).
Proof.
  cbn [mathMin QNumber]. destruct (Qltb b a) eqn:E.
  - left. split; [reflexivity | apply Qltb_lt; assumption].
  - right. split; [reflexivity | apply Qltb_ge; assumption].
Qed.

Lemma mathMax_cases (a b : Q) :
  (mathMax a b = b /\ a < b) \/ (mathMax a b = a /\ b <= a).
Proof.
  cbn [mathMax QNumber]. destruct (Qltb a b) eqn:E.
  - left. split; [reflexivity | apply Qltb_lt; assumption].
  - right. split; [reflexivity | apply Qltb_ge; assumption].
Qed.

Lemma fold_min_least (l : list Q) (a m : Q) :
  m <= a -> Forall (fun x => m <= x) l ->
  a == m \/ Exists (fun x => x == m) l ->
  fold_left mathMin l a == m.
Proof.
  revert a; induction l as [|x l IH]; intros a Ha Hall Hex; cbn [fold_left].
  - destruct Hex as [E | Hex]; [assumption | inversion Hex].
  - inversion Hall as [|? ? Hx Hall']; subst.
    destruct (mathMin_cases a x) as [[-> Hlt] | [-> Hle]]; apply IH; auto.
    + destruct Hex as [E | Hex]; [lra|].
      inversion Hex; subst; [left; assumption | right; assumption].
    + destruct Hex as [E | Hex]; [left; assumption|].
      inversion Hex; subst; [left; lra | right; assumption].
Qed.

Lemma fold_max_greatest (l : list Q) (a m : Q) :
  a <= m -> Forall (fun x => x <= m) l ->
  a == m \/ Exists (fun x => x == m) l ->
  fold_left mathMax l a == m.
Proof.
  revert a; induction l as [|x l IH]; intros a Ha Hall Hex; cbn [fold_left].
  - destruct Hex as [E | Hex]; [assumption | inversion Hex].
  - inversion Hall as [|? ? Hx Hall']; subst.
    destruct (mathMax_cases a x) as [[-> Hlt] | [-> Hle]]; apply IH; auto.
    + destruct Hex as [E | Hex]; [lra|].
      inversion Hex; subst; [left; assumption | right; assumption].
    + destruct Hex as [E | Hex]; [left; assumption|].
      inversion Hex; subst; [left; lra | right; assumption].
Qed.

(** A member that bounds the list from below is its minimum. *)
Lemma listMin_least (l : list Q) (m : Q) :
  In m l -> Forall (fun x => m <= x) l -> listMin l == m.
Proof.
  destruct l as [|a l]; [intros []|]. intros Hin Hall. cbn [listMin].
  inversion Hall; subst. apply fold_min_least; try assumption.
  destruct Hin as [-> | Hin]; [left; reflexivity|].
  right. apply Exists_exists. exists m. split; [assumption | reflexivity].
Qed.

Lemma listMax_greatest (l : list Q) (m : Q) :
  In m l -> Forall (fun x => x <= m) l -> listMax l == m.
Proof.
  destruct l as [|a l]; [intros []|]. intros Hin Hall. cbn [listMax].
  inversion Hall; subst. apply fold_max_greatest; try assumption.
  destruct Hin as [-> | Hin]; [left; reflexivity|].
  right. apply Exists_exists. exists m. split; [assumption | reflexivity].
Qed.

Lemma last_In {A : Type} (l : list A) (d : A) : l <> [] -> In (last l d) l.
Proof.
  induction l as [|a l IH]; [congruence|]. intros _.
  destruct l as [|b l]; [left; reflexivity|].
  right. apply IH. discriminate.
Qed.

(** The first beat of an ordered list starts first. *)
Lemma ordered_head_least (a : Beat Q) (l : list (Beat Q)) :
  ordered (a :: l) -> Forall (fun c => startTime a <= startTime c) (a :: l).
Proof.
  intros Hord. constructor; [apply Qle_refl|].
  revert a Hord; induction l as [|b l IH]; intros a Hord; constructor.
  - apply Hord.
  - destruct Hord as [Hab Hord]. eapply Forall_impl; [|apply (IH b Hord)].
    simpl. intros c Hc. apply Qle_trans with (startTime b); assumption.
Qed.

Lemma overlap_sym (a b : Beat Q) : overlap a b -> overlap b a.
Proof. unfold overlap; tauto. Qed.

(** Being free of overlaps does not depend on the order of the list. *)
Lemma nonOverlapping_Permutation (l l' : list (Beat Q)) :
  Permutation l l' -> nonOverlapping l -> nonOverlapping l'.
Proof.
  unfold nonOverlapping. induction 1 as [|a l l' P IH|a b l|l l' l'' P1 IH1 P2 IH2];
    intros Hno; auto.
  - inversion Hno as [|? ? Ha Hl]; subst. constructor; [|apply IH; assumption].
    apply (Permutation_Forall P). assumption.
  - inversion Hno as [|? ? Ha Hl]; subst. inversion Ha as [|? ? Hab Hal]; subst.
    inversion Hl as [|? ? Hbl Hl']; subst.
    constructor; [constructor|constructor]; try assumption.
    intros Hov. apply Hab. apply overlap_sym; assumption.
Qed.

(** Among well-formed beats without overlaps, in order of start time,
    the last one ends last. *)
Lemma ordered_last_greatest (l : list (Beat Q)) (d : Beat Q) :
  ordered l -> Forall wellFormed l -> nonOverlapping l ->
  Forall (fun c => endTime c <= endTime (last l d)) l.
Proof.
  induction l as [|a l IH]; intros Hord Hwf Hno; [constructor|].
  inversion Hwf as [|? ? Ha Hwf']; subst.
  inversion Hno as [|? ? Hal Hno']; subst.
  destruct l as [|b l]; [constructor; [apply Qle_refl | constructor]|].
  change (last (a :: b :: l) d) with (last (b :: l) d).
  specialize (IH (adjacent_cons _ _ _ Hord) Hwf' Hno').
  constructor; [|exact IH].
  assert (Hin : In (last (b :: l) d) (b :: l)) by (apply last_In; discriminate).
  assert (Hs : startTime a <= startTime (last (b :: l) d)).
  { assert (Hh := ordered_head_least a (b :: l) Hord).
    inversion Hh as [|? ? _ Hh']; subst.
    exact (proj1 (Forall_forall _ _) Hh' _ Hin). }
  assert (Hw : wellFormed (last (b :: l) d))
    by exact (proj1 (Forall_forall _ _) Hwf' _ Hin).
  assert (Hn := proj1 (Forall_forall _ _) Hal _ Hin).
  unfold wellFormed in Hw, Ha. unfold overlap in Hn.
  apply Qnot_lt_le. intros Hlt. apply Hn. split; lra.
Qed.

End SpanFacts.

(* ================================================================== *)
(** * Properties of the timeline editing engine *)
(* ================================================================== *)

Import JSNumber Types App Partition.
Import ArrayFacts ChainFacts SplitFacts MergeFacts SpanFacts.

Lemma Forall2_map_l {A B C : Type} (f : A -> B) (P : B -> C -> Prop)
    (l : list A) (l' : list C) :
  Forall2 P (List.map f l) l' -> Forall2 (fun a c => P (f a) c) l l'.
Proof.
  revert l'; induction l as [|a l IH]; intros l' HF; inversion HF; subst;
    constructor; auto.
Qed.

(** The children of a split correspond, in text order, to the kept ranges. *)
Lemma splitChildren_ranges {num : Type} `{Number num} (dateNow : Z -> Z)
    (b : Beat num) (s e : Z) :
  Forall2 (fun r c =>
             textSegment c
             = JSString.trim (JSString.substring (textSegment b) (fst r) (snd r)))
          (keptRanges s e (JSString.length (textSegment b)))
          (splitChildren dateNow b s e).
Proof.
  unfold splitChildren. rewrite splitParts_ranges.
  apply (Forall2_map_l
           (fun r => {| text := JSString.substring (textSegment b) (fst r) (snd r);
                        len := snd r - fst r |})
           (fun p c => textSegment c = JSString.trim (text p))).
  eapply Forall2_impl; [|apply splitLoop_fields]. simpl. tauto.
Qed.

(** In exact arithmetic each child lasts its range's share of the duration. *)
Lemma splitChildren_durations (dateNow : Z -> Z) (b : Beat Q) (s e : Z) :
  Forall2 (fun r c =>
             (endTime c - startTime c
              == (endTime b - startTime b) * inject_Z (snd r - fst r)
                 / inject_Z (JSString.length (textSegment b)))%Q)
          (keptRanges s e (JSString.length (textSegment b)))
          (splitChildren dateNow b s e).
Proof.
  unfold splitChildren. rewrite splitParts_ranges.
  apply (Forall2_map_l
           (fun r => {| text := JSString.substring (textSegment b) (fst r) (snd r);
                        len := snd r - fst r |})
           (fun p c => (endTime c - startTime c
                        == (endTime b - startTime b) * inject_Z (len p)
                           / inject_Z (JSString.length (textSegment b)))%Q)).
  apply splitLoop_durations.
Qed.

Lemma Forall2_and {A B : Type} (P Q : A -> B -> Prop) (l : list A) (l' : list B) :
  Forall2 P l l' -> Forall2 Q l l' -> Forall2 (fun a b => P a b /\ Q a b) l l'.
Proof.
  induction 1; intros HQ; inversion HQ; subst; constructor; auto.
Qed.

(** Whatever the arithmetic, each child ends at its start plus the
    duration [(len / L) * D] that the loop computes for its part. *)
Lemma splitLoop_ends {num : Type} `{Number num} (dateNow : Z -> Z) (ob : Beat num)
    (L : Z) (D : num) (parts : list Part) :
  forall (i : Z) (t : num),
    Forall2 (fun p c =>
               endTime c
               = nadd (startTime c) (nmul (ndiv (ofZ (len p)) (ofZ L)) D))
            parts (splitLoop dateNow ob L D i t parts).
Proof.
  induction parts as [|p parts IH]; intros i t; cbn [splitLoop]; constructor;
    [reflexivity | apply IH].
Qed.

Lemma splitChildren_ends {num : Type} `{Number num} (dateNow : Z -> Z)
    (b : Beat num) (s e : Z) :
  Forall2 (fun r c =>
             endTime c
             = nadd (startTime c)
                 (nmul (ndiv (ofZ (snd r - fst r))
                             (ofZ (JSString.length (textSegment b))))
                       (nsub (endTime b) (startTime b))))
          (keptRanges s e (JSString.length (textSegment b)))
          (splitChildren dateNow b s e).
Proof.
  unfold splitChildren. rewrite splitParts_ranges.
  apply (Forall2_map_l
           (fun r => {| text := JSString.substring (textSegment b) (fst r) (snd r);
                        len := snd r - fst r |})
           (fun p c => endTime c
                       = nadd (startTime c)
                           (nmul (ndiv (ofZ (len p))
                                       (ofZ (JSString.length (textSegment b))))
                                 (nsub (endTime b) (startTime b))))).
  apply splitLoop_ends.
Qed.

(** C1, as stated, fails in binary64, the arithmetic of the program: the
    children of the beat over [[2.8, 4.8)] with text "ABC", split at (1, 2),
    do not last D * partLength / L, whichever way that product is
    bracketed, and the two children of the seven-second beat over "ABC",
    split at (0, 1), last less than a third and two thirds of 7 and end
    before 7. *)
Lemma split_durations_deviate_in_binary64 :
  (let b := Scenario.fractional (num := float) in
   let D := PrimFloat.sub (endTime b) (startTime b) in
   List.length (splitChildren Scenario.clock b 1 2) = 3%nat
   /\ Forall (fun c =>
                PrimFloat.eqb (PrimFloat.sub (endTime c) (startTime c))
                              (PrimFloat.div (PrimFloat.mul D 1) 3) = false
                /\ PrimFloat.eqb (PrimFloat.sub (endTime c) (startTime c))
                                 (PrimFloat.mul D (PrimFloat.div 1 3)) = false)
             (splitChildren Scenario.clock b 1 2))
  /\ (let b := Scenario.sevenSeconds (num := float) in
      List.map (fun c => (PrimFloat.ltb (PrimFloat.sub (endTime c) (startTime c))
                                        (PrimFloat.div
                                           (PrimFloat.mul 7 (F64ofZ (JSString.length
                                                                      (textSegment c))))
                                           3),
                          PrimFloat.ltb (endTime c) 7))
               (splitChildren Scenario.clock b 0 1)
      = [(true, true); (true, true)]).
Proof.
  split.
  - cbv zeta. split; [vm_compute; reflexivity|].
    repeat constructor; vm_compute; reflexivity.
  - vm_compute. reflexivity.
Qed.

(** C1, amended.  Whatever the arithmetic, a split of the first beat that
    carries the id, at offsets 0 <= s < e <= L, puts one child per kept
    part (the ranges [0,s), [s,e), [e,L), the first and the last only when
    not empty) in the place of the beat, in text order; the first child
    starts at the start of the beat, each child starts at the very number
    the previous one ends at, and each child ends at its start plus
    (partLength / L) * D, as that arithmetic computes it, D being the end
    less the start of the beat.  In exact arithmetic each child therefore
    lasts D * partLength / L.  In binary64 the end less the start of a
    child can differ from D * partLength / L: it does for each of the three
    children of the beat over [[2.8, 4.8)] with text "ABC", split at (1, 2).
    The ten-second beat with text "ABCDEFGHIJ", split at (3, 6), yields
    exactly three beats of durations 3, 3 and 4 with texts "ABC", "DEF" and
    "GHIJ", in exact arithmetic and in binary64 alike. *)
Theorem split_durations_proportional :
  (forall (num : Type) (N : Number num) (dateNow : Z -> Z)
          (beatId : JSString.jsstring) (s e : Z)
          (pre post : list (Beat num)) (b : Beat num),
      id b = beatId ->
      Forall (fun c => id c <> beatId) pre ->
      (0 <= s < e)%Z ->
      (e <= JSString.length (textSegment b))%Z ->
      exists children,
        handleSplitBeat dateNow beatId s e (pre ++ b :: post)
        = Some (pre ++ children ++ post)
        /\ Forall2 (fun r c =>
                      textSegment c
                      = JSString.trim (JSString.substring (textSegment b) (fst r) (snd r))
                      /\ endTime c
                         = nadd (startTime c)
                             (nmul (ndiv (ofZ (snd r - fst r))
                                         (ofZ (JSString.length (textSegment b))))
                                   (nsub (endTime b) (startTime b))))
                   (keptRanges s e (JSString.length (textSegment b))) children
        /\ startTime (hd b children) = startTime b
        /\ adjacent (fun a c => endTime a = startTime c) children)
  /\ (forall (dateNow : Z -> Z) (beatId : JSString.jsstring) (s e : Z)
             (pre post : list (Beat Q)) (b : Beat Q),
         id b = beatId ->
         Forall (fun c => id c <> beatId) pre ->
         (0 <= s < e)%Z ->
         (e <= JSString.length (textSegment b))%Z ->
         exists children,
           handleSplitBeat dateNow beatId s e (pre ++ b :: post)
           = Some (pre ++ children ++ post)
           /\ Forall2 (fun r c =>
                         textSegment c
                         = JSString.trim (JSString.substring (textSegment b)
                                                             (fst r) (snd r))
                         /\ (endTime c - startTime c
                             == (endTime b - startTime b) * inject_Z (snd r - fst r)
                                / inject_Z (JSString.length (textSegment b)))%Q)
                      (keptRanges s e (JSString.length (textSegment b))) children
           /\ adjacent (fun a c => endTime a = startTime c) children)
  /\ (let b := Scenario.fractional (num := float) in
      let D := PrimFloat.sub (endTime b) (startTime b) in
      exists children,
        handleSplitBeat Scenario.clock (id b) 1 2 [b] = Some children
        /\ List.length children = 3%nat
        /\ Forall (fun c =>
                     PrimFloat.eqb (PrimFloat.sub (endTime c) (startTime c))
                                   (PrimFloat.div (PrimFloat.mul D 1) 3) = false
                     /\ PrimFloat.eqb (PrimFloat.sub (endTime c) (startTime c))
                                      (PrimFloat.mul D (PrimFloat.div 1 3)) = false)
                  children)
  /\ List.map (fun c => (textSegment c, Qred (endTime c - startTime c)))
       (beatsAfter [Scenario.tenSeconds]
          (handleSplitBeat Scenario.clock (JSString.lit "beat-1-0") 3 6
             [Scenario.tenSeconds (num := Q)]))
     = [(JSString.lit "ABC", 3%Q); (JSString.lit "DEF", 3%Q); (JSString.lit "GHIJ", 4%Q)]
  /\ List.map (fun c => (textSegment c, PrimFloat.sub (endTime c) (startTime c)))
       (beatsAfter [Scenario.tenSeconds]
          (handleSplitBeat Scenario.clock (JSString.lit "beat-1-0") 3 6
             [Scenario.tenSeconds (num := float)]))
     = [(JSString.lit "ABC", 3%float); (JSString.lit "DEF", 3%float);
        (JSString.lit "GHIJ", 4%float)].
Proof.
  split; [|split; [|split; [|split; vm_compute; reflexivity]]].
  - intros num N dateNow beatId s e pre post b Hid Hpre Hs He.
    exists (splitChildren dateNow b s e). split; [|split; [|split]].
    + apply handleSplitBeat_at; assumption.
    + apply Forall2_and; [apply splitChildren_ranges | apply splitChildren_ends].
    + unfold splitChildren. apply splitLoop_linked. apply splitParts_nonempty.
    + apply splitLoop_linked.
  - intros dateNow beatId s e pre post b Hid Hpre Hs He.
    exists (splitChildren dateNow b s e). split; [|split].
    + apply handleSplitBeat_at; assumption.
    + apply Forall2_and; [apply splitChildren_ranges | apply splitChildren_durations].
    + apply splitLoop_linked.
  - cbv zeta. eexists. split; [vm_compute; reflexivity|].
    split; [reflexivity|]. repeat constructor; vm_compute; reflexivity.
Qed.

(** The general laws of C1 at the scenario's beat, split at (3, 6): in
    binary64 the three children end at their start plus the computed
    share, and in exact arithmetic they last their share of the ten
    seconds. *)
Lemma split_durations_proportional_witness :
  (exists children,
      handleSplitBeat Scenario.clock (JSString.lit "beat-1-0") 3 6
        ([] ++ Scenario.tenSeconds (num := float) :: [])
      = Some ([] ++ children ++ [])
      /\ Forall2 (fun r c =>
                    endTime c
                    = PrimFloat.add (startTime c)
                        (PrimFloat.mul
                           (PrimFloat.div (F64ofZ (snd r - fst r)) (F64ofZ 10))
                           (PrimFloat.sub 10 0)))
                 [(0, 3); (3, 6); (6, 10)]%Z children
      /\ startTime (hd Scenario.tenSeconds children) = 0%float)
  /\ (exists children,
         handleSplitBeat Scenario.clock (JSString.lit "beat-1-0") 3 6
           ([] ++ Scenario.tenSeconds (num := Q) :: [])
         = Some ([] ++ children ++ [])
         /\ Forall2 (fun r c =>
                       (endTime c - startTime c
                        == (10 - 0) * inject_Z (snd r - fst r) / inject_Z 10)%Q)
                    [(0, 3); (3, 6); (6, 10)]%Z children).
Proof.
  split.
  - destruct (proj1 split_durations_proportional float _ Scenario.clock
                (JSString.lit "beat-1-0") 3%Z 6%Z [] [] Scenario.tenSeconds)
      as (children & Hsplit & Hfields & Hfirst & _).
    + reflexivity.
    + constructor.
    + lia.
    + vm_compute. discriminate.
    + exists children. split; [exact Hsplit|]. split; [|exact Hfirst].
      eapply Forall2_impl; [|exact Hfields]. intros r c [_ Hend]. exact Hend.
  - destruct (proj1 (proj2 split_durations_proportional) Scenario.clock
                (JSString.lit "beat-1-0") 3%Z 6%Z [] [] Scenario.tenSeconds)
      as (children & Hsplit & Hfields & _).
    + reflexivity.
    + constructor.
    + lia.
    + vm_compute. discriminate.
    + exists children. split; [exact Hsplit|].
      eapply Forall2_impl; [|exact Hfields]. intros r c [_ Hdur]. exact Hdur.
Defined.

Lemma splitChildren_nonempty {num : Type} `{Number num} (dateNow : Z -> Z)
    (b : Beat num) (s e : Z) :
  splitChildren dateNow b s e <> [].
Proof.
  intros E. apply (f_equal (@List.length _)) in E. unfold splitChildren in E.
  rewrite splitLoop_length in E.
  destruct (splitParts (textSegment b) s e) eqn:P; [|discriminate].
  exact (splitParts_nonempty _ _ _ P).
Qed.

Lemma selectBeats_run {num : Type} `{Number num} (ids : list JSString.jsstring)
    (pre sel post : list (Beat num)) :
  Forall (fun b => JSString.includes ids (id b) = true) sel ->
  Forall (fun b => JSString.includes ids (id b) = false) pre ->
  Forall (fun b => JSString.includes ids (id b) = false) post ->
  selectBeats ids (pre ++ sel ++ post) = sel
  /\ remainingBeats ids (pre ++ sel ++ post) = pre ++ post.
Proof.
  intros Hsel Hpre Hpost. unfold selectBeats, remainingBeats.
  rewrite !filter_app.
  rewrite (filter_none _ pre Hpre), (filter_none _ post Hpost), (filter_all _ sel Hsel).
  rewrite app_nil_r. split; [reflexivity|].
  rewrite (filter_all _ pre), (filter_all _ post), (filter_none _ sel).
  - reflexivity.
  - eapply Forall_impl; [|exact Hsel]. simpl. intros b ->. reflexivity.
  - eapply Forall_impl; [|exact Hpost]. simpl. intros b ->. reflexivity.
  - eapply Forall_impl; [|exact Hpre]. simpl. intros b ->. reflexivity.
Qed.

(** In exact arithmetic a split keeps the partition invariant. *)
Lemma split_valid (dateNow : Z -> Z) (beatId : JSString.jsstring) (s e : Z)
    (beats : list (Beat Q)) :
  valid beats ->
  valid (beatsAfter beats (handleSplitBeat dateNow beatId s e beats)).
Proof.
  intros Hv.
  destruct (handleSplitBeat_cases dateNow beatId s e beats)
    as [-> | (pre & b & post & -> & Hid & Hpre & Hs & He)]; [exact Hv|].
  rewrite handleSplitBeat_at by assumption. simpl beatsAfter.
  apply valid_replace with (b := b); [assumption|].
  apply splitChildren_chain; try assumption.
  destruct Hv as (Hwf & _). apply (proj1 (Forall_forall _ _) Hwf).
  apply in_or_app. right. left. reflexivity.
Qed.

(** In exact arithmetic a merge of beats that stand side by side in the
    list keeps the partition invariant. *)
Lemma merge_run_valid (now : Z) (ids : list JSString.jsstring)
    (pre sel post : list (Beat Q)) :
  valid (pre ++ sel ++ post) ->
  Forall (fun b => JSString.includes ids (id b) = true) sel ->
  Forall (fun b => JSString.includes ids (id b) = false) pre ->
  Forall (fun b => JSString.includes ids (id b) = false) post ->
  valid (beatsAfter (pre ++ sel ++ post)
           (handleMergeBeats now ids (pre ++ sel ++ post))).
Proof.
  intros Hv Hsel Hpre Hpost.
  destruct (selectBeats_run ids pre sel post Hsel Hpre Hpost) as [Es Er].
  destruct (le_lt_dec 2 (List.length sel)) as [Hlen | Hlen].
  2:{ rewrite handleMergeBeats_few by (rewrite Es; assumption). exact Hv. }
  destruct (handleMergeBeats_some now ids (pre ++ sel ++ post))
    as (f & rest & Hsort & ->); [rewrite Es; assumption|].
  simpl beatsAfter. rewrite Es in Hsort. rewrite Er.
  destruct (valid_tiles _ Hv) as (t & t' & Hc).
  { destruct sel; [simpl in Hlen; lia|]. destruct pre; discriminate. }
  apply chain_app in Hc as (m1 & Hcpre & Hc).
  apply chain_app in Hc as (m2 & Hcsel & Hcpost).
  destruct (chain_valid _ _ _ Hcsel) as (_ & _ & _ & Hord).
  rewrite (sortBy_id sel Hord) in Hsort. subst sel.
  set (m := mergedBeat now f (last (f :: rest) f) (f :: rest)).
  assert (Hm : chain m1 [m] m2).
  { assert (Hlast := chain_last (f :: rest) f _ _ Hcsel ltac:(discriminate)).
    destruct Hcsel as (Hs & Hw & Hrest). apply chain_le in Hrest.
    cbn [chain]. unfold m at 1 2 3 4. cbn [mergedBeat startTime endTime].
    split; [exact Hs|]. split; [lra | exact Hlast]. }
  assert (Hall : chain t (pre ++ m :: post) t').
  { apply chain_app. exists m1. split; [assumption|].
    apply (chain_app [m] post). exists m2. split; assumption. }
  rewrite <- app_assoc. rewrite sortBy_place.
  - exact (chain_valid _ _ _ Hall).
  - apply (chain_valid _ _ _ Hall).
  - eapply Forall_impl; [|exact (chain_bounds _ _ _ Hcpost)]. simpl.
    intros c [Hc _]. destruct Hm as (Hs & Hw & He). cbn [chain] in He.
    change (startTime f) with (startTime m). lra.
Qed.

(** In exact arithmetic the outcome of a merge is ordered by start time,
    whichever beats were selected. *)
Lemma merge_ordered (now : Z) (ids : list JSString.jsstring) (beats : list (Beat Q)) :
  ordered beats ->
  ordered (beatsAfter beats (handleMergeBeats now ids beats)).
Proof.
  intros Hord.
  destruct (le_lt_dec 2 (List.length (selectBeats ids beats))) as [Hlen | Hlen].
  - destruct (handleMergeBeats_some now ids beats Hlen) as (f & rest & _ & ->).
    apply sortBy_ordered.
  - rewrite handleMergeBeats_few by assumption. exact Hord.
Qed.

Lemma threeBeats_valid : valid (Scenario.threeBeats (num := Q)).
Proof.
  apply (chain_valid _ 0%Q 3%Q). simpl.
  repeat split; reflexivity.
Qed.

(** The last beat of an ordered list starts last. *)
Lemma ordered_last_latest (l : list (Beat Q)) (d : Beat Q) :
  ordered l -> Forall (fun c => (startTime c <= startTime (last l d))%Q) l.
Proof.
  unfold ordered. induction l as [|a l IH]; intros Hord; [constructor|].
  destruct l as [|b l].
  - constructor; [apply Qle_refl | constructor].
  - destruct Hord as [Hab Hord]. specialize (IH Hord).
    change (last (a :: b :: l) d) with (last (b :: l) d).
    constructor; [|exact IH].
    inversion IH as [|? ? Hb _]; subst.
    apply Qle_trans with (startTime b); assumption.
Qed.

Lemma two_members {A : Type} (l : list A) (a c : A) :
  In a l -> In c l -> a <> c -> (2 <= List.length l)%nat.
Proof.
  destruct l as [|x [|y l]]; cbn [In List.length]; intros Ha Hc Hne.
  - destruct Ha.
  - destruct Ha as [<- | []]. destruct Hc as [<- | []]. congruence.
  - lia.
Qed.

Lemma nonOverlapping_snoc (l : list (Beat Q)) (m : Beat Q) :
  nonOverlapping (l ++ [m]) -> Forall (fun u => ~ overlap u m) l.
Proof.
  unfold nonOverlapping. induction l as [|a l IH]; intros Hn; [constructor|].
  cbn [app] in Hn. inversion Hn as [|? ? Ha Hl]; subst.
  constructor; [|apply IH; exact Hl].
  apply (proj1 (Forall_forall _ _) Ha). apply in_or_app. right. left. reflexivity.
Qed.

(** In a valid list a beat that stands before another one starts before
    it. *)
Lemma valid_before (l1 l2 l3 : list (Beat Q)) (a u : Beat Q) :
  valid (l1 ++ a :: l2 ++ u :: l3) -> (startTime a < startTime u)%Q.
Proof.
  intros Hv. destruct (valid_tiles _ Hv) as (t & t' & Hc).
  { destruct l1; discriminate. }
  apply chain_app in Hc as (m1 & _ & Hc).
  destruct Hc as (_ & Hw & Hc).
  apply chain_app in Hc as (m2 & Hc2 & Hc3).
  apply chain_le in Hc2. destruct Hc3 as (Hu & _). lra.
Qed.

(** In exact arithmetic a merge that selects two beats and leaves out a
    beat that starts between them leaves the merged beat overlapping that
    beat. *)
Lemma merge_apart_overlaps (now : Z) (ids : list JSString.jsstring)
    (beats : list (Beat Q)) (a u c : Beat Q) :
  Forall wellFormed beats ->
  In a beats -> In u beats -> In c beats ->
  JSString.includes ids (id a) = true ->
  JSString.includes ids (id c) = true ->
  JSString.includes ids (id u) = false ->
  (startTime a < startTime u)%Q -> (startTime u < startTime c)%Q ->
  exists merged next,
    handleMergeBeats now ids beats = Some next
    /\ In merged next /\ In u next
    /\ overlap merged u
    /\ ~ nonOverlapping next.
Proof.
  intros Hwf Ha Hu Hc Hia Hic Hiu Hau Huc.
  assert (Hsa : In a (selectBeats ids beats)) by (apply filter_In; split; assumption).
  assert (Hsc : In c (selectBeats ids beats)) by (apply filter_In; split; assumption).
  assert (Hne : a <> c).
  { intros ->. apply (Qlt_irrefl (startTime c)). lra. }
  destruct (handleMergeBeats_some now ids beats (two_members _ a c Hsa Hsc Hne))
    as (f & rest & Hsort & Hm).
  assert (P : Permutation (f :: rest) (selectBeats ids beats))
    by (rewrite <- Hsort; apply sortBy_perm).
  assert (Hord : ordered (f :: rest))
    by (rewrite <- Hsort; apply sortBy_ordered).
  set (lastBeat := last (f :: rest) f) in *.
  set (merged := mergedBeat now f lastBeat (f :: rest)) in *.
  assert (Hfa : (startTime f <= startTime a)%Q).
  { apply (proj1 (Forall_forall _ _) (ordered_head_least f rest Hord)).
    apply (Permutation_in _ (Permutation_sym P)). exact Hsa. }
  assert (Hcl : (startTime c <= startTime lastBeat)%Q).
  { apply (proj1 (Forall_forall _ _) (ordered_last_latest (f :: rest) f Hord)).
    apply (Permutation_in _ (Permutation_sym P)). exact Hsc. }
  assert (Hwl : wellFormed lastBeat).
  { apply (proj1 (Forall_forall _ _) Hwf).
    assert (Hin : In lastBeat (selectBeats ids beats)).
    { apply (Permutation_in _ P). apply last_In. discriminate. }
    apply filter_In in Hin. apply Hin. }
  assert (Hwu : wellFormed u) by (apply (proj1 (Forall_forall _ _) Hwf); exact Hu).
  unfold wellFormed in Hwl, Hwu.
  assert (Hover : overlap merged u).
  { unfold overlap, merged. cbn [mergedBeat startTime endTime]. split; lra. }
  assert (Hur : In u (remainingBeats ids beats)).
  { apply filter_In. split; [exact Hu | rewrite Hiu; reflexivity]. }
  exists merged, (sortBy byStartTime (remainingBeats ids beats ++ [merged])).
  split; [exact Hm|]. split; [|split; [|split; [exact Hover|]]].
  - apply (Permutation_in _ (Permutation_sym (sortBy_perm _ _))).
    apply in_or_app. right. left. reflexivity.
  - apply (Permutation_in _ (Permutation_sym (sortBy_perm _ _))).
    apply in_or_app. left. exact Hur.
  - intros Hn. apply (nonOverlapping_Permutation _ _ (sortBy_perm _ _)) in Hn.
    apply nonOverlapping_snoc in Hn.
    apply (proj1 (Forall_forall _ _) Hn u Hur). apply overlap_sym. exact Hover.
Qed.

Lemma tenSeconds_valid : valid [Scenario.tenSeconds (num := Q)].
Proof.
  apply (chain_valid _ 0%Q 10%Q). simpl. repeat split; reflexivity.
Qed.

(** In exact arithmetic a merge of two or more beats that stand side by
    side in a valid list puts one beat in their place, from the start of
    the first to the end of the last. *)
Lemma merge_run_at (now : Z) (ids : list JSString.jsstring)
    (pre sel post : list (Beat Q)) :
  valid (pre ++ sel ++ post) ->
  Forall (fun b => JSString.includes ids (id b) = true) sel ->
  Forall (fun b => JSString.includes ids (id b) = false) pre ->
  Forall (fun b => JSString.includes ids (id b) = false) post ->
  (2 <= List.length sel)%nat ->
  exists merged,
    handleMergeBeats now ids (pre ++ sel ++ post) = Some (pre ++ merged :: post)
    /\ startTime merged = startTime (hd merged sel)
    /\ endTime merged = endTime (last sel merged).
Proof.
  intros Hv Hsel Hpre Hpost Hlen.
  destruct (selectBeats_run ids pre sel post Hsel Hpre Hpost) as [Es Er].
  destruct (handleMergeBeats_some now ids (pre ++ sel ++ post))
    as (f & rest & Hsort & Hm); [rewrite Es; assumption|].
  rewrite Es in Hsort. rewrite Er in Hm.
  destruct (valid_tiles _ Hv) as (t & t' & Hc).
  { destruct sel; [simpl in Hlen; lia|]. destruct pre; discriminate. }
  apply chain_app in Hc as (m1 & Hcpre & Hc).
  apply chain_app in Hc as (m2 & Hcsel & Hcpost).
  destruct (chain_valid _ _ _ Hcsel) as (_ & _ & _ & Hord).
  rewrite (sortBy_id sel Hord) in Hsort. subst sel.
  set (m := mergedBeat now f (last (f :: rest) f) (f :: rest)) in *.
  assert (Hcm : chain m1 [m] m2).
  { assert (Hlast := chain_last (f :: rest) f _ _ Hcsel ltac:(discriminate)).
    destruct Hcsel as (Hs & Hw & Hrest). apply chain_le in Hrest.
    cbn [chain]. unfold m at 1 2 3 4. cbn [mergedBeat startTime endTime].
    split; [exact Hs|]. split; [lra | exact Hlast]. }
  assert (Hall : chain t (pre ++ m :: post) t').
  { apply chain_app. exists m1. split; [assumption|].
    apply (chain_app [m] post). exists m2. split; assumption. }
  exists m. split; [|split].
  - rewrite Hm. f_equal. rewrite <- app_assoc. apply sortBy_place.
    + apply (chain_valid _ _ _ Hall).
    + eapply Forall_impl; [|exact (chain_bounds _ _ _ Hcpost)]. simpl.
      intros c [Hc _]. destruct Hcm as (Hs & Hw & He). cbn [chain] in He.
      change (startTime f) with (startTime m). lra.
  - reflexivity.
  - unfold m at 1. cbn [mergedBeat endTime]. f_equal.
    destruct rest as [|r rest]; [simpl in Hlen; lia|].
    rewrite !last_cons. reflexivity.
Qed.

(** C2, as stated, fails.  The three beats that tile [[0, 3)] form a valid
    list, and merging the first with the third leaves the merged beat over
    [[0, 3)] in front of the untouched middle beat over [[1, 2)]: the list
    is no longer contiguous and its beats overlap.  A split fails the exact
    cover as well once the arithmetic is binary64: the children of the
    seven-second beat over "ABC", split at (0, 1), end before 7. *)
Lemma merge_apart_breaks_partition :
  valid (Scenario.threeBeats (num := Q))
  /\ ~ contiguous
         (beatsAfter Scenario.threeBeats
            (handleMergeBeats 1700000000000 [JSString.lit "a"; JSString.lit "c"]
               (Scenario.threeBeats (num := Q))))
  /\ ~ nonOverlapping
         (beatsAfter Scenario.threeBeats
            (handleMergeBeats 1700000000000 [JSString.lit "a"; JSString.lit "c"]
               (Scenario.threeBeats (num := Q))))
  /\ PrimFloat.ltb
       (endTime (last (splitChildren Scenario.clock
                         (Scenario.sevenSeconds (num := float)) 0 1)
                      Scenario.sevenSeconds))
       (endTime (Scenario.sevenSeconds (num := float))) = true.
Proof.
  split; [exact threeBeats_valid|]. split; [|split].
  - intros Hc. vm_compute in Hc. destruct Hc as [Hc _]. discriminate Hc.
  - intros Hn. vm_compute in Hn. inversion Hn as [|a l Ha _]; subst.
    inversion Ha as [|b l' Hb _]; subst. apply Hb. split; reflexivity.
  - vm_compute. reflexivity.
Qed.

(** C2, amended.  Whatever the arithmetic, the first child of a split
    starts at the original start time and each child ends at the very
    number the next one starts at.  In exact arithmetic, starting from a
    beat list that is valid (every interval non-empty, the list contiguous,
    free of overlaps and ordered by start time): every split gives a valid
    list; the children of a split at offsets 0 <= s < e <= L are
    contiguous, ordered, free of overlaps, start at the original start time
    and end at the original end time; an accepted split puts one child per
    kept range in the place of the beat, and these children tile the
    interval of the beat; every merge gives a list ordered by start time; a
    merge whose selected beats stand side by side in the list gives a valid
    list, and when they are two or more it puts one beat in their place,
    from the start of the first to the end of the last; a merge that
    selects two beats and leaves out a beat that stands between them is
    carried out and leaves the merged beat overlapping that beat, so the
    list it gives is neither free of overlaps nor valid.  In binary64 the
    children of a split can end short of the original end time: the beat
    over [[0, 7)] with the text "ABC", split at (0, 1), is replaced by two
    children of which the last ends before 7. *)
Theorem partition_kept_by_split_and_adjacent_merge :
  (forall (num : Type) (N : Number num) (dateNow : Z -> Z) (b : Beat num) (s e : Z),
      startTime (hd b (splitChildren dateNow b s e)) = startTime b
      /\ adjacent (fun a c => endTime a = startTime c) (splitChildren dateNow b s e))
  /\ (forall beats : list (Beat Q),
        valid beats ->
        (forall (dateNow : Z -> Z) (beatId : JSString.jsstring) (s e : Z),
            valid (beatsAfter beats (handleSplitBeat dateNow beatId s e beats)))
        /\ (forall (dateNow : Z -> Z) (b : Beat Q) (s e : Z),
               In b beats ->
               (0 <= s < e)%Z ->
               (e <= JSString.length (textSegment b))%Z ->
               contiguous (splitChildren dateNow b s e)
               /\ ordered (splitChildren dateNow b s e)
               /\ nonOverlapping (splitChildren dateNow b s e)
               /\ (startTime (hd b (splitChildren dateNow b s e)) == startTime b)%Q
               /\ (endTime (last (splitChildren dateNow b s e) b) == endTime b)%Q)
        /\ (forall (now : Z) (ids : list JSString.jsstring),
               ordered (beatsAfter beats (handleMergeBeats now ids beats)))
        /\ (forall (now : Z) (ids : list JSString.jsstring)
                   (pre sel post : list (Beat Q)),
               beats = pre ++ sel ++ post ->
               Forall (fun b => JSString.includes ids (id b) = true) sel ->
               Forall (fun b => JSString.includes ids (id b) = false) pre ->
               Forall (fun b => JSString.includes ids (id b) = false) post ->
               valid (beatsAfter beats (handleMergeBeats now ids beats)))
        /\ (forall (dateNow : Z -> Z) (beatId : JSString.jsstring) (s e : Z)
                   (pre post : list (Beat Q)) (b : Beat Q),
               beats = pre ++ b :: post ->
               id b = beatId ->
               Forall (fun c => id c <> beatId) pre ->
               (0 <= s < e)%Z ->
               (e <= JSString.length (textSegment b))%Z ->
               exists first rest,
                 handleSplitBeat dateNow beatId s e beats
                 = Some (pre ++ (first :: rest) ++ post)
                 /\ List.length (first :: rest)
                    = List.length (keptRanges s e (JSString.length (textSegment b)))
                 /\ chain (startTime b) (first :: rest) (endTime b)
                 /\ valid (pre ++ (first :: rest) ++ post))
        /\ (forall (now : Z) (ids : list JSString.jsstring)
                   (pre sel post : list (Beat Q)),
               beats = pre ++ sel ++ post ->
               Forall (fun b => JSString.includes ids (id b) = true) sel ->
               Forall (fun b => JSString.includes ids (id b) = false) pre ->
               Forall (fun b => JSString.includes ids (id b) = false) post ->
               (2 <= List.length sel)%nat ->
               exists merged,
                 handleMergeBeats now ids beats = Some (pre ++ merged :: post)
                 /\ startTime merged = startTime (hd merged sel)
                 /\ endTime merged = endTime (last sel merged)
                 /\ valid (pre ++ merged :: post))
        /\ (forall (now : Z) (ids : list JSString.jsstring)
                   (l1 l2 l3 l4 : list (Beat Q)) (a u c : Beat Q),
               beats = l1 ++ a :: l2 ++ u :: l3 ++ c :: l4 ->
               JSString.includes ids (id a) = true ->
               JSString.includes ids (id c) = true ->
               JSString.includes ids (id u) = false ->
               exists merged next,
                 handleMergeBeats now ids beats = Some next
                 /\ In merged next /\ In u next
                 /\ overlap merged u
                 /\ ~ nonOverlapping next
                 /\ ~ valid (beatsAfter beats (handleMergeBeats now ids beats))))
  /\ (exists first second : Beat float,
        handleSplitBeat Scenario.clock (JSString.lit "s") 0 1
          [Scenario.sevenSeconds (num := float)]
        = Some [first; second]
        /\ startTime first = startTime (Scenario.sevenSeconds (num := float))
        /\ endTime first = startTime second
        /\ PrimFloat.ltb (endTime second)
             (endTime (Scenario.sevenSeconds (num := float))) = true).
Proof.
  split; [|split].
  - intros num N dateNow b s e. unfold splitChildren. split.
    + apply splitLoop_linked. apply splitParts_nonempty.
    + apply splitLoop_linked.
  - intros beats Hv. split; [|split; [|split; [|split; [|split; [|split]]]]].
    + intros dateNow beatId s e. apply split_valid; assumption.
    + intros dateNow b s e Hin Hs He.
      assert (Hw : wellFormed b)
        by (destruct Hv as (Hwf & _); exact (proj1 (Forall_forall _ _) Hwf _ Hin)).
      assert (Hc := splitChildren_chain dateNow b s e Hw Hs He).
      destruct (chain_valid _ _ _ Hc) as (_ & Hcont & Hno & Hord).
      assert (Hne := splitChildren_nonempty dateNow b s e).
      repeat split; try assumption.
      * destruct (splitChildren dateNow b s e) as [|c cs]; [congruence|].
        exact (chain_head _ _ _ _ Hc).
      * exact (chain_last _ b _ _ Hc Hne).
    + intros now ids. apply merge_ordered. apply Hv.
    + intros now ids pre sel post -> Hsel Hpre Hpost.
      apply merge_run_valid; assumption.
    + intros dateNow beatId s e pre post b -> Hid Hpre Hs He.
      assert (Hw : wellFormed b).
      { destruct Hv as (Hwf & _). apply (proj1 (Forall_forall _ _) Hwf).
        apply in_or_app. right. left. reflexivity. }
      assert (Hc := splitChildren_chain dateNow b s e Hw Hs He).
      assert (Hat := handleSplitBeat_at dateNow beatId s e pre post b Hid Hpre Hs He).
      assert (Hlen : List.length (splitChildren dateNow b s e)
                     = List.length (keptRanges s e (JSString.length (textSegment b)))).
      { unfold splitChildren.
        rewrite splitLoop_length, splitParts_ranges, length_map. reflexivity. }
      destruct (splitChildren dateNow b s e) as [|first rest] eqn:Ec.
      { exfalso. exact (splitChildren_nonempty dateNow b s e Ec). }
      exists first, rest. split; [exact Hat|]. split; [exact Hlen|].
      split; [exact Hc|].
      apply valid_replace with (b := b); assumption.
    + intros now ids pre sel post -> Hsel Hpre Hpost Hlen.
      destruct (merge_run_at now ids pre sel post Hv Hsel Hpre Hpost Hlen)
        as (merged & Hm & Hs & He).
      exists merged. split; [exact Hm|]. split; [exact Hs|]. split; [exact He|].
      assert (Hval := merge_run_valid now ids pre sel post Hv Hsel Hpre Hpost).
      rewrite Hm in Hval. exact Hval.
    + intros now ids l1 l2 l3 l4 a u c -> Hia Hic Hiu.
      assert (Hau : (startTime a < startTime u)%Q)
        by exact (valid_before l1 l2 (l3 ++ c :: l4) a u Hv).
      assert (Huc : (startTime u < startTime c)%Q).
      { apply (valid_before (l1 ++ a :: l2) l3 l4 u c).
        rewrite <- app_assoc. exact Hv. }
      destruct (merge_apart_overlaps now ids
                  (l1 ++ a :: l2 ++ u :: l3 ++ c :: l4) a u c)
        as (merged & next & Hm & Hin & Hu & Hover & Hno);
        try assumption.
      * apply Hv.
      * apply in_or_app. right. left. reflexivity.
      * apply in_or_app. right. right. apply in_or_app. right. left. reflexivity.
      * apply in_or_app. right. right. apply in_or_app. right. right.
        apply in_or_app. right. left. reflexivity.
      * exists merged, next. repeat (split; [assumption|]).
        rewrite Hm. intros (_ & _ & Hn & _). exact (Hno Hn).
  - eexists. eexists. split; [vm_compute; reflexivity|].
    split; [reflexivity|]. split; vm_compute; reflexivity.
Qed.

(** The amended C2 at work.  The ten-second sample beat split at (3, 6) is
    replaced by three children that tile [[0, 10)].  Of the three beats
    that tile [[0, 3)], the first two merged give one beat over [[0, 2)]
    in front of the third, a valid list; the first and the third merged
    give a beat that overlaps the second. *)
Lemma partition_kept_by_split_and_adjacent_merge_witness :
  (exists first rest,
     handleSplitBeat Scenario.clock (JSString.lit "beat-1-0") 3 6
       [Scenario.tenSeconds (num := Q)]
     = Some ([] ++ (first :: rest) ++ [])
     /\ List.length (first :: rest) = 3%nat
     /\ chain 0 (first :: rest) 10
     /\ valid ([] ++ (first :: rest) ++ []))
  /\ (exists merged,
        handleMergeBeats 1700000000000 [JSString.lit "b"; JSString.lit "a"]
          (Scenario.threeBeats (num := Q))
        = Some ([] ++ merged :: [Scenario.beat "c" 2 3 "C"])
        /\ startTime merged = 0%Q /\ endTime merged = 2%Q
        /\ valid ([] ++ merged :: [Scenario.beat "c" 2 3 "C"]))
  /\ (exists merged next,
        handleMergeBeats 1700000000000 [JSString.lit "a"; JSString.lit "c"]
          (Scenario.threeBeats (num := Q))
        = Some next
        /\ In merged next /\ In (Scenario.beat "b" 1 2 "B") next
        /\ overlap merged (Scenario.beat "b" 1 2 "B")
        /\ ~ nonOverlapping next).
Proof.
  split; [|split].
  - destruct (proj1 (proj2 partition_kept_by_split_and_adjacent_merge)
                [Scenario.tenSeconds] tenSeconds_valid)
      as (_ & _ & _ & _ & Hsplit & _).
    destruct (Hsplit Scenario.clock (JSString.lit "beat-1-0") 3%Z 6%Z
                [] [] Scenario.tenSeconds)
      as (first & rest & Hat & Hlen & Hc & Hval).
    + reflexivity.
    + reflexivity.
    + constructor.
    + lia.
    + vm_compute. discriminate.
    + exists first, rest. split; [exact Hat|]. split; [exact Hlen|].
      split; [exact Hc | exact Hval].
  - destruct (proj1 (proj2 partition_kept_by_split_and_adjacent_merge)
                Scenario.threeBeats threeBeats_valid)
      as (_ & _ & _ & _ & _ & Hmerge & _).
    destruct (Hmerge 1700000000000%Z [JSString.lit "b"; JSString.lit "a"]
                [] [Scenario.beat "a" 0 1 "A"; Scenario.beat "b" 1 2 "B"]
                [Scenario.beat "c" 2 3 "C"])
      as (merged & Hm & Hs & He & Hval).
    + reflexivity.
    + repeat constructor.
    + constructor.
    + repeat constructor.
    + simpl. lia.
    + exists merged. split; [exact Hm|]. split; [exact Hs|].
      split; [exact He | exact Hval].
  - destruct (proj1 (proj2 partition_kept_by_split_and_adjacent_merge)
                Scenario.threeBeats threeBeats_valid)
      as (_ & _ & _ & _ & _ & _ & Hapart).
    destruct (Hapart 1700000000000%Z [JSString.lit "a"; JSString.lit "c"]
                [] [] [] [] (Scenario.beat "a" 0 1 "A") (Scenario.beat "b" 1 2 "B")
                (Scenario.beat "c" 2 3 "C"))
      as (merged & next & Hm & Hin & Hu & Hover & Hno & _).
    + reflexivity.
    + reflexivity.
    + reflexivity.
    + reflexivity.
    + exists merged, next. split; [exact Hm|]. split; [exact Hin|].
      split; [exact Hu|]. split; [exact Hover | exact Hno].
Defined.

(** C3, as stated, fails.  Merging the first and the third of the three
    beats that tile [[0, 3)] leaves a beat over [[0, 3)] and one over
    [[1, 2)].  Merging these two gives a beat that ends at 2, the end of the
    selected beat that starts last, while the greatest end time of the
    selection is 3; exact arithmetic and binary64 agree on it. *)
Lemma merge_span_misses_latest_end :
  (let beats := beatsAfter Scenario.threeBeats
                  (handleMergeBeats 1700000000000 [JSString.lit "a"; JSString.lit "c"]
                     (Scenario.threeBeats (num := Q))) in
   let ids := List.map (@id Q) beats in
   exists merged,
     handleMergeBeats 1700000000001 ids beats = Some [merged]
     /\ (2 <= List.length (selectBeats ids beats))%nat
     /\ (endTime merged == 2)%Q
     /\ (listMax (List.map (@endTime Q) (selectBeats ids beats)) == 3)%Q
     /\ ~ (endTime merged == listMax (List.map (@endTime Q) (selectBeats ids beats)))%Q)
  /\ (let beats := beatsAfter Scenario.threeBeats
                     (handleMergeBeats 1700000000000 [JSString.lit "a"; JSString.lit "c"]
                        (Scenario.threeBeats (num := float))) in
      let ids := List.map (@id float) beats in
      exists merged,
        handleMergeBeats 1700000000001 ids beats = Some [merged]
        /\ endTime merged = 2%float
        /\ listMax (List.map (@endTime float) (selectBeats ids beats)) = 3%float).
Proof.
  split.
  - eexists. split; [vm_compute; reflexivity|].
    split; [vm_compute; lia|]. split; [reflexivity|]. split; [reflexivity|].
    intros E. vm_compute in E. discriminate E.
  - eexists. split; [vm_compute; reflexivity|]. split; vm_compute; reflexivity.
Qed.

(** C3, amended.  The outcome of a merge only depends on which ids are
    supplied, not on their order, whatever the arithmetic.  Whatever the
    arithmetic, a merge of a selection of at least two beats replaces them
    by one beat that starts where the first of the selected beats sorted by
    start time starts and ends where the last of them ends.  In exact
    arithmetic that beat starts at the least start time of the selection
    and ends at the end time of a selected beat that starts last, one that
    none of the selected beats starts after; that is the greatest end time
    of the selection when the selected intervals are non-empty and free of
    overlaps. *)
Theorem merge_span_and_order_independence :
  (forall (num : Type) (N : Number num) (now : Z) (ids ids' : list JSString.jsstring)
          (beats : list (Beat num)),
      Permutation ids ids' ->
      handleMergeBeats now ids' beats = handleMergeBeats now ids beats)
  /\ (forall (now : Z) (ids : list JSString.jsstring) (beats : list (Beat Q)),
         (2 <= List.length (selectBeats ids beats))%nat ->
         exists merged,
           handleMergeBeats now ids beats
           = Some (sortBy byStartTime (remainingBeats ids beats ++ [merged]))
           /\ (startTime merged
               == listMin (List.map (@startTime Q) (selectBeats ids beats)))%Q
           /\ (Forall wellFormed (selectBeats ids beats) ->
               nonOverlapping (selectBeats ids beats) ->
               (endTime merged
                == listMax (List.map (@endTime Q) (selectBeats ids beats)))%Q)
           /\ (exists lastBeat,
                  In lastBeat (selectBeats ids beats)
                  /\ Forall (fun b => (startTime b <= startTime lastBeat)%Q)
                       (selectBeats ids beats)
                  /\ endTime merged = endTime lastBeat))
  /\ (forall (num : Type) (N : Number num) (now : Z) (ids : list JSString.jsstring)
             (beats : list (Beat num)),
         (2 <= List.length (selectBeats ids beats))%nat ->
         exists firstBeat rest merged,
           sortBy byStartTime (selectBeats ids beats) = firstBeat :: rest
           /\ handleMergeBeats now ids beats
              = Some (sortBy byStartTime (remainingBeats ids beats ++ [merged]))
           /\ startTime merged = startTime firstBeat
           /\ endTime merged = endTime (last rest firstBeat)).
Proof.
  split; [|split].
  - intros num N now ids ids' beats P. apply handleMergeBeats_Permutation; assumption.
  - intros now ids beats Hlen.
    destruct (handleMergeBeats_some now ids beats Hlen) as (f & rest & Hsort & ->).
    eexists. split; [reflexivity|].
    assert (P : Permutation (f :: rest) (selectBeats ids beats))
      by (rewrite <- Hsort; apply sortBy_perm).
    assert (Hord : ordered (f :: rest))
      by (rewrite <- Hsort; apply sortBy_ordered).
    cbn [mergedBeat startTime endTime]. split; [|split].
    + symmetry. apply listMin_least.
      * apply in_map. apply (Permutation_in _ P). left; reflexivity.
      * apply Forall_map. apply (Permutation_Forall P).
        apply ordered_head_least; assumption.
    + intros Hwf Hno. symmetry. apply listMax_greatest.
      * apply in_map. apply (Permutation_in _ P). apply last_In. discriminate.
      * apply Forall_map. apply (Permutation_Forall P).
        apply ordered_last_greatest; [assumption | |].
        -- apply (Permutation_Forall (Permutation_sym P)). assumption.
        -- apply (nonOverlapping_Permutation _ _ (Permutation_sym P)). assumption.
    + exists (last (f :: rest) f). split; [|split].
      * apply (Permutation_in _ P). apply last_In. discriminate.
      * apply (Permutation_Forall P). apply ordered_last_latest. exact Hord.
      * reflexivity.
  - intros num N now ids beats Hlen.
    destruct (handleMergeBeats_some now ids beats Hlen) as (f & rest & Hsort & ->).
    exists f, rest. eexists. split; [exact Hsort|]. split; [reflexivity|].
    cbn [mergedBeat startTime endTime]. split; [reflexivity|].
    rewrite last_cons. reflexivity.
Qed.

(** The amended C3 at work.  The first and the third of the three beats
    that tile [[0, 3)], merged from the ids of the third and the first, give
    a beat from 0 to 3, whichever the order of the ids.  A beat over
    [[0, 3)] merged with a beat over [[1, 2)] gives a beat that ends at 2,
    where the beat that starts last ends. *)
Lemma merge_span_and_order_independence_witness :
  (exists merged,
     handleMergeBeats 1700000000000 [JSString.lit "c"; JSString.lit "a"]
       (Scenario.threeBeats (num := Q))
     = Some (sortBy byStartTime
               (remainingBeats [JSString.lit "c"; JSString.lit "a"] Scenario.threeBeats
                ++ [merged]))
     /\ (startTime merged == 0)%Q /\ (endTime merged == 3)%Q
     /\ handleMergeBeats 1700000000000 [JSString.lit "a"; JSString.lit "c"]
          (Scenario.threeBeats (num := Q))
        = handleMergeBeats 1700000000000 [JSString.lit "c"; JSString.lit "a"]
            Scenario.threeBeats)
  /\ (exists merged,
        handleMergeBeats 1700000000000 [JSString.lit "m"; JSString.lit "b"]
          [Scenario.beat (num := Q) "m" 0 3 "AC"; Scenario.beat "b" 1 2 "B"]
        = Some (sortBy byStartTime
                  (remainingBeats [JSString.lit "m"; JSString.lit "b"]
                     [Scenario.beat (num := Q) "m" 0 3 "AC"; Scenario.beat "b" 1 2 "B"]
                   ++ [merged]))
        /\ (startTime merged == 0)%Q /\ endTime merged = 2%Q).
Proof.
  split.
  - destruct (proj1 (proj2 merge_span_and_order_independence) 1700000000000%Z
                [JSString.lit "c"; JSString.lit "a"] Scenario.threeBeats)
      as (merged & Hm & Hmin & Hmax & _).
    + vm_compute. lia.
    + exists merged. split; [exact Hm|]. split; [|split].
      * rewrite Hmin. reflexivity.
      * rewrite Hmax; [reflexivity | |].
        -- repeat constructor.
        -- repeat constructor; intros [H1 H2]; vm_compute in H1, H2; discriminate.
      * apply (proj1 merge_span_and_order_independence).
        apply perm_swap.
  - destruct (proj1 (proj2 merge_span_and_order_independence) 1700000000000%Z
                [JSString.lit "m"; JSString.lit "b"]
                [Scenario.beat (num := Q) "m" 0 3 "AC"; Scenario.beat "b" 1 2 "B"])
      as (merged & Hm & Hmin & _ & lastBeat & Hin & Hlate & Hend).
    + vm_compute. lia.
    + exists merged. split; [exact Hm|]. split.
      * rewrite Hmin. reflexivity.
      * rewrite Hend.
        change (In lastBeat [Scenario.beat (num := Q) "m" 0 3 "AC";
                             Scenario.beat "b" 1 2 "B"]) in Hin.
        change (Forall (fun b => (startTime b <= startTime lastBeat)%Q)
                  [Scenario.beat (num := Q) "m" 0 3 "AC"; Scenario.beat "b" 1 2 "B"])
          in Hlate.
        destruct Hin as [<- | [<- | []]]; [|reflexivity].
        exfalso. inversion Hlate as [|? ? _ Hb]; subst.
        inversion Hb as [|? ? Hle _]; subst.
        vm_compute in Hle. apply Hle. reflexivity.
Defined.

(** C7. A merge called with ids that match fewer than two beats of the
    list, and so a merge called with fewer than two ids on a list whose
    beats carry distinct ids, returns before it updates the state: the
    handler yields no update, the beat list is the one it was, and the
    handler is a total function, so nothing is thrown. *)
Theorem merge_of_fewer_than_two_is_noop :
  forall (num : Type) (N : Number num) (now : Z) (ids : list JSString.jsstring)
         (beats : list (Beat num)),
    (List.length (selectBeats ids beats) < 2)%nat
    \/ ((List.length ids < 2)%nat /\ NoDup (List.map (@id num) beats)) ->
    handleMergeBeats now ids beats = None
    /\ beatsAfter beats (handleMergeBeats now ids beats) = beats.
Proof.
  intros num N now ids beats Hfew.
  assert (Hlen : (List.length (selectBeats ids beats) < 2)%nat).
  { destruct Hfew as [Hlen | [Hids Hnd]]; [exact Hlen|].
    destruct ids as [|i [|j ids]]; [| |simpl in Hids; lia].
    - unfold selectBeats. rewrite filter_none; [simpl; lia|].
      apply Forall_forall. intros b _. reflexivity.
    - apply Nat.le_lt_trans with 1%nat; [apply select_one; assumption | lia]. }
  rewrite (handleMergeBeats_few now ids beats Hlen). split; reflexivity.
Qed.

(** C7 at the three beats that tile [[0, 3)]: one id, and two ids of which
    only one names a beat. *)
Lemma merge_of_fewer_than_two_is_noop_witness :
  beatsAfter Scenario.threeBeats
    (handleMergeBeats 1700000000000 [JSString.lit "b"] (Scenario.threeBeats (num := Q)))
  = Scenario.threeBeats
  /\ beatsAfter Scenario.threeBeats
       (handleMergeBeats 1700000000000 [JSString.lit "b"; JSString.lit "zz"]
          (Scenario.threeBeats (num := float)))
     = Scenario.threeBeats.
Proof.
  split.
  - apply (merge_of_fewer_than_two_is_noop Q _ 1700000000000%Z [JSString.lit "b"]
             Scenario.threeBeats).
    right. split; [simpl; lia|].
    repeat constructor; simpl; intuition discriminate.
  - apply (merge_of_fewer_than_two_is_noop float _ 1700000000000%Z
             [JSString.lit "b"; JSString.lit "zz"] Scenario.threeBeats).
    left. vm_compute. lia.
Defined.

(* ================================================================== *)
(** * Properties of the beat analysis *)
(* ================================================================== *)

Lemma split_nonempty (sep : N) (s : JSString.jsstring) : JSString.split sep s <> [].
Proof.
  induction s as [|c s IH]; simpl; [discriminate|].
  destruct (N.eqb c sep); [discriminate|].
  destruct (JSString.split sep s); [congruence | discriminate].
Qed.

(** [split] yields one token more than there are separators. *)
Lemma split_length (sep : N) (s : JSString.jsstring) :
  List.length (JSString.split sep s) = S (count_occ N.eq_dec s sep).
Proof.
  induction s as [|c s IH]; simpl; [reflexivity|].
  destruct (N.eqb_spec c sep) as [-> | Hne].
  - destruct (N.eq_dec sep sep); [|congruence]. simpl. rewrite IH. reflexivity.
  - destruct (N.eq_dec c sep); [congruence|].
    destruct (JSString.split sep s) eqn:E; [|exact IH].
    exfalso. exact (split_nonempty sep s E).
Qed.

Lemma mathMax_Qmax (a b : Q) : (mathMax a b == Qmax a b)%Q.
Proof.
  destruct (mathMax_cases a b) as [[-> Hlt] | [-> Hle]].
  - symmetry. apply Q.max_r. apply Qlt_le_weak; assumption.
  - symmetry. apply Q.max_l. assumption.
Qed.

Lemma beatDuration_Q (b : Beat Q) :
  (beatDuration b == Qmax 2 (inject_Z (wordCount b) / (5 # 2)))%Q.
Proof. unfold beatDuration. rewrite mathMax_Qmax. reflexivity. Qed.

(** The running sum of [handleAnalyzeBeats], from any start. *)
Lemma assignTimes_spec (t : Q) (beats : list (Beat Q)) :
  Forall2 (fun b r =>
             textSegment r = textSegment b
             /\ (endTime r - startTime r
                 == Qmax 2 (inject_Z (wordCount b) / (5 # 2)))%Q)
          beats (assignTimes t beats)
  /\ match assignTimes t beats with [] => beats = [] | r :: _ => startTime r = t end
  /\ adjacent (fun a c => startTime c = endTime a) (assignTimes t beats).
Proof.
  revert t; induction beats as [|b beats IH]; intros t; cbn [assignTimes].
  - repeat split; constructor.
  - destruct (IH (nadd t (beatDuration b))) as (HF & Hhd & Hadj).
    split; [|split]; [| reflexivity |].
    + constructor; [|exact HF]. cbn [textSegment startTime endTime].
      split; [reflexivity|]. rewrite <- beatDuration_Q.
      cbn [nadd QNumber]. ring.
    + destruct (assignTimes (nadd t (beatDuration b)) beats) as [|r rs];
        [exact I|].
      cbn [adjacent endTime]. split; [exact Hhd | exact Hadj].
Qed.

(** C8. Beats created from the text analysis each get the duration
    max(2, wordCount / 2.5), where wordCount is the number of tokens that
    splitting the text at single spaces yields (one more than the number of
    spaces), and start and end times by a running sum from 0: the first
    beat starts at 0 and every other beat starts where the previous one
    ends.  The sample run gives the times 0, 2.8, 4.8 and 6.8 in exact
    arithmetic and in binary64 alike. *)
Theorem analysed_beats_get_running_times :
  (forall beats : list (Beat Q),
      Forall2 (fun b r =>
                 textSegment r = textSegment b
                 /\ (endTime r - startTime r
                     == Qmax 2 (inject_Z (wordCount b) / (5 # 2)))%Q)
              beats (handleAnalyzeBeats beats)
      /\ match handleAnalyzeBeats beats with
         | [] => beats = []
         | r :: _ => startTime r = 0%Q
         end
      /\ adjacent (fun a c => startTime c = endTime a) (handleAnalyzeBeats beats))
  /\ (forall (num : Type) (N : Number num) (b : Beat num),
         wordCount b = Z.of_nat (S (count_occ N.eq_dec (textSegment b) 32%N)))
  /\ List.map (fun r => (Qred (startTime r), Qred (endTime r)))
       (handleAnalyzeBeats (Scenario.analysed (num := Q)))
     = [(0, 14 # 5); (14 # 5, 24 # 5); (24 # 5, 34 # 5)]%Q
  /\ List.map (fun r => (startTime r, endTime r))
       (handleAnalyzeBeats (Scenario.analysed (num := float)))
     = [(0, 14 / 5); (14 / 5, 24 / 5); (24 / 5, 34 / 5)]%float.
Proof.
  split; [|split; [|split]].
  - intros beats. apply assignTimes_spec.
  - intros num N b. unfold wordCount. rewrite split_length. reflexivity.
  - vm_compute. reflexivity.
  - vm_compute. reflexivity.
Qed.

(* ================================================================== *)
(** * What a split carries over *)
(* ================================================================== *)

Lemma Forall2_right {A B : Type} (P : B -> Prop) (l : list A) (l' : list B) :
  Forall2 (fun _ b => P b) l l' -> Forall P l'.
Proof. induction 1; constructor; assumption. Qed.

(** The loop reads the overlay type and the style of the original beat and
    nothing else of it. *)
Lemma splitLoop_reads {num : Type} `{Number num} (dateNow : Z -> Z)
    (ob ob' : Beat num) (L : Z) (D : num) (parts : list Part) (i : Z) (t : num) :
  overlayType ob' = overlayType ob ->
  styleConfig ob' = styleConfig ob ->
  splitLoop dateNow ob' L D i t parts = splitLoop dateNow ob L D i t parts.
Proof.
  intros Ho Hs. revert i t; induction parts as [|p parts IH]; intros i t; simpl;
    [reflexivity|].
  rewrite Ho, Hs, IH. reflexivity.
Qed.

(** C9. An accepted split puts at least one child in the place of the
    beat, and every child is enabled and has the settings
    {x: 0, y: 0, scale: 1, height: 50, aRollOffsetY: 50}, whatever the
    enable flag and the settings of the original beat were; the overlay
    type and the style configuration are those of the original.  Besides
    its id, its text and its interval, the overlay type and the style are
    all a split reads of the original: a beat that agrees with it on these
    fields is replaced by the same children. *)
Theorem split_children_are_enabled_with_default_settings :
  forall (num : Type) (N : Number num) (dateNow : Z -> Z) (b : Beat num) (s e : Z),
    (forall (beatId : JSString.jsstring) (pre post : list (Beat num)),
        id b = beatId ->
        Forall (fun c => id c <> beatId) pre ->
        (0 <= s < e)%Z ->
        (e <= JSString.length (textSegment b))%Z ->
        exists first rest,
          handleSplitBeat dateNow beatId s e (pre ++ b :: post)
          = Some (pre ++ (first :: rest) ++ post)
          /\ List.length (first :: rest)
             = List.length (keptRanges s e (JSString.length (textSegment b)))
          /\ Forall (fun c =>
                       isEnabled c = true
                       /\ bRollSettings c
                          = {| x := ofZ 0; y := ofZ 0; scale := ofZ 1; height := ofZ 50;
                               aRollOffsetY := Some (ofZ 50) |}
                       /\ overlayType c = overlayType b
                       /\ styleConfig c = styleConfig b)
                    (first :: rest)
          /\ (forall b' : Beat num,
                 id b' = beatId ->
                 textSegment b' = textSegment b ->
                 startTime b' = startTime b ->
                 endTime b' = endTime b ->
                 overlayType b' = overlayType b ->
                 styleConfig b' = styleConfig b ->
                 handleSplitBeat dateNow beatId s e (pre ++ b' :: post)
                 = Some (pre ++ (first :: rest) ++ post)))
    /\ Forall (fun c =>
                 isEnabled c = true
                 /\ bRollSettings c
                    = {| x := ofZ 0; y := ofZ 0; scale := ofZ 1; height := ofZ 50;
                         aRollOffsetY := Some (ofZ 50) |}
                 /\ overlayType c = overlayType b
                 /\ styleConfig c = styleConfig b)
              (splitChildren dateNow b s e)
    /\ (forall b' : Beat num,
           textSegment b' = textSegment b ->
           startTime b' = startTime b ->
           endTime b' = endTime b ->
           overlayType b' = overlayType b ->
           styleConfig b' = styleConfig b ->
           splitChildren dateNow b' s e = splitChildren dateNow b s e).
Proof.
  intros num N dateNow b s e.
  assert (Hfields : Forall (fun c =>
                              isEnabled c = true
                              /\ bRollSettings c
                                 = {| x := ofZ 0; y := ofZ 0; scale := ofZ 1;
                                      height := ofZ 50;
                                      aRollOffsetY := Some (ofZ 50) |}
                              /\ overlayType c = overlayType b
                              /\ styleConfig c = styleConfig b)
                           (splitChildren dateNow b s e)).
  { unfold splitChildren.
    apply (Forall2_right _ (splitParts (textSegment b) s e)).
    eapply Forall2_impl; [|apply splitLoop_fields]. simpl.
    intros p c (_ & _ & Ho & Hs & He & Hb & _). auto. }
  assert (Hreads : forall b' : Beat num,
             textSegment b' = textSegment b ->
             startTime b' = startTime b ->
             endTime b' = endTime b ->
             overlayType b' = overlayType b ->
             styleConfig b' = styleConfig b ->
             splitChildren dateNow b' s e = splitChildren dateNow b s e).
  { intros b' Ht Hs He Ho Hc. unfold splitChildren.
    rewrite Ht, Hs, He. apply splitLoop_reads; assumption. }
  split; [|split; [exact Hfields | exact Hreads]].
  intros beatId pre post Hid Hpre Hs He.
  destruct (splitChildren dateNow b s e) as [|first rest] eqn:Ec.
  { exfalso. exact (splitChildren_nonempty dateNow b s e Ec). }
  exists first, rest. split; [|split; [|split]].
  - rewrite <- Ec. apply handleSplitBeat_at; assumption.
  - rewrite <- Ec. unfold splitChildren.
    rewrite splitLoop_length, splitParts_ranges, length_map. reflexivity.
  - exact Hfields.
  - intros b' Hid' Ht Hs' He' Ho Hc. rewrite <- (Hreads b' Ht Hs' He' Ho Hc).
    apply handleSplitBeat_at; [exact Hid' | exact Hpre | exact Hs |].
    rewrite Ht. exact He.
Qed.

(** C9 at the ten-second sample beat, which is disabled and has settings
    of its own: split at (3, 6) it is replaced by three children, all of
    them enabled and with the default settings. *)
Lemma split_children_are_enabled_with_default_settings_witness :
  isEnabled (Scenario.tenSeconds (num := Q)) = false
  /\ bRollSettings (Scenario.tenSeconds (num := Q)) <> defaultSplitSettings
  /\ exists first rest,
       handleSplitBeat Scenario.clock (JSString.lit "beat-1-0") 3 6
         ([] ++ Scenario.tenSeconds (num := Q) :: [])
       = Some ([] ++ (first :: rest) ++ [])
       /\ List.length (first :: rest) = 3%nat
       /\ Forall (fun c => isEnabled c = true
                           /\ bRollSettings c = defaultSplitSettings)
                 (first :: rest).
Proof.
  split; [reflexivity|]. split; [discriminate|].
  destruct (proj1 (split_children_are_enabled_with_default_settings
                     Q _ Scenario.clock Scenario.tenSeconds 3%Z 6%Z)
                  (JSString.lit "beat-1-0") [] [])
    as (first & rest & Hsplit & Hlen & Hfields & _).
  - reflexivity.
  - constructor.
  - lia.
  - vm_compute. discriminate.
  - exists first, rest. split; [exact Hsplit|]. split; [exact Hlen|].
    eapply Forall_impl; [|exact Hfields]. intros c (Hen & Hset & _).
    split; [exact Hen | exact Hset].
Defined.

(** C10. Each child of a split has as its text the trimmed form of its
    range of the original text (the kept ranges, in text order), so the
    children's texts need not add up to the original: the beat with text
    "AB CD", split at (0, 3), has the children "AB" and "CD", whose
    concatenation "ABCD" is not the original text. *)
Theorem split_children_text_is_trimmed :
  (forall (num : Type) (N : Number num) (dateNow : Z -> Z) (b : Beat num) (s e : Z),
      Forall2 (fun r c =>
                 textSegment c
                 = JSString.trim (JSString.substring (textSegment b) (fst r) (snd r)))
              (keptRanges s e (JSString.length (textSegment b)))
              (splitChildren dateNow b s e))
  /\ List.map (@textSegment Q)
       (beatsAfter [Scenario.twoWords]
          (handleSplitBeat Scenario.clock (JSString.lit "w") 0 3
             [Scenario.twoWords (num := Q)]))
     = [JSString.lit "AB"; JSString.lit "CD"]
  /\ List.concat (List.map (@textSegment Q)
               (beatsAfter [Scenario.twoWords]
                  (handleSplitBeat Scenario.clock (JSString.lit "w") 0 3
                     [Scenario.twoWords (num := Q)])))
     <> textSegment (Scenario.twoWords (num := Q)).
Proof.
  split; [|split].
  - intros num N dateNow b s e. apply splitChildren_ranges.
  - vm_compute. reflexivity.
  - vm_compute. discriminate.
Qed.

(* ================================================================== *)
(** * Properties of the export renderer *)
(* ================================================================== *)

Import VideoExport.

(** C4. Cover-crop with vertical pan, for a source of [sw x sh] pixels, a
    target area of [tw x th] and the pan percentage [p], all dimensions
    positive.  When sw/sh <= tw/th the crop keeps the full source width,
    has the height sw / (tw/th) and the vertical offset
    (sh - croppedHeight) * (p/100).  When sw/sh > tw/th it keeps the full
    height, has the width sh * (tw/th) and is centred horizontally.  For a
    1920x1080 source and a 1080x600 area the vertical offset is 0 at p = 0,
    sourceHeight - croppedHeight at p = 100 and the midpoint of the two at
    p = 50, in exact arithmetic and in binary64 alike; this is the crop
    the renderer draws for a portrait frame whose B-roll band leaves 600
    rows. *)
Theorem cover_crop_pans_vertically :
  (forall sw sh tw th p : Q,
      (0 < sw)%Q -> (0 < sh)%Q -> (0 < tw)%Q -> (0 < th)%Q ->
      ((sw / sh <= tw / th)%Q ->
       sX (coverCrop sw sh tw th p) = 0%Q
       /\ sW (coverCrop sw sh tw th p) = sw
       /\ sH (coverCrop sw sh tw th p) = (sw / (tw / th))%Q
       /\ sY (coverCrop sw sh tw th p)
          = ((sh - sH (coverCrop sw sh tw th p)) * (p / 100))%Q)
      /\ ((tw / th < sw / sh)%Q ->
          sH (coverCrop sw sh tw th p) = sh
          /\ sW (coverCrop sw sh tw th p) = (sh * (tw / th))%Q
          /\ sY (coverCrop sw sh tw th p) = 0%Q
          /\ (sX (coverCrop sw sh tw th p)
              == (sw - sW (coverCrop sw sh tw th p)) / 2)%Q
          /\ (sX (coverCrop sw sh tw th p) + sW (coverCrop sw sh tw th p)
              + sX (coverCrop sw sh tw th p) == sw)%Q))
  /\ ((sY (coverCrop 1920 1080 1080 600 0) == 0)%Q
      /\ (sY (coverCrop 1920 1080 1080 600 100)
          == 1080 - sH (coverCrop 1920 1080 1080 600 100))%Q
      /\ (sY (coverCrop 1920 1080 1080 600 50)
          == (sY (coverCrop 1920 1080 1080 600 0)
              + sY (coverCrop 1920 1080 1080 600 100)) / 2)%Q)
  /\ (sY (coverCrop 1920 1080 1080 600 0) = 0
      /\ sY (coverCrop 1920 1080 1080 600 100)
         = 1080 - sH (coverCrop 1920 1080 1080 600 100)
      /\ sY (coverCrop 1920 1080 1080 600 50)
         = (sY (coverCrop 1920 1080 1080 600 0)
            + sY (coverCrop 1920 1080 1080 600 100)) / 2)%float
  /\ (forall pan : Z,
         aRollCrop PORTRAIT (Scenario.hdVideo (num := float) 1)
           [Scenario.splitBeat pan]
         = Some (coverCrop 1920 1080 1080 600 (ofZ pan))%float).
Proof.
  split; [|split; [|split]].
  - intros sw sh tw th p Hsw Hsh Htw Hth. unfold coverCrop.
    cbn [ngtb nltb ndiv nmul nsub ofZ QNumber]. split.
    + intros Hle. apply Qltb_ge in Hle. rewrite Hle.
      cbn [sX sY sW sH]. repeat split; reflexivity.
    + intros Hlt. apply Qltb_lt in Hlt. rewrite Hlt.
      cbn [sX sY sW sH]. repeat split; try reflexivity.
      field. intros E. rewrite E in Hth. discriminate Hth.
  - repeat split; vm_compute; reflexivity.
  - repeat split; vm_compute; reflexivity.
  - intros pan. reflexivity.
Qed.

(** C4 at the 1920x1080 source and the 1080x600 area, panned to 50%. *)
Lemma cover_crop_pans_vertically_witness :
  sX (coverCrop 1920 1080 1080 600 50) = 0%Q
  /\ sW (coverCrop 1920 1080 1080 600 50) = 1920%Q
  /\ sH (coverCrop 1920 1080 1080 600 50) = (1920 / (1080 / 600))%Q
  /\ sY (coverCrop 1920 1080 1080 600 50)
     = ((1080 - sH (coverCrop 1920 1080 1080 600 50)) * (50 / 100))%Q.
Proof.
  apply (proj1 (proj1 cover_crop_pans_vertically 1920 1080 1080 600 50
                  ltac:(reflexivity) ltac:(reflexivity) ltac:(reflexivity)
                  ltac:(reflexivity))%Q).
  vm_compute. discriminate.
Defined.

(* ================================================================== *)
(** * Properties of the WAV encoder *)
(* ================================================================== *)

Import AudioUtils.

Lemma clamp_bounds (s : Q) : (-1 <= clamp s <= 1)%Q.
Proof.
  unfold clamp. change (ofZ (-1)) with (-1)%Q. change (ofZ 1) with 1%Q.
  destruct (mathMin_cases 1 s) as [[-> H1] | [-> H1]];
    destruct (mathMax_cases (-1) s) as [[E H2] | [E H2]];
    destruct (mathMax_cases (-1) 1) as [[E' H3] | [E' H3]];
    try rewrite E; try rewrite E'; lra.
Qed.

Lemma Qtrunc_bounds (q : Q) (lo hi : Z) :
  (inject_Z lo <= q)%Q -> (q <= inject_Z hi)%Q -> (lo <= Qtrunc q <= hi)%Z.
Proof.
  destruct q as [n d]. unfold Qle, Qtrunc. simpl. rewrite !Z.mul_1_r. intros Hlo Hhi.
  split.
  - rewrite <- (Z.quot_mul lo (Zpos d)) by discriminate.
    apply Z.quot_le_mono; lia.
  - rewrite <- (Z.quot_mul hi (Zpos d)) by discriminate.
    apply Z.quot_le_mono; lia.
Qed.

(** In exact arithmetic the stored value is the quantised one and lies in
    the signed 16-bit range, for every sample. *)
Lemma encodeSample_in_range (s : Q) :
  encodeSample s = quantize (clamp s)
  /\ (-32768 <= encodeSample s <= 32767)%Z.
Proof.
  assert (Hq : (-32768 <= quantize (clamp s) <= 32767)%Z).
  { destruct (clamp_bounds s) as [Hlo Hhi]. unfold quantize.
    cbn [toInt32 nltb nadd ndiv nmul ofZ QNumber].
    set (c := clamp s) in *.
    assert (Hw : forall z, (-32768 <= z <= 32767)%Z -> (-32768 <= wrap32 z <= 32767)%Z).
    { intros z Hz. unfold wrap32.
      rewrite Z.mod_small by lia. lia. }
    apply Hw. destruct (Qltb (inject_Z 1 / inject_Z 2 + c) (inject_Z 0)) eqn:E.
    - apply Qltb_lt in E.
      change (inject_Z 1 / inject_Z 2)%Q with (1 # 2)%Q in E.
      change (inject_Z 0) with 0%Q in E.
      apply Qtrunc_bounds; change (inject_Z (-32768)) with (-32768)%Q;
        change (inject_Z 32767) with 32767%Q; change (inject_Z 32768) with 32768%Q; lra.
    - apply Qltb_ge in E.
      change (inject_Z 1 / inject_Z 2)%Q with (1 # 2)%Q in E.
      change (inject_Z 0) with 0%Q in E.
      apply Qtrunc_bounds; change (inject_Z (-32768)) with (-32768)%Q;
        change (inject_Z 32767) with 32767%Q; lra. }
  assert (E : encodeSample s = quantize (clamp s)).
  { unfold encodeSample, wrap16. rewrite Z.mod_small by lia. lia. }
  split; [exact E | rewrite E; exact Hq].
Qed.

(** C5, on the code.  The sample -0.25 is negative and lies in [-1, 1], so
    the claim has it scaled by 32768 and truncated, to -8192.  The encoder
    tests [0.5 + sample < 0], which -0.25 does not satisfy, scales it by
    32767 and stores -8191; the exact and the binary64 run agree. *)
Theorem quantize_scales_small_negatives_by_32767 :
  encodeSample (-1 # 4)%Q = (-8191)%Z
  /\ encodeSample (-0.25)%float = (-8191)%Z
  /\ (clamp (-1 # 4) == -1 # 4)%Q
  /\ toInt32 ((-1 # 4) * 32768)%Q = (-8192)%Z.
Proof.
  repeat split; vm_compute; reflexivity.
Qed.

(* ================================================================== *)
(** * Properties of the progress reports *)
(* ================================================================== *)

Lemma adjacent_all {A : Type} (R : A -> A -> Prop) (a : A) (l : list A) :
  (forall x y z, R x y -> R y z -> R x z) ->
  adjacent R (a :: l) -> Forall (R a) l.
Proof.
  intros Htrans. revert a; induction l as [|b l IH]; intros a Hadj; constructor.
  - apply Hadj.
  - destruct Hadj as [Hab Hadj]. eapply Forall_impl; [|apply (IH b Hadj)].
    simpl. intros c Hbc. apply (Htrans _ _ _ Hab Hbc).
Qed.

(** Dropping elements keeps a transitive relation between neighbours. *)
Lemma adjacent_filter {A : Type} (R : A -> A -> Prop) (p : A -> bool) (l : list A) :
  (forall x y z, R x y -> R y z -> R x z) ->
  adjacent R l -> adjacent R (filter p l).
Proof.
  intros Htrans. induction l as [|a l IH]; intros Hadj; [exact I|].
  assert (Hall := adjacent_all R a l Htrans Hadj).
  specialize (IH (adjacent_cons _ _ _ Hadj)).
  cbn [filter]. destruct (p a); [|exact IH].
  assert (Hall' : Forall (R a) (filter p l)).
  { apply Forall_forall. intros x Hx. apply filter_In in Hx.
    exact (proj1 (Forall_forall _ _) Hall x (proj1 Hx)). }
  destruct (filter p l) as [|b l']; [exact I|].
  split; [inversion Hall'; assumption | exact IH].
Qed.

Lemma adjacent_map {A B : Type} (R : B -> B -> Prop) (f : A -> B) (l : list A) :
  adjacent (fun x y => R (f x) (f y)) l -> adjacent R (List.map f l).
Proof.
  induction l as [|a [|b l] IH]; try exact (fun _ => I).
  intros [Hab Hadj]. split; [exact Hab | exact (IH Hadj)].
Qed.

Lemma adjacent_impl {A : Type} (R R' : A -> A -> Prop) (l : list A) :
  (forall x y, In x l -> In y l -> R x y -> R' x y) ->
  adjacent R l -> adjacent R' l.
Proof.
  induction l as [|a [|b l] IH]; intros Himp; try exact (fun _ => I).
  intros [Hab Hadj]. split.
  - apply Himp; [left; reflexivity | right; left; reflexivity | exact Hab].
  - apply IH; [|exact Hadj]. intros x y Hx Hy. apply Himp; right; assumption.
Qed.

Lemma run_cons {num : Type} `{Number num} (e : Event) (events : list Event)
    (st : Export) :
  run (e :: events) st = run events (step st e).
Proof. reflexivity. Qed.

Lemma run_app {num : Type} `{Number num} (events events' : list Event) (st : Export) :
  run (events ++ events') st = run events' (run events st).
Proof. unfold run. apply fold_left_app. Qed.

(** While the recorder records, the frames that report add their
    progress value, in order, and the recorder goes on recording. *)
Lemma run_frames {num : Type} `{Number num} (frames : list Video) (st : Export) :
  recorder st = recording ->
  run (List.map Frame frames) st
  = {| recorder := recording;
       reported := reported st ++ List.map frameProgress (filter reports frames) |}.
Proof.
  revert st; induction frames as [|v frames IH]; intros st Hrec.
  - simpl. rewrite app_nil_r. destruct st; simpl in *; subst; reflexivity.
  - cbn [List.map]. rewrite run_cons. cbn [step].
    unfold renderFrame. rewrite Hrec. cbn [isInactive filter]. unfold reports.
    destruct (paused v && negb (ended v)); cbn [negb andb];
      [apply IH; assumption|].
    destruct (ngtb (duration v) (ofZ 0)); [|apply IH; assumption].
    rewrite IH by reflexivity. cbn [reported List.map]. rewrite <- app_assoc.
    reflexivity.
Qed.

(** Once the recorder is inactive nothing is reported any more. *)
Lemma run_inactive {num : Type} `{Number num} (events : list Event) (st : Export) :
  recorder st = inactive -> run events st = st.
Proof.
  revert st; induction events as [|e events IH]; intros st Hrec; [reflexivity|].
  rewrite run_cons.
  destruct e as [v|]; cbn [step]; unfold renderFrame, onended; rewrite Hrec;
    cbn [isInactive negb]; apply IH; assumption.
Qed.

Lemma frameProgress_Qmin (v : Video) :
  (frameProgress v == Qmin (99 # 100) (currentTime v / duration v))%Q.
Proof.
  unfold frameProgress. change (ndiv (ofZ 99) (ofZ 100)) with (99 # 100)%Q.
  cbn [ndiv QNumber].
  destruct (mathMin_cases (99 # 100) (currentTime v / duration v))
    as [[-> Hlt] | [-> Hle]]; symmetry.
  - apply Q.min_r. apply Qlt_le_weak; assumption.
  - apply Q.min_l. assumption.
Qed.

Lemma frameProgress_mono (u v : Video) :
  duration u = duration v -> (0 < duration v)%Q ->
  (currentTime u <= currentTime v)%Q ->
  (frameProgress u <= frameProgress v)%Q.
Proof.
  intros Ed Hd Ht. rewrite !frameProgress_Qmin. rewrite Ed.
  apply Q.min_le_compat_l. unfold Qdiv.
  apply Qmult_le_compat_r; [assumption|].
  apply Qlt_le_weak. apply Qinv_lt_0_compat. assumption.
Qed.

(** C6. During an export a frame callback reports progress only when the
    duration of the video is greater than 0, and what it reports is
    min(0.99, currentTime / duration).  Over the frames of a playback (a
    fixed duration, a clock that does not run backwards) the values reported
    before the end-of-media event never decrease and stay below 1; the
    end-of-media event then reports exactly 1, the recorder stops, and no
    later event reports anything. *)
Theorem progress_is_monotone_and_capped :
  forall (d : Q) (frames : list Video) (later : list Event),
    playback d frames ->
    (forall (v : Video) (st : Export),
        ~ (0 < duration v)%Q -> reported (renderFrame v st) = reported st)
    /\ recorder (run (List.map Frame frames) started) = recording
    /\ reported (run (List.map Frame frames) started)
       = List.map frameProgress (filter reports frames)
    /\ (forall v : Video,
           (frameProgress v == Qmin (99 # 100) (currentTime v / duration v))%Q)
    /\ nonDecreasing (reported (run (List.map Frame frames) started))
    /\ Forall (fun x => (x < 1)%Q) (reported (run (List.map Frame frames) started))
    /\ reported (run (List.map Frame frames ++ Ended :: later) started)
       = reported (run (List.map Frame frames) started) ++ [1%Q]
    /\ recorder (run (List.map Frame frames ++ Ended :: later) started) = inactive.
Proof.
  intros d frames later [Hdur Hclock].
  assert (Hrun := run_frames frames started eq_refl).
  cbn [reported started app] in Hrun. rewrite Hrun. cbn [recorder reported].
  split; [|split; [|split; [|split; [|split; [|split; [|split]]]]]].
  - intros v st Hd. unfold renderFrame.
    destruct (isInactive (recorder st)); [reflexivity|].
    destruct (paused v && negb (ended v)); [reflexivity|].
    destruct (ngtb (duration v) (ofZ 0)) eqn:E; [|reflexivity].
    exfalso. apply Hd. apply Qltb_lt. exact E.
  - reflexivity.
  - reflexivity.
  - apply frameProgress_Qmin.
  - unfold nonDecreasing. apply adjacent_map.
    assert (Hpos : forall v, In v (filter reports frames) ->
                             duration v = d /\ (0 < d)%Q).
    { intros v Hv. apply filter_In in Hv as [Hin Hrep].
      assert (Ed := proj1 (Forall_forall _ _) Hdur v Hin).
      split; [exact Ed|]. unfold reports in Hrep.
      apply andb_true_iff in Hrep as [_ Hrep]. apply Qltb_lt in Hrep.
      rewrite Ed in Hrep. exact Hrep. }
    apply (adjacent_impl (fun u v => (currentTime u <= currentTime v)%Q)).
    + intros u v Hu Hv Huv. destruct (Hpos u Hu) as [Eu _].
      destruct (Hpos v Hv) as [Ev Hd].
      apply frameProgress_mono; [congruence | rewrite Ev; exact Hd | exact Huv].
    + apply adjacent_filter; [|exact Hclock].
      intros x y z. apply Qle_trans.
  - apply Forall_map. apply Forall_forall. intros v _.
    rewrite frameProgress_Qmin.
    apply Qle_lt_trans with (99 # 100)%Q; [apply Q.le_min_l | reflexivity].
  - rewrite run_app, Hrun, run_cons. cbn [step]. unfold onended.
    cbn [recorder isInactive negb reported].
    rewrite run_inactive by reflexivity. reflexivity.
  - rewrite run_app, Hrun, run_cons. cbn [step]. unfold onended.
    cbn [recorder isInactive negb reported].
    rewrite run_inactive by reflexivity. reflexivity.
Qed.

(** C6 at a ten-second playback seen at 0, 5 and 10 seconds, followed by
    the end-of-media event, a late frame callback and a second
    end-of-media event. *)
Lemma progress_is_monotone_and_capped_witness :
  nonDecreasing
    (reported (run (List.map Frame [Scenario.hdVideo (num := Q) 0; Scenario.hdVideo 5;
                                    Scenario.hdVideo 10]) started))
  /\ reported (run (List.map Frame [Scenario.hdVideo (num := Q) 0; Scenario.hdVideo 5;
                                    Scenario.hdVideo 10]
                    ++ Ended :: [Frame (Scenario.hdVideo 10); Ended]) started)
     = reported (run (List.map Frame [Scenario.hdVideo (num := Q) 0; Scenario.hdVideo 5;
                                      Scenario.hdVideo 10]) started) ++ [1%Q].
Proof.
  destruct (progress_is_monotone_and_capped 10
              [Scenario.hdVideo (num := Q) 0; Scenario.hdVideo 5; Scenario.hdVideo 10]
              [Frame (Scenario.hdVideo 10); Ended])
    as (_ & _ & _ & _ & Hmono & _ & Hend & _).
  - split.
    + repeat constructor.
    + simpl. repeat split; discriminate.
  - split; [exact Hmono | exact Hend].
Defined.

(* ================================================================== *)
(** * Further properties of the split *)
(* ================================================================== *)

(** A split changes nothing when no beat carries the id, or when the
    offsets are not a non-empty range inside the text of the first beat
    that carries it; in every other case it updates the list. *)
Theorem split_rejects_unknown_id_and_bad_range :
  forall (num : Type) (N : Number num) (dateNow : Z -> Z)
         (beatId : JSString.jsstring) (s e : Z) (beats : list (Beat num)),
    (Forall (fun b => id b <> beatId) beats ->
     handleSplitBeat dateNow beatId s e beats = None)
    /\ (forall pre b post,
           beats = pre ++ b :: post ->
           id b = beatId ->
           Forall (fun c => id c <> beatId) pre ->
           (s < 0 \/ JSString.length (textSegment b) < e \/ e <= s)%Z ->
           handleSplitBeat dateNow beatId s e beats = None)
    /\ (handleSplitBeat dateNow beatId s e beats = None ->
        Forall (fun b => id b <> beatId) beats
        \/ exists pre b post,
             beats = pre ++ b :: post /\ id b = beatId
             /\ Forall (fun c => id c <> beatId) pre
             /\ (s < 0 \/ JSString.length (textSegment b) < e \/ e <= s)%Z).
Proof.
  intros num N dateNow beatId s e beats.
  assert (Hnot : forall l : list (Beat num),
             Forall (fun c => id c <> beatId) l ->
             Forall (fun c => JSString.eqb (id c) beatId = false) l).
  { intros l Hl. eapply Forall_impl; [|exact Hl]. simpl. intros c Hc.
    destruct (JSString.eqb (id c) beatId) eqn:E; [|reflexivity].
    apply eqb_eq in E. contradiction. }
  assert (Hbad : forall pre b post,
             id b = beatId -> Forall (fun c => id c <> beatId) pre ->
             (s < 0 \/ JSString.length (textSegment b) < e \/ e <= s)%Z ->
             handleSplitBeat dateNow beatId s e (pre ++ b :: post) = None).
  { intros pre b post Hid Hpre Hrange. unfold handleSplitBeat, findIndex.
    rewrite (findIndexFrom_first (fun c => JSString.eqb (id c) beatId) pre b post 0);
      [|apply Hnot; assumption | apply eqb_eq; assumption].
    simpl Z.add.
    destruct (Z.eqb_spec (Z.of_nat (List.length pre)) (-1)) as [Hm|Hm]; [lia|].
    rewrite Nat2Z.id, nth_error_app2, Nat.sub_diag by lia. simpl nth_error.
    cbv beta iota zeta.
    destruct (Z.ltb_spec s 0); [reflexivity|].
    destruct (Z.gtb_spec e (JSString.length (textSegment b))); [reflexivity|].
    destruct (Z.geb_spec s e); [reflexivity|]. lia. }
  split; [|split].
  - intros Hall. unfold handleSplitBeat, findIndex.
    destruct (findIndexFrom_spec (fun b => JSString.eqb (id b) beatId) beats 0)
      as [[E _] | (pre & b & post & -> & Hb & _ & _)]; [lia | rewrite E; reflexivity |].
    exfalso. apply eqb_eq in Hb.
    apply (proj1 (Forall_forall _ _) Hall b); [|exact Hb].
    apply in_or_app. right. left. reflexivity.
  - intros pre b post -> Hid Hpre Hrange. apply Hbad; assumption.
  - intros Hnone.
    destruct (findIndexFrom_spec (fun b => JSString.eqb (id b) beatId) beats 0)
      as [[_ Hall] | (pre & b & post & -> & Hb & Hpre & _)]; [lia | |].
    + left. eapply Forall_impl; [|exact Hall]. simpl. intros c Hc Heq.
      subst beatId. rewrite eqb_refl in Hc. discriminate.
    + right. exists pre, b, post. apply eqb_eq in Hb.
      assert (Hpre' : Forall (fun c => id c <> beatId) pre).
      { eapply Forall_impl; [|exact Hpre]. simpl. intros c Hc Heq.
        rewrite Heq, eqb_refl in Hc. discriminate. }
      repeat split; try assumption.
      destruct (Z.ltb_spec s 0); [left; assumption|].
      destruct (Z.ltb_spec (JSString.length (textSegment b)) e);
        [right; left; assumption|].
      destruct (Z.leb_spec e s); [right; right; assumption|].
      rewrite handleSplitBeat_at in Hnone by (try assumption; lia).
      discriminate.
Qed.

(** The rejection at the three sample beats: an id that no beat carries,
    and a range that ends past the one character of the text. *)
Lemma split_rejects_unknown_id_and_bad_range_witness :
  handleSplitBeat Scenario.clock (JSString.lit "zz") 0 1
    (Scenario.threeBeats (num := Q)) = None
  /\ handleSplitBeat Scenario.clock (JSString.lit "b") 0 2
       (Scenario.threeBeats (num := Q)) = None.
Proof.
  destruct (split_rejects_unknown_id_and_bad_range Q _ Scenario.clock
              (JSString.lit "zz") 0%Z 1%Z Scenario.threeBeats) as (H1 & _ & _).
  destruct (split_rejects_unknown_id_and_bad_range Q _ Scenario.clock
              (JSString.lit "b") 0%Z 2%Z Scenario.threeBeats) as (_ & H2 & _).
  split.
  - apply H1. repeat constructor; discriminate.
  - apply (H2 [Scenario.beat "a" 0 1 "A"] (Scenario.beat "b" 1 2 "B")
              [Scenario.beat "c" 2 3 "C"]).
    + reflexivity.
    + reflexivity.
    + repeat constructor; discriminate.
    + right. left. vm_compute. reflexivity.
Defined.

Lemma keptRanges_length (s e len : Z) :
  List.length (keptRanges s e len)
  = ((if (0 <? s)%Z then 1 else 0) + 1 + (if (e <? len)%Z then 1 else 0))%nat.
Proof.
  unfold keptRanges. rewrite !length_app.
  destruct (0 <? s)%Z, (e <? len)%Z; reflexivity.
Qed.

(** An accepted split puts one child per kept range in the place of the
    beat: three when text is left on both sides of the selection, two when
    the selection touches one end of the text, and a single one when the
    whole text is selected.  The beats before and after stay as they were,
    so the list grows by the number of children minus one. *)
Theorem split_child_count :
  forall (num : Type) (N : Number num) (dateNow : Z -> Z)
         (beatId : JSString.jsstring) (s e : Z)
         (pre post : list (Beat num)) (b : Beat num),
    id b = beatId ->
    Forall (fun c => id c <> beatId) pre ->
    (0 <= s < e)%Z ->
    (e <= JSString.length (textSegment b))%Z ->
    exists children,
      handleSplitBeat dateNow beatId s e (pre ++ b :: post)
      = Some (pre ++ children ++ post)
      /\ List.length children
         = ((if (0 <? s)%Z then 1 else 0) + 1
            + (if (e <? JSString.length (textSegment b))%Z then 1 else 0))%nat
      /\ List.length (pre ++ children ++ post)
         = (List.length (pre ++ b :: post)
            + (if (0 <? s)%Z then 1 else 0)
            + (if (e <? JSString.length (textSegment b))%Z then 1 else 0))%nat.
Proof.
  intros num N dateNow beatId s e pre post b Hid Hpre Hs He.
  exists (splitChildren dateNow b s e).
  assert (Hlen : List.length (splitChildren dateNow b s e)
                 = ((if (0 <? s)%Z then 1 else 0) + 1
                    + (if (e <? JSString.length (textSegment b))%Z then 1 else 0))%nat).
  { unfold splitChildren. rewrite splitLoop_length, splitParts_ranges, length_map.
    apply keptRanges_length. }
  split; [apply handleSplitBeat_at; assumption|]. split; [exact Hlen|].
  rewrite !length_app, Hlen. simpl. lia.
Qed.

(** The count at the ten-second sample beat: the whole text selected
    leaves one child, a selection from the start two. *)
Lemma split_child_count_witness :
  (exists children,
      handleSplitBeat Scenario.clock (JSString.lit "beat-1-0") 0 10
        ([] ++ Scenario.tenSeconds (num := Q) :: []) = Some ([] ++ children ++ [])
      /\ List.length children = 1%nat)
  /\ (exists children,
         handleSplitBeat Scenario.clock (JSString.lit "beat-1-0") 0 4
           ([] ++ Scenario.tenSeconds (num := Q) :: []) = Some ([] ++ children ++ [])
         /\ List.length children = 2%nat).
Proof.
  split.
  - destruct (split_child_count Q _ Scenario.clock (JSString.lit "beat-1-0") 0%Z 10%Z
                [] [] Scenario.tenSeconds) as (cs & H1 & H2 & _);
      [reflexivity | constructor | lia | vm_compute; discriminate |].
    exists cs. split; [exact H1 | exact H2].
  - destruct (split_child_count Q _ Scenario.clock (JSString.lit "beat-1-0") 0%Z 4%Z
                [] [] Scenario.tenSeconds) as (cs & H1 & H2 & _);
      [reflexivity | constructor | lia | vm_compute; discriminate |].
    exists cs. split; [exact H1 | exact H2].
Defined.

(* ================================================================== *)
(** * Further properties of the merge *)
(* ================================================================== *)



Lemma filter_split_length {A : Type} (p : A -> bool) (l : list A) :
  (List.length (filter p l) + List.length (filter (fun a => negb (p a)) l)
   = List.length l)%nat.
Proof.
  induction l as [|a l IH]; simpl; [reflexivity|].
  destruct (p a); simpl; lia.
Qed.

(** A merge of k >= 2 selected beats keeps every beat that was not
    selected, adds one beat, the merged one, and so shortens the list by
    k - 1. *)
Theorem merge_replaces_selection_by_one_beat :
  forall (num : Type) (N : Number num) (now : Z) (ids : list JSString.jsstring)
         (beats : list (Beat num)),
    (2 <= List.length (selectBeats ids beats))%nat ->
    exists merged after,
      handleMergeBeats now ids beats = Some after
      /\ Permutation after (remainingBeats ids beats ++ [merged])
      /\ (List.length after + List.length (selectBeats ids beats)
          = List.length beats + 1)%nat
      /\ (forall b, In b beats -> JSString.includes ids (id b) = false -> In b after)
      /\ id merged = JSString.lit "beat-merged-" ++ JSString.decimal now.
Proof.
  intros num N now ids beats Hlen.
  destruct (handleMergeBeats_some now ids beats Hlen) as (f & rest & _ & ->).
  eexists. eexists. split; [reflexivity|].
  assert (P := sortBy_perm byStartTime
                 (remainingBeats ids beats
                  ++ [mergedBeat now f (last (f :: rest) f) (f :: rest)])).
  split; [exact P|]. split; [|split].
  - rewrite (Permutation_length P), length_app. simpl.
    assert (Hs := filter_split_length (fun b => JSString.includes ids (id b)) beats).
    unfold selectBeats, remainingBeats. lia.
  - intros b Hin Hnot. apply (Permutation_in _ (Permutation_sym P)).
    apply in_or_app. left. unfold remainingBeats. apply filter_In.
    split; [exact Hin | rewrite Hnot; reflexivity].
  - reflexivity.
Qed.

(** The merge of the first two of the three sample beats. *)
Lemma merge_replaces_selection_by_one_beat_witness :
  exists merged after,
    handleMergeBeats 1700000000000 [JSString.lit "a"; JSString.lit "b"]
      (Scenario.threeBeats (num := Q)) = Some after
    /\ Permutation after
         (remainingBeats [JSString.lit "a"; JSString.lit "b"] Scenario.threeBeats
          ++ [merged])
    /\ List.length after = 2%nat.
Proof.
  destruct (merge_replaces_selection_by_one_beat Q _ 1700000000000%Z
              [JSString.lit "a"; JSString.lit "b"] Scenario.threeBeats)
    as (merged & after & H1 & H2 & H3 & _).
  - vm_compute. lia.
  - exists merged, after. split; [exact H1|]. split; [exact H2|].
    change (List.length (selectBeats [JSString.lit "a"; JSString.lit "b"]
                           (Scenario.threeBeats (num := Q)))) with 2%nat in H3.
    change (List.length (Scenario.threeBeats (num := Q))) with 3%nat in H3.
    lia.
Defined.

(* ================================================================== *)
(** * The analysed beats as a partition *)
(* ================================================================== *)

Lemma beatDuration_at_least_2 (b : Beat Q) : (2 <= beatDuration b)%Q.
Proof.
  unfold beatDuration.
  destruct (mathMax_cases (ofZ 2) (ndiv (ofZ (wordCount b)) (ndiv (ofZ 5) (ofZ 2))))
    as [[-> Hlt] | [-> Hle]]; [apply Qlt_le_weak; exact Hlt | apply Qle_refl].
Qed.

Lemma assignTimes_chain (t : Q) (beats : list (Beat Q)) :
  exists t', chain t (assignTimes t beats) t'
             /\ (t + 2 * inject_Z (Z.of_nat (List.length beats)) <= t')%Q.
Proof.
  revert t; induction beats as [|b beats IH]; intros t.
  - exists t. split; [simpl; reflexivity|].
    change (inject_Z (Z.of_nat (List.length (@nil (Beat Q))))) with 0%Q. lra.
  - destruct (IH (nadd t (beatDuration b))) as (t' & Hc & Hle).
    exists t'. assert (Hd := beatDuration_at_least_2 b).
    cbn [nadd QNumber] in Hc, Hle.
    split.
    + cbn [assignTimes chain startTime endTime nadd QNumber].
      split; [reflexivity|]. split; [lra | exact Hc].
    + change (List.length (b :: beats)) with (S (List.length beats)).
      rewrite Nat2Z.inj_succ. unfold Z.succ. rewrite inject_Z_plus.
      change (inject_Z 1) with 1%Q. lra.
Qed.

Lemma assignTimes_length {num : Type} `{Number num} (t : num) (beats : list (Beat num)) :
  List.length (assignTimes t beats) = List.length beats.
Proof.
  revert t; induction beats as [|b beats IH]; intros t; simpl;
    [reflexivity | rewrite IH; reflexivity].
Qed.

(** In exact arithmetic the beats that the analysis handler stores form a
    valid partition that starts at 0, whatever texts the service returned:
    one beat per segment, the first beat starting at 0, every beat at least
    two seconds long, no beat before time 0, and the last beat ending no
    earlier than two seconds per beat. *)
Theorem analysed_beats_form_a_partition :
  forall beats : list (Beat Q),
    valid (handleAnalyzeBeats beats)
    /\ List.length (handleAnalyzeBeats beats) = List.length beats
    /\ Forall (fun r => (0 <= startTime r)%Q /\ (2 <= endTime r - startTime r)%Q)
              (handleAnalyzeBeats beats)
    /\ (forall d, beats <> [] ->
          (2 * inject_Z (Z.of_nat (List.length beats))
           <= endTime (last (handleAnalyzeBeats beats) d))%Q)
    /\ (forall d, beats <> [] -> startTime (hd d (handleAnalyzeBeats beats)) = 0%Q).
Proof.
  intros beats. unfold handleAnalyzeBeats. change (ofZ 0) with 0%Q.
  destruct (assignTimes_chain 0 beats) as (t' & Hc & Hle).
  split; [exact (chain_valid _ _ _ Hc)|]. split; [apply assignTimes_length|].
  split; [|split; [|intros d Hne; destruct beats; [congruence | reflexivity]]].
  - destruct (assignTimes_spec 0 beats) as (HF & _ & _).
    assert (Hb := chain_bounds _ _ _ Hc).
    clear Hc Hle. revert HF Hb. generalize (assignTimes 0%Q beats).
    intros out HF Hb. induction HF as [|b r bs rs [_ Hr] _ IH]; [constructor|].
    inversion Hb as [|? ? [Hs _] Hb']; subst. constructor; [|apply IH; exact Hb'].
    split; [exact Hs|]. rewrite Hr. apply Q.le_max_l.
  - intros d Hne.
    assert (Hne' : assignTimes 0%Q beats <> []).
    { intros E. apply (f_equal (@List.length _)) in E.
      rewrite assignTimes_length in E. destruct beats; [congruence | discriminate]. }
    rewrite (chain_last _ d _ _ Hc Hne'). lra.
Qed.

(** The three segments of the sample analysis: the first beat starts at
    0 and the last beat ends no earlier than second 6. *)
Lemma analysed_beats_form_a_partition_witness :
  valid (handleAnalyzeBeats (Scenario.analysed (num := Q)))
  /\ (2 * inject_Z (Z.of_nat 3)
      <= endTime (last (handleAnalyzeBeats (Scenario.analysed (num := Q)))
                       Scenario.tenSeconds))%Q
  /\ startTime (hd Scenario.tenSeconds
                   (handleAnalyzeBeats (Scenario.analysed (num := Q)))) = 0%Q.
Proof.
  destruct (analysed_beats_form_a_partition (Scenario.analysed (num := Q)))
    as (Hvalid & _ & _ & Hlast & Hfirst).
  split; [exact Hvalid|]. split; [apply Hlast | apply Hfirst]; discriminate.
Defined.

(* ================================================================== *)
(** * The active beat *)
(* ================================================================== *)

Lemma activeBeat_test (t : Q) (b : Beat Q) :
  ngeb t (startTime b) && nltb t (endTime b) && isEnabled b = true
  <-> (startTime b <= t)%Q /\ (t < endTime b)%Q /\ isEnabled b = true.
Proof.
  unfold ngeb. cbn [nleb nltb QNumber].
  rewrite !andb_true_iff, Qle_bool_iff, Qltb_lt. tauto.
Qed.

Lemma find_first {A : Type} (test : A -> bool) (l : list A) (b : A) :
  find test l = Some b
  <-> exists pre post,
        l = pre ++ b :: post /\ test b = true
        /\ Forall (fun c => test c = false) pre.
Proof.
  split.
  - induction l as [|a l IH]; [discriminate|]. cbn [find].
    destruct (test a) eqn:Ea.
    + intros E. injection E as <-. exists [], l.
      split; [reflexivity|]. split; [exact Ea | constructor].
    + intros E. destruct (IH E) as (pre & post & -> & Hb & Hpre).
      exists (a :: pre), post. split; [reflexivity|].
      split; [exact Hb | constructor; assumption].
  - intros (pre & post & -> & Hb & Hpre).
    induction Hpre as [|c pre Hc _ IH]; cbn [app find].
    + rewrite Hb. reflexivity.
    + rewrite Hc. exact IH.
Qed.

(** The beat the renderer (and the preview) takes as active at a time is
    the first enabled beat of the list whose interval holds that time,
    whatever the arithmetic: it is active exactly when no beat before it in
    the list passes the test.  In exact arithmetic the test reads
    startTime <= time < endTime; there is no active beat exactly when no
    enabled beat holds the time; and in a list free of overlaps no other
    beat, enabled or not, holds that time. *)
Theorem active_beat_is_the_enabled_beat_at_that_time :
  (forall (num : Type) (N : Number num) (t : num) (beats : list (Beat num))
          (b : Beat num),
      activeBeat t beats = Some b
      <-> exists pre post,
            beats = pre ++ b :: post
            /\ ngeb t (startTime b) && nltb t (endTime b) && isEnabled b = true
            /\ Forall (fun c => ngeb t (startTime c) && nltb t (endTime c)
                                 && isEnabled c = false) pre)
  /\ (forall (t : Q) (beats : list (Beat Q)),
        (forall pre b post,
            beats = pre ++ b :: post ->
            isEnabled b = true -> (startTime b <= t)%Q -> (t < endTime b)%Q ->
            Forall (fun c => ~ (isEnabled c = true
                                /\ (startTime c <= t)%Q /\ (t < endTime c)%Q)) pre ->
            activeBeat t beats = Some b)
        /\ (forall b, activeBeat t beats = Some b ->
                      In b beats /\ isEnabled b = true
                      /\ (startTime b <= t)%Q /\ (t < endTime b)%Q
                      /\ exists pre post,
                           beats = pre ++ b :: post
                           /\ Forall (fun c => ~ (isEnabled c = true
                                                  /\ (startTime c <= t)%Q
                                                  /\ (t < endTime c)%Q)) pre)
        /\ (activeBeat t beats = None ->
            forall b, In b beats -> isEnabled b = true ->
                      ~ ((startTime b <= t)%Q /\ (t < endTime b)%Q))
        /\ (forall b, activeBeat t beats = Some b ->
                      nonOverlapping beats ->
                      forall b', In b' beats ->
                                 (startTime b' <= t)%Q -> (t < endTime b')%Q -> b' = b)).
Proof.
  split.
  { intros num N t beats b.
    exact (find_first (fun c => ngeb t (startTime c) && nltb t (endTime c)
                                && isEnabled c) beats b). }
  intros t beats.
  assert (Hfirst : forall b,
             activeBeat t beats = Some b
             <-> exists pre post,
                   beats = pre ++ b :: post
                   /\ ngeb t (startTime b) && nltb t (endTime b) && isEnabled b = true
                   /\ Forall (fun c => ngeb t (startTime c) && nltb t (endTime c)
                                        && isEnabled c = false) pre).
  { intros b.
    exact (find_first (fun c => ngeb t (startTime c) && nltb t (endTime c)
                                && isEnabled c) beats b). }
  assert (Hnot : forall c : Beat Q,
             ngeb t (startTime c) && nltb t (endTime c) && isEnabled c = false
             <-> ~ (isEnabled c = true /\ (startTime c <= t)%Q /\ (t < endTime c)%Q)).
  { intros c. rewrite <- not_true_iff_false, activeBeat_test. tauto. }
  assert (H1 : forall l b, activeBeat t l = Some b ->
                 In b l /\ isEnabled b = true
                 /\ (startTime b <= t)%Q /\ (t < endTime b)%Q).
  { intros l b Hfind. unfold activeBeat in Hfind. apply find_some in Hfind.
    destruct Hfind as [Hin Htest]. apply activeBeat_test in Htest. tauto. }
  split; [|split; [|split]].
  - intros pre b post E Hen Hs He Hpre. apply Hfirst.
    exists pre, post. split; [exact E|].
    split; [apply activeBeat_test; tauto|].
    eapply Forall_impl; [|exact Hpre]. intros c Hc. apply Hnot. exact Hc.
  - intros b Hfind. destruct (H1 beats b Hfind) as (Hin & Hen & Hs & He).
    repeat split; try assumption.
    apply Hfirst in Hfind. destruct Hfind as (pre & post & E & _ & Hpre).
    exists pre, post. split; [exact E|].
    eapply Forall_impl; [|exact Hpre]. intros c Hc. apply Hnot. exact Hc.
  - intros Hnone b Hin Hen [Hs He]. unfold activeBeat in Hnone.
    assert (Hf := find_none _ _ Hnone b Hin). cbv beta in Hf.
    assert (Ht : ngeb t (startTime b) && nltb t (endTime b) && isEnabled b = true)
      by (apply activeBeat_test; tauto).
    congruence.
  - clear Hfirst.
    induction beats as [|a l IH]; intros b Hfind Hno b' Hin' Hs' He'; [destruct Hin'|].
    inversion Hno as [|? ? Ha Hl]; subst.
    assert (Hov : forall x y, (startTime x <= t)%Q -> (t < endTime x)%Q ->
                              (startTime y <= t)%Q -> (t < endTime y)%Q -> overlap x y).
    { intros x y Hx1 Hx2 Hy1 Hy2. unfold overlap. split; lra. }
    unfold activeBeat in Hfind. cbn [find] in Hfind.
    destruct (ngeb t (startTime a) && nltb t (endTime a) && isEnabled a) eqn:Ea.
    + injection Hfind as <-. destruct Hin' as [<- | Hin']; [reflexivity|].
      apply activeBeat_test in Ea. exfalso.
      apply (proj1 (Forall_forall _ _) Ha b' Hin'). apply Hov; tauto.
    + fold (activeBeat t l) in Hfind. destruct Hin' as [<- | Hin'].
      * destruct (H1 l b Hfind) as (Hin & _ & Hs & He). exfalso.
        apply (proj1 (Forall_forall _ _) Ha b Hin). apply Hov; tauto.
      * apply (IH b Hfind Hl b' Hin' Hs' He').
Qed.

(** Of two enabled beats over [[0, 10)] the one that comes first in the
    list is active at second 5, also behind a disabled beat that holds the
    time. *)
Lemma active_beat_is_the_enabled_beat_at_that_time_witness :
  activeBeat (5 : Q)
    [Scenario.beat "a" 0 10 "A"; Scenario.splitBeat 50; Scenario.splitBeat 80]
  = Some (Scenario.splitBeat 50).
Proof.
  apply (proj1 (proj2 active_beat_is_the_enabled_beat_at_that_time 5%Q
                  [Scenario.beat "a" 0 10 "A"; Scenario.splitBeat (num := Q) 50;
                   Scenario.splitBeat 80])
               [Scenario.beat "a" 0 10 "A"] (Scenario.splitBeat 50)
               [Scenario.splitBeat 80]).
  - reflexivity.
  - reflexivity.
  - discriminate.
  - reflexivity.
  - constructor; [|constructor]. intros (Hen & _). discriminate Hen.
Defined.

Lemma find_app_skip {A : Type} (p : A -> bool) (l l' : list A) :
  Forall (fun a => p a = false) l -> find p (l ++ l') = find p l'.
Proof.
  induction 1 as [|a l Ha _ IH]; simpl; [reflexivity|]. rewrite Ha. exact IH.
Qed.

(** In a tiling of [[a, c)] by enabled beats, the time [t] of [[a, c)] has
    its active beat among them. *)
Lemma activeBeat_in_chain (t : Q) (l rest : list (Beat Q)) (a c : Q) :
  chain a l c -> (a <= t)%Q -> (t < c)%Q ->
  Forall (fun b => isEnabled b = true) l ->
  exists b, In b l /\ activeBeat t (l ++ rest) = Some b.
Proof.
  revert a; induction l as [|b l IH]; intros a Hc Ha Ht Hen.
  - simpl in Hc. exfalso. lra.
  - destruct Hc as (Hs & Hw & Hc). inversion Hen as [|? ? Hb Hen']; subst.
    destruct (Qlt_le_dec t (endTime b)) as [Hlt | Hge].
    + exists b. split; [left; reflexivity|].
      unfold activeBeat. cbn [app find].
      assert (Htest : ngeb t (startTime b) && nltb t (endTime b) && isEnabled b = true)
        by (apply activeBeat_test; repeat split; [lra | exact Hlt | exact Hb]).
      rewrite Htest. reflexivity.
    + destruct (IH (endTime b) Hc Hge Ht Hen') as (x & Hin & Hx).
      exists x. split; [right; exact Hin|].
      unfold activeBeat. cbn [app find].
      destruct (ngeb t (startTime b) && nltb t (endTime b) && isEnabled b) eqn:E.
      * apply activeBeat_test in E. exfalso. lra.
      * exact Hx.
Qed.

(** After a split of a beat of a valid list, in exact arithmetic, every
    time of the interval of that beat has one of the children as its active
    beat, also when the beat that was split was disabled. *)
Theorem split_children_are_active_over_the_interval :
  forall (dateNow : Z -> Z) (beatId : JSString.jsstring) (s e : Z)
         (pre post : list (Beat Q)) (b : Beat Q) (t : Q),
    valid (pre ++ b :: post) ->
    id b = beatId ->
    Forall (fun c => id c <> beatId) pre ->
    (0 <= s < e)%Z ->
    (e <= JSString.length (textSegment b))%Z ->
    (startTime b <= t)%Q -> (t < endTime b)%Q ->
    exists child,
      In child (splitChildren dateNow b s e)
      /\ activeBeat t (beatsAfter (pre ++ b :: post)
                         (handleSplitBeat dateNow beatId s e (pre ++ b :: post)))
         = Some child.
Proof.
  intros dateNow beatId s e pre post b t Hv Hid Hpre Hs He Hts Hte.
  rewrite handleSplitBeat_at by assumption. cbn [beatsAfter].
  destruct (valid_tiles _ Hv) as (t0 & t' & Hc); [destruct pre; discriminate|].
  apply chain_app in Hc as (m & Hcpre & Hsb & Hw & Hcpost).
  assert (Hskip : Forall (fun c => ngeb t (startTime c) && nltb t (endTime c)
                                   && isEnabled c = false) pre).
  { eapply Forall_impl; [|exact (chain_bounds _ _ _ Hcpre)]. cbv beta.
    intros c [_ Hc].
    destruct (ngeb t (startTime c) && nltb t (endTime c) && isEnabled c) eqn:E;
      [|reflexivity].
    apply activeBeat_test in E. exfalso. lra. }
  unfold activeBeat at 1. rewrite find_app_skip by exact Hskip.
  fold (activeBeat t (splitChildren dateNow b s e ++ post)).
  apply (activeBeat_in_chain t (splitChildren dateNow b s e) post
           (startTime b) (endTime b)); try assumption.
  - apply splitChildren_chain; assumption.
  - unfold splitChildren.
    apply (Forall2_right _ (splitParts (textSegment b) s e)).
    eapply Forall2_impl; [|apply splitLoop_fields]. simpl. tauto.
Qed.

(** The ten-second sample beat is disabled; split at (3, 6), the time 4 has
    a child as its active beat. *)
Lemma split_children_are_active_over_the_interval_witness :
  isEnabled (Scenario.tenSeconds (num := Q)) = false
  /\ exists child,
       In child (splitChildren Scenario.clock (Scenario.tenSeconds (num := Q)) 3 6)
       /\ activeBeat 4%Q
            (beatsAfter ([] ++ Scenario.tenSeconds :: [])
               (handleSplitBeat Scenario.clock (JSString.lit "beat-1-0") 3 6
                  ([] ++ Scenario.tenSeconds (num := Q) :: [])))
          = Some child.
Proof.
  split; [reflexivity|].
  apply (split_children_are_active_over_the_interval Scenario.clock
           (JSString.lit "beat-1-0") 3%Z 6%Z [] [] Scenario.tenSeconds 4%Q).
  - apply (chain_valid _ 0%Q 10%Q). simpl. repeat split; reflexivity.
  - reflexivity.
  - constructor.
  - lia.
  - vm_compute. discriminate.
  - vm_compute. discriminate.
  - reflexivity.
Defined.

(* ================================================================== *)
(** * Placements: what is drawn where *)
(* ================================================================== *)

Import Compositor.

Lemma Qdiv_cancel (a b : Q) : (0 < b -> a / b * b == a)%Q.
Proof. intros Hb. field. lra. Qed.

Lemma Qdiv_positive (a b : Q) : (0 < a -> 0 < b -> 0 < a / b)%Q.
Proof.
  intros Ha Hb. apply Qlt_shift_div_l; [exact Hb|]. rewrite Qmult_0_l. exact Ha.
Qed.

Lemma div_lt_elim (a b c : Q) : (0 < b -> a / b < c -> a < c * b)%Q.
Proof.
  intros Hb Hlt. rewrite <- (Qdiv_cancel a b Hb) at 1.
  apply Qmult_lt_compat_r; assumption.
Qed.

Lemma div_le_elim (a b c : Q) : (0 < b -> a / b <= c -> a <= c * b)%Q.
Proof.
  intros Hb Hle. rewrite <- (Qdiv_cancel a b Hb) at 1.
  apply Qmult_le_compat_r; [assumption | apply Qlt_le_weak; assumption].
Qed.

Lemma lt_div_elim (a b c : Q) : (0 < b -> c < a / b -> c * b < a)%Q.
Proof.
  intros Hb Hlt. rewrite <- (Qdiv_cancel a b Hb).
  apply Qmult_lt_compat_r; assumption.
Qed.

Lemma le_div_elim (a b c : Q) : (0 < b -> c <= a / b -> c * b <= a)%Q.
Proof.
  intros Hb Hle. rewrite <- (Qdiv_cancel a b Hb).
  apply Qmult_le_compat_r; [assumption | apply Qlt_le_weak; assumption].
Qed.

Lemma Qmult_between (d k : Q) :
  (0 <= d -> 0 <= k -> k <= 1 -> 0 <= d * k /\ d * k <= d)%Q.
Proof.
  intros Hd Hk0 Hk1. split.
  - apply Qmult_le_0_compat; assumption.
  - rewrite <- (Qmult_1_r d) at 2. rewrite !(Qmult_comm d).
    apply Qmult_le_compat_r; assumption.
Qed.

(** Division by the literals 2 and 100 as a product, for [lra]. *)
Ltac literal_quotients :=
  unfold Qdiv in *;
  change (/ 2)%Q with (1 # 2)%Q in *;
  change (/ 100)%Q with (1 # 100)%Q in *.

(** In exact arithmetic, for positive dimensions and a pan between 0 and
    100, the rectangle that the split-mode crop reads lies inside the source
    frame, is not empty, and has the aspect ratio of the band it fills, so
    the A-roll is neither stretched nor read from outside the video. *)
Theorem cover_crop_stays_inside_the_source :
  forall sw sh tw th p : Q,
    (0 < sw)%Q -> (0 < sh)%Q -> (0 < tw)%Q -> (0 < th)%Q ->
    (0 <= p)%Q -> (p <= 100)%Q ->
    (0 <= sX (coverCrop sw sh tw th p))%Q
    /\ (0 <= sY (coverCrop sw sh tw th p))%Q
    /\ (0 < sW (coverCrop sw sh tw th p))%Q
    /\ (0 < sH (coverCrop sw sh tw th p))%Q
    /\ (sX (coverCrop sw sh tw th p) + sW (coverCrop sw sh tw th p) <= sw)%Q
    /\ (sY (coverCrop sw sh tw th p) + sH (coverCrop sw sh tw th p) <= sh)%Q
    /\ (sW (coverCrop sw sh tw th p) / sH (coverCrop sw sh tw th p) == tw / th)%Q.
Proof.
  intros sw sh tw th p Hsw Hsh Htw Hth Hp0 Hp1. unfold coverCrop.
  cbn [ngtb nltb ndiv nmul nsub ofZ QNumber].
  assert (Hq := Qdiv_positive tw th Htw Hth).
  change (inject_Z 0) with 0%Q. change (inject_Z 2) with 2%Q.
  change (inject_Z 100) with 100%Q.
  destruct (Qltb (tw / th) (sw / sh)) eqn:E; cbn [sX sY sW sH].
  - apply Qltb_lt in E. apply lt_div_elim in E; [|exact Hsh].
    assert (Hasp : (sh * (tw / th) / sh == tw / th)%Q) by (field; lra).
    assert (Hpos : (0 < sh * (tw / th))%Q) by (apply Qmult_lt_0_compat; assumption).
    revert E Hasp Hpos Hq. generalize (tw / th)%Q. intros q E Hasp Hpos Hq.
    repeat split; try exact Hasp; clear Hasp; literal_quotients; lra.
  - apply Qltb_ge in E. apply div_le_elim in E; [|exact Hsh].
    assert (HsH : (0 < sw / (tw / th))%Q) by (apply Qdiv_positive; assumption).
    assert (Hle : (sw / (tw / th) <= sh)%Q).
    { apply Qle_shift_div_r; [exact Hq | lra]. }
    assert (Hasp : (sw / (sw / (tw / th)) == tw / th)%Q)
      by (field; repeat split; lra).
    revert HsH Hle Hasp. generalize (sw / (tw / th))%Q. intros h HsH Hle Hasp.
    destruct (Qmult_between (sh - h) (p / 100)) as [H0 H1];
      [lra | literal_quotients; lra | literal_quotients; lra |].
    repeat split; try exact Hasp; clear Hasp; literal_quotients; lra.
Qed.

(** The crop of the 1920x1080 sample source for the 1080x600 band. *)
Lemma cover_crop_stays_inside_the_source_witness :
  (sY (coverCrop 1920 1080 1080 600 50) + sH (coverCrop 1920 1080 1080 600 50)
   <= 1080)%Q
  /\ (sW (coverCrop 1920 1080 1080 600 50) / sH (coverCrop 1920 1080 1080 600 50)
      == 1080 / 600)%Q.
Proof.
  destruct (cover_crop_stays_inside_the_source 1920 1080 1080 600 50)
    as (_ & _ & _ & _ & _ & H1 & H2); try reflexivity; try discriminate.
  split; [exact H1 | exact H2].
Defined.

(** In exact arithmetic, for positive dimensions, [drawContain] draws the
    whole video inside the target rectangle, with its aspect ratio, filling
    the rectangle along one axis and centred along the other. *)
Theorem contain_fit_stays_inside_the_target :
  forall vw vh tx ty tw th : Q,
    (0 < vw)%Q -> (0 < vh)%Q -> (0 < tw)%Q -> (0 < th)%Q ->
    (tx <= dX (drawContain vw vh tx ty tw th))%Q
    /\ (ty <= dY (drawContain vw vh tx ty tw th))%Q
    /\ (dX (drawContain vw vh tx ty tw th) + dW (drawContain vw vh tx ty tw th)
        <= tx + tw)%Q
    /\ (dY (drawContain vw vh tx ty tw th) + dH (drawContain vw vh tx ty tw th)
        <= ty + th)%Q
    /\ (dW (drawContain vw vh tx ty tw th) * vh
        == dH (drawContain vw vh tx ty tw th) * vw)%Q
    /\ ((dW (drawContain vw vh tx ty tw th) == tw)%Q
        \/ (dH (drawContain vw vh tx ty tw th) == th)%Q)
    /\ (dX (drawContain vw vh tx ty tw th) - tx
        == tx + tw - (dX (drawContain vw vh tx ty tw th)
                      + dW (drawContain vw vh tx ty tw th)))%Q
    /\ (dY (drawContain vw vh tx ty tw th) - ty
        == ty + th - (dY (drawContain vw vh tx ty tw th)
                      + dH (drawContain vw vh tx ty tw th)))%Q.
Proof.
  intros vw vh tx ty tw th Hvw Hvh Htw Hth. unfold drawContain.
  cbn [ngtb nltb ndiv nmul nsub nadd ofZ QNumber].
  assert (Hr := Qdiv_positive vw vh Hvw Hvh).
  change (inject_Z 2) with 2%Q.
  destruct (Qltb (tw / th) (vw / vh)) eqn:E; cbn [dX dY dW dH].
  - apply Qltb_lt in E. apply div_lt_elim in E; [|exact Hth].
    assert (Hle : (tw / (vw / vh) <= th)%Q).
    { apply Qle_shift_div_r; [exact Hr | lra]. }
    assert (Hasp : (tw * vh == tw / (vw / vh) * vw)%Q) by (field; split; lra).
    revert Hle Hasp. generalize (tw / (vw / vh))%Q. intros g Hle Hasp.
    repeat split; try exact Hasp; try (left; reflexivity); clear Hasp;
      literal_quotients; lra.
  - apply Qltb_ge in E. apply le_div_elim in E; [|exact Hth].
    assert (Hasp : (th * (vw / vh) * vh == th * vw)%Q) by (field; lra).
    revert E Hasp Hr. generalize (vw / vh)%Q. intros r E Hasp Hr.
    repeat split; try exact Hasp; try (right; reflexivity); clear Hasp;
      literal_quotients; lra.
Qed.

(** A 1920x1080 video in the 1080x1920 portrait frame. *)
Lemma contain_fit_stays_inside_the_target_witness :
  (dY (drawContain 1920 1080 0 0 1080 1920) + dH (drawContain 1920 1080 0 0 1080 1920)
   <= 0 + 1920)%Q
  /\ (dW (drawContain 1920 1080 0 0 1080 1920) * 1080
      == dH (drawContain 1920 1080 0 0 1080 1920) * 1920)%Q.
Proof.
  destruct (contain_fit_stays_inside_the_target 1920 1080 0 0 1080 1920)
    as (_ & _ & _ & H1 & H2 & _); try reflexivity.
  split; [exact H1 | exact H2].
Defined.

(** The size the B-roll image is drawn at is at least the size of its area. *)
Lemma overlay_size_bounds (iw ih aw ah : Q) :
  (0 < iw)%Q -> (0 < ih)%Q -> (0 < aw)%Q -> (0 < ah)%Q ->
  (aw <= fst (overlaySize iw ih aw ah))%Q /\ (ah <= snd (overlaySize iw ih aw ah))%Q.
Proof.
  intros Hiw Hih Haw Hah. unfold overlaySize.
  cbn [ngtb nltb ndiv nmul QNumber].
  assert (Hr := Qdiv_positive iw ih Hiw Hih).
  destruct (Qltb (aw / ah) (iw / ih)) eqn:E.
  - apply Qltb_lt in E. apply div_lt_elim in E; [|exact Hah].
    destruct (Qltb (ah * (iw / ih)) aw) eqn:E'; cbn [fst snd].
    + split; [apply Qle_refl|]. apply Qltb_lt in E'.
      revert E E'. generalize (iw / ih)%Q. intros r E E'. lra.
    + split; [|apply Qle_refl]. apply Qltb_ge in E'. exact E'.
  - apply Qltb_ge in E. apply le_div_elim in E; [|exact Hah].
    destruct (Qltb (aw / (iw / ih)) ah) eqn:E'; cbn [fst snd].
    + split; [|apply Qle_refl]. apply Qltb_lt in E'.
      apply div_lt_elim in E'; [|exact Hr].
      revert E E'. generalize (iw / ih)%Q. intros r E E'. lra.
    + split; [apply Qle_refl|]. apply Qltb_ge in E'. exact E'.
Qed.

(** In exact arithmetic, for positive dimensions, the B-roll image is drawn
    at a size that covers its area and keeps the aspect ratio of the image,
    matching the area along one axis; the two corrections inside the
    branches are never taken. *)
Theorem overlay_size_covers_the_area :
  forall iw ih aw ah : Q,
    (0 < iw)%Q -> (0 < ih)%Q -> (0 < aw)%Q -> (0 < ah)%Q ->
    overlaySize iw ih aw ah
    = (if Qltb (aw / ah) (iw / ih) then (ah * (iw / ih), ah)
       else (aw, aw / (iw / ih)))%Q
    /\ (aw <= fst (overlaySize iw ih aw ah))%Q
    /\ (ah <= snd (overlaySize iw ih aw ah))%Q
    /\ (fst (overlaySize iw ih aw ah) * ih == snd (overlaySize iw ih aw ah) * iw)%Q
    /\ ((fst (overlaySize iw ih aw ah) == aw)%Q
        \/ (snd (overlaySize iw ih aw ah) == ah)%Q).
Proof.
  intros iw ih aw ah Hiw Hih Haw Hah. unfold overlaySize.
  cbn [ngtb nltb ndiv nmul QNumber].
  assert (Hr := Qdiv_positive iw ih Hiw Hih).
  destruct (Qltb (aw / ah) (iw / ih)) eqn:E.
  - apply Qltb_lt in E. apply div_lt_elim in E; [|exact Hah].
    assert (Hasp : (ah * (iw / ih) * ih == ah * iw)%Q) by (field; lra).
    assert (Hno : Qltb (ah * (iw / ih)) aw = false).
    { apply Qltb_ge. revert E. generalize (iw / ih)%Q. intros r E. lra. }
    rewrite Hno. cbn [fst snd]. split; [reflexivity|].
    revert E Hasp Hr. generalize (iw / ih)%Q. intros r E Hasp Hr.
    repeat split; try exact Hasp; try (right; reflexivity); clear Hasp; lra.
  - apply Qltb_ge in E. apply le_div_elim in E; [|exact Hah].
    assert (Hle : (ah <= aw / (iw / ih))%Q).
    { apply Qle_shift_div_l; [exact Hr | lra]. }
    assert (Hasp : (aw * ih == aw / (iw / ih) * iw)%Q) by (field; split; lra).
    assert (Hno : Qltb (aw / (iw / ih)) ah = false) by (apply Qltb_ge; exact Hle).
    rewrite Hno. cbn [fst snd]. split; [reflexivity|].
    revert Hle Hasp. generalize (aw / (iw / ih))%Q. intros g Hle Hasp.
    repeat split; try exact Hasp; try (left; reflexivity); clear Hasp; lra.
Qed.

(** A 1024x1024 image for the 1080x1320 band of a portrait split. *)
Lemma overlay_size_covers_the_area_witness :
  (1080 <= fst (overlaySize 1024 1024 1080 1320))%Q
  /\ (1320 <= snd (overlaySize 1024 1024 1080 1320))%Q.
Proof.
  destruct (overlay_size_covers_the_area 1024 1024 1080 1320)
    as (_ & H1 & H2 & _); try reflexivity.
  split; [exact H1 | exact H2].
Defined.

(** In exact arithmetic, with no shift and a scale of at least 1, the
    rectangle the B-roll image lands on contains its whole area, and is
    centred on it: no part of the area is left without image. *)
Theorem unshifted_overlay_fills_the_area :
  forall (settings : BRollSettings Q) (iw ih aw ah : Q),
    (0 < iw)%Q -> (0 < ih)%Q -> (0 < aw)%Q -> (0 < ah)%Q ->
    (x settings == 0)%Q -> (y settings == 0)%Q -> (1 <= scale settings)%Q ->
    (dX (overlayDest settings iw ih aw ah) <= 0)%Q
    /\ (dY (overlayDest settings iw ih aw ah) <= 0)%Q
    /\ (aw <= dX (overlayDest settings iw ih aw ah)
              + dW (overlayDest settings iw ih aw ah))%Q
    /\ (ah <= dY (overlayDest settings iw ih aw ah)
              + dH (overlayDest settings iw ih aw ah))%Q
    /\ (dX (overlayDest settings iw ih aw ah)
        + dW (overlayDest settings iw ih aw ah) * (1 # 2) == aw * (1 # 2))%Q
    /\ (dY (overlayDest settings iw ih aw ah)
        + dH (overlayDest settings iw ih aw ah) * (1 # 2) == ah * (1 # 2))%Q.
Proof.
  intros settings iw ih aw ah Hiw Hih Haw Hah Hx Hy Hs.
  destruct (overlay_size_bounds iw ih aw ah Hiw Hih Haw Hah) as [Hw Hh].
  unfold overlayDest. cbn [dX dY dW dH nadd nsub nmul ndiv ofZ QNumber].
  change (inject_Z 0) with 0%Q. change (inject_Z 2) with 2%Q.
  change (inject_Z 100) with 100%Q. change (inject_Z (-1)) with (-1)%Q.
  revert Hw Hh. generalize (fst (overlaySize iw ih aw ah)).
  generalize (snd (overlaySize iw ih aw ah)). intros rh rw Hw Hh.
  assert (Hsw : (rw <= scale settings * rw)%Q).
  { rewrite <- (Qmult_1_l rw) at 1. apply Qmult_le_compat_r; lra. }
  assert (Hsh : (rh <= scale settings * rh)%Q).
  { rewrite <- (Qmult_1_l rh) at 1. apply Qmult_le_compat_r; lra. }
  revert Hsw Hsh. generalize (scale settings). intros sc Hsw Hsh.
  rewrite Hx, Hy. literal_quotients. repeat split; try lra; ring.
Qed.

(** The default settings of a split child, a 1024x1024 image and the
    1080x1320 band. *)
Lemma unshifted_overlay_fills_the_area_witness :
  (dX (overlayDest (defaultSplitSettings (num := Q)) 1024 1024 1080 1320) <= 0)%Q
  /\ (1080 <= dX (overlayDest (defaultSplitSettings (num := Q)) 1024 1024 1080 1320)
              + dW (overlayDest (defaultSplitSettings (num := Q)) 1024 1024 1080 1320))%Q.
Proof.
  destruct (unshifted_overlay_fills_the_area (defaultSplitSettings (num := Q))
              1024 1024 1080 1320) as (H1 & _ & H2 & _);
    try reflexivity; try discriminate.
  split; [exact H1 | exact H2].
Defined.

(* ================================================================== *)
(** * The percentage the export handler shows *)
(* ================================================================== *)

Lemma frameProgress_bounds (v : Video) :
  (0 <= currentTime v)%Q -> (0 < duration v)%Q ->
  (0 <= frameProgress v)%Q /\ (frameProgress v <= 99 # 100)%Q.
Proof.
  intros Ht Hd. rewrite frameProgress_Qmin. split.
  - apply Q.min_glb; [discriminate|].
    apply Qle_shift_div_l; [exact Hd|]. rewrite Qmult_0_l. exact Ht.
  - apply Q.le_min_l.
Qed.

Lemma Qround_mono (p q : Q) : (p <= q)%Q -> (Qround p <= Qround q)%Z.
Proof.
  intros Hpq. unfold Qround. apply Qfloor_resp_le. lra.
Qed.

Lemma exportPercent_exact (p : Q) :
  exportPercent p = inject_Z (Qround (p * 100)).
Proof. reflexivity. Qed.

Lemma exportPercent_bounds (p : Q) :
  (0 <= p)%Q -> (p <= 99 # 100)%Q -> (0 <= Qround (p * 100) <= 99)%Z.
Proof.
  intros H0 H1. split.
  - change 0%Z with (Qround (0 * 100)). apply Qround_mono. lra.
  - change 99%Z with (Qround ((99 # 100) * 100)). apply Qround_mono. lra.
Qed.

(** What the export handler shows, [Math.round(p * 100)] of each reported
    value, in exact arithmetic: over the frames of a playback whose clock
    starts at or after 0, the percentages shown before the end-of-media
    event are whole numbers between 0 and 99 that never decrease, and the
    end-of-media event shows 100, after which nothing more is shown for
    that export.  The binary64 product can fall below the exact one, and
    the number shown is then one less: at 5.75 of 10 seconds the handler
    shows 57 where the exact value is 58. *)
Theorem export_shows_100_only_at_the_end :
  (forall (d : Q) (frames : list Video) (later : list Event),
      playback d frames ->
      Forall (fun v => (0 <= currentTime v)%Q) frames ->
      exists percents : list Z,
        List.map exportPercent (reported (run (List.map Frame frames) started))
        = List.map inject_Z percents
        /\ Forall (fun z => (0 <= z <= 99)%Z) percents
        /\ adjacent Z.le percents
        /\ List.map exportPercent
             (reported (run (List.map Frame frames ++ Ended :: later) started))
           = List.map inject_Z (percents ++ [100%Z]))
  /\ List.map (fun p => Qred (exportPercent p))
       (reported (run [Frame (Scenario.hdVideoAt (num := Q) 23)] started))
     = [58%Q]
  /\ List.map exportPercent
       (reported (run [Frame (Scenario.hdVideoAt (num := float) 23)] started))
     = [57%float].
Proof.
  split; [|split; vm_compute; reflexivity].
  intros d frames later [Hdur Hclock] Hpos.
  assert (Hrun := run_frames frames started eq_refl).
  cbn [reported started app] in Hrun.
  assert (Hgood : forall v, In v (filter reports frames) ->
                            duration v = d /\ (0 < d)%Q /\ (0 <= currentTime v)%Q).
  { intros v Hv. apply filter_In in Hv as [Hin Hrep].
    assert (Ed := proj1 (Forall_forall _ _) Hdur v Hin).
    split; [exact Ed|]. split; [|exact (proj1 (Forall_forall _ _) Hpos v Hin)].
    unfold reports in Hrep.
    apply andb_true_iff in Hrep as [_ Hrep]. apply Qltb_lt in Hrep.
    rewrite Ed in Hrep. exact Hrep. }
  exists (List.map (fun v => Qround (frameProgress v * 100)) (filter reports frames)).
  split; [|split; [|split]].
  - rewrite Hrun. cbn [reported]. rewrite !map_map. reflexivity.
  - apply Forall_map. apply Forall_forall. intros v Hv.
    destruct (Hgood v Hv) as (Ed & Hd & Ht).
    destruct (frameProgress_bounds v Ht) as [H0 H1]; [rewrite Ed; exact Hd|].
    apply exportPercent_bounds; assumption.
  - apply adjacent_map.
    apply (adjacent_impl (fun u v => (currentTime u <= currentTime v)%Q)).
    + intros u v Hu Hv Huv. destruct (Hgood u Hu) as (Eu & _ & _).
      destruct (Hgood v Hv) as (Ev & Hd & _).
      apply Qround_mono. apply Qmult_le_compat_r; [|discriminate].
      apply frameProgress_mono; [congruence | rewrite Ev; exact Hd | exact Huv].
    + apply adjacent_filter; [|exact Hclock].
      intros a b c. apply Qle_trans.
  - rewrite run_app, Hrun, run_cons. cbn [step]. unfold onended.
    cbn [recorder isInactive negb reported].
    rewrite run_inactive by reflexivity. cbn [reported].
    rewrite !map_app, !map_map. reflexivity.
Qed.

(** The ten-second sample playback seen at 0, 5 and 10 seconds shows 0, 50
    and 99 per cent, and 100 at the end-of-media event. *)
Lemma export_shows_100_only_at_the_end_witness :
  exists percents : list Z,
    List.map exportPercent
      (reported (run (List.map Frame [Scenario.hdVideo (num := Q) 0; Scenario.hdVideo 5;
                                      Scenario.hdVideo 10]) started))
    = List.map inject_Z percents
    /\ Forall (fun z => (0 <= z <= 99)%Z) percents
    /\ adjacent Z.le percents
    /\ List.map exportPercent
         (reported (run (List.map Frame [Scenario.hdVideo (num := Q) 0;
                                         Scenario.hdVideo 5; Scenario.hdVideo 10]
                         ++ Ended :: [Frame (Scenario.hdVideo 10)]) started))
       = List.map inject_Z (percents ++ [100%Z]).
Proof.
  apply (proj1 export_shows_100_only_at_the_end 10
           [Scenario.hdVideo (num := Q) 0; Scenario.hdVideo 5; Scenario.hdVideo 10]
           [Frame (Scenario.hdVideo 10)]).
  - split.
    + repeat constructor.
    + simpl. repeat split; discriminate.
  - repeat constructor; discriminate.
Defined.

(* ================================================================== *)
(** * The bytes of a WAV file *)
(* ================================================================== *)

Import WavFile WavLayout.

Lemma skipn_past {A : Type} (pre l : list A) (k : nat) :
  skipn (List.length pre + k) (pre ++ l) = skipn k l.
Proof. induction pre as [|a pre IH]; simpl; [reflexivity | exact IH]. Qed.

Lemma skipn_repeat {A : Type} (a : A) (k n : nat) :
  skipn k (repeat a (k + n)) = repeat a n.
Proof. induction k as [|k IH]; simpl; [reflexivity | exact IH]. Qed.

Lemma store_next (pre bytes : list Z) (n : nat) :
  store (pre ++ repeat 0%Z (List.length bytes + n)) (Z.of_nat (List.length pre)) bytes
  = Some ((pre ++ bytes) ++ repeat 0%Z n).
Proof.
  unfold store.
  destruct (Z.ltb_spec (Z.of_nat (List.length pre)) 0); [lia|].
  rewrite length_app, repeat_length.
  destruct (Z.ltb_spec (Z.of_nat (List.length pre + (List.length bytes + n)))
              (Z.of_nat (List.length pre) + Z.of_nat (List.length bytes))); [lia|].
  simpl orb. cbv iota. rewrite Nat2Z.id, firstn_pre.
  rewrite skipn_past, skipn_repeat, <- app_assoc. reflexivity.
Qed.

Lemma setUint32_next (v : Z) (pre : list Z) (n : nat) :
  setUint32 v (pre ++ repeat 0%Z (4 + n), Z.of_nat (List.length pre))
  = Some ((pre ++ le32 v) ++ repeat 0%Z n, Z.of_nat (List.length (pre ++ le32 v))).
Proof.
  unfold setUint32. cbn [fst snd].
  change (repeat 0%Z (4 + n)) with (repeat 0%Z (List.length (le32 v) + n)).
  rewrite (store_next pre (le32 v) n). rewrite length_app. simpl List.length.
  f_equal. f_equal. lia.
Qed.

Lemma setUint16_next (v : Z) (pre : list Z) (n : nat) :
  setUint16 v (pre ++ repeat 0%Z (2 + n), Z.of_nat (List.length pre))
  = Some ((pre ++ le16 v) ++ repeat 0%Z n, Z.of_nat (List.length (pre ++ le16 v))).
Proof.
  unfold setUint16. cbn [fst snd].
  change (repeat 0%Z (2 + n)) with (repeat 0%Z (List.length (le16 v) + n)).
  rewrite (store_next pre (le16 v) n). rewrite length_app. simpl List.length.
  f_equal. f_equal. lia.
Qed.

Lemma wavHeader_length (numOfChan rate byteRate fileLength : Z) :
  List.length (wavHeader numOfChan rate byteRate fileLength) = 44%nat.
Proof. reflexivity. Qed.

(** The header writes fill the first 44 bytes and leave [pos] at 44. *)
Lemma headerWrites_result {num : Type} `{Number num} (buffer : AudioBuffer)
    (n : nat) :
  inOrder (headerWrites buffer (Z.of_nat (44 + n)))
          (repeat 0%Z (44 + n), 0%Z)
  = Some (wavHeader (Z.of_nat (numberOfChannels buffer))
            (toInt32 (sampleRate buffer))
            (toInt32 (nmul (nmul (sampleRate buffer) (ofZ 2))
                           (ofZ (Z.of_nat (numberOfChannels buffer)))))
            (Z.of_nat (44 + n))
          ++ repeat 0%Z n, 44%Z).
Proof.
  unfold headerWrites. cbv zeta.
  set (L := Z.of_nat (44 + n)).
  set (c := Z.of_nat (numberOfChannels buffer)).
  set (r := toInt32 (sampleRate buffer)).
  set (br := toInt32 (nmul (nmul (sampleRate buffer) (ofZ 2)) (ofZ c))).
  cbn [inOrder].
  change (repeat 0%Z (44 + n), 0%Z)
    with ([] ++ repeat 0%Z (4 + (40 + n)), Z.of_nat (List.length (@nil Z))).
  rewrite (setUint32_next 1179011410 _ (40 + n)).
  change (40 + n)%nat with (4 + (36 + n))%nat.
  rewrite (setUint32_next (L - 8) _ (36 + n)).
  change (36 + n)%nat with (4 + (32 + n))%nat.
  rewrite (setUint32_next 1163280727 _ (32 + n)).
  change (32 + n)%nat with (4 + (28 + n))%nat.
  rewrite (setUint32_next 544501094 _ (28 + n)).
  change (28 + n)%nat with (4 + (24 + n))%nat.
  rewrite (setUint32_next 16 _ (24 + n)).
  change (24 + n)%nat with (2 + (22 + n))%nat.
  rewrite (setUint16_next 1 _ (22 + n)).
  change (22 + n)%nat with (2 + (20 + n))%nat.
  rewrite (setUint16_next c _ (20 + n)).
  change (20 + n)%nat with (4 + (16 + n))%nat.
  rewrite (setUint32_next r _ (16 + n)).
  change (16 + n)%nat with (4 + (12 + n))%nat.
  rewrite (setUint32_next br _ (12 + n)).
  change (12 + n)%nat with (2 + (10 + n))%nat.
  rewrite (setUint16_next (c * 2) _ (10 + n)).
  change (10 + n)%nat with (2 + (8 + n))%nat.
  rewrite (setUint16_next 16 _ (8 + n)).
  change (8 + n)%nat with (4 + (4 + n))%nat.
  rewrite (setUint32_next 1635017060 _ (4 + n)).
  cbn [snd]. change (4 + n)%nat with (4 + (0 + n))%nat.
  rewrite (setUint32_next _ _ (0 + n)).
  f_equal. apply f_equal2; [|reflexivity].
  match goal with
  | |- context [(L - Z.of_nat (List.length ?l) - 4)%Z] =>
      change (Z.of_nat (List.length l)) with 40%Z
  end.
  replace (L - 40 - 4)%Z with (L - 44)%Z by lia.
  unfold wavHeader. rewrite <- !app_assoc. reflexivity.
Qed.

Lemma writeSamples_next (samples pre : list Z) (n : nat) (offset : Z) :
  (44 + offset = Z.of_nat (List.length pre))%Z ->
  writeSamples samples
    (pre ++ repeat 0%Z (List.length (flat_map le16 samples) + n), offset)
  = Some ((pre ++ flat_map le16 samples) ++ repeat 0%Z n,
          (offset + Z.of_nat (List.length (flat_map le16 samples)))%Z).
Proof.
  revert pre offset; induction samples as [|v samples IH]; intros pre offset Hoff.
  - simpl. rewrite app_nil_r, Z.add_0_r. reflexivity.
  - cbn [writeSamples fst snd flat_map]. rewrite Hoff.
    change (List.length (le16 v ++ flat_map le16 samples) + n)%nat
      with (List.length (le16 v) + (List.length (flat_map le16 samples) + n))%nat.
    rewrite store_next.
    rewrite (IH (pre ++ le16 v) (offset + 2)%Z)
      by (rewrite length_app; simpl List.length; lia).
    rewrite <- !app_assoc. f_equal. f_equal.
    rewrite length_app. simpl List.length. lia.
Qed.

Lemma encodeFrame_length {num : Type} `{Number num} (channelData : list (list num))
    (pos : nat) :
  List.length (AudioUtils.encodeFrame channelData pos) = List.length channelData.
Proof. unfold AudioUtils.encodeFrame. apply length_map. Qed.

Lemma le16_bytes (samples : list Z) :
  List.length (flat_map le16 samples) = (2 * List.length samples)%nat.
Proof.
  induction samples as [|v samples IH]; [reflexivity|].
  cbn [flat_map]. rewrite length_app, IH. simpl List.length. lia.
Qed.

Lemma encodeFrames_length {num : Type} `{Number num} (channelData : list (list num))
    (fuel pos : nat) :
  List.length (AudioUtils.encodeFrames channelData fuel pos)
  = (List.length channelData * fuel)%nat.
Proof.
  revert pos; induction fuel as [|fuel IH]; intros pos; cbn [AudioUtils.encodeFrames].
  - simpl. lia.
  - rewrite length_app, IH, encodeFrame_length. lia.
Qed.

Lemma encodeFrames_bytes {num : Type} `{Number num} (channelData : list (list num))
    (fuel pos : nat) :
  List.length (flat_map le16 (AudioUtils.encodeFrames channelData fuel pos))
  = (2 * List.length channelData * fuel)%nat.
Proof. rewrite le16_bytes, encodeFrames_length. lia. Qed.

Lemma writeFrames_next {num : Type} `{Number num} (channelData : list (list num))
    (fuel pos : nat) (pre : list Z) (n : nat) (offset : Z) :
  (44 + offset = Z.of_nat (List.length pre))%Z ->
  exists offset',
    writeFrames channelData fuel pos
      (pre ++ repeat 0%Z
                (List.length (flat_map le16
                                (AudioUtils.encodeFrames channelData fuel pos)) + n),
       offset)
    = Some ((pre ++ flat_map le16 (AudioUtils.encodeFrames channelData fuel pos))
            ++ repeat 0%Z n, offset').
Proof.
  revert pos pre offset; induction fuel as [|fuel IH]; intros pos pre offset Hoff.
  - exists offset. simpl. rewrite app_nil_r. reflexivity.
  - cbn [writeFrames AudioUtils.encodeFrames]. rewrite flat_map_app, length_app.
    rewrite <- Nat.add_assoc. rewrite (writeSamples_next _ pre _ offset Hoff).
    destruct (IH (S pos)
                (pre ++ flat_map le16 (AudioUtils.encodeFrame channelData pos))
                (offset + Z.of_nat
                            (List.length
                               (flat_map le16
                                  (AudioUtils.encodeFrame channelData pos))))%Z)
      as (offset' & E); [rewrite length_app; lia|].
    exists offset'. rewrite E. rewrite <- !app_assoc. reflexivity.
Qed.

(** The bytes [audioBufferToWav] returns: the header, the samples of the
    frames from 44 on, and zero bytes up to the size of the file. *)
Lemma audioBufferToWav_layout {num : Type} `{Number num} (buffer : AudioBuffer) :
  audioBufferToWav buffer
  = Some (wavHeader (Z.of_nat (numberOfChannels buffer))
            (toInt32 (sampleRate buffer))
            (toInt32 (nmul (nmul (sampleRate buffer) (ofZ 2))
                           (ofZ (Z.of_nat (numberOfChannels buffer)))))
            (Z.of_nat (44 + 2 * numberOfChannels buffer * length buffer))
          ++ flat_map le16 (AudioUtils.dataSamples (channels buffer) (length buffer))
          ++ repeat 0%Z (2 * numberOfChannels buffer * Nat.min 44 (length buffer))).
Proof.
  unfold audioBufferToWav. cbv zeta.
  set (c := numberOfChannels buffer). set (L := length buffer).
  replace (Z.of_nat L * Z.of_nat c * 2 + 44)%Z with (Z.of_nat (44 + 2 * c * L)) by lia.
  rewrite Nat2Z.id, headerWrites_result. fold c.
  change (Z.to_nat 44) with 44%nat.
  set (hdr := wavHeader _ _ _ _).
  assert (Hbytes := encodeFrames_bytes (channels buffer) (L - 44) 44).
  fold c in Hbytes.
  replace (2 * c * L)%nat
    with (List.length (flat_map le16
                         (AudioUtils.encodeFrames (channels buffer) (L - 44) 44))
          + 2 * c * Nat.min 44 L)%nat
    by (rewrite Hbytes, <- Nat.mul_add_distr_l; f_equal; lia).
  destruct (writeFrames_next (channels buffer) (L - 44) 44 hdr
              (2 * c * Nat.min 44 L) 0) as (offset' & E); [reflexivity|].
  rewrite E. rewrite <- app_assoc. reflexivity.
Qed.

Lemma some_eq {A : Type} (a b : A) : Some a = Some b -> a = b.
Proof. intros E. congruence. Qed.

Lemma encodeFrames_seq {num : Type} `{Number num} (channelData : list (list num))
    (fuel pos : nat) :
  AudioUtils.encodeFrames channelData fuel pos
  = List.concat (List.map (AudioUtils.encodeFrame channelData) (seq pos fuel)).
Proof.
  revert pos; induction fuel as [|fuel IH]; intros pos; simpl; [reflexivity|].
  rewrite IH. reflexivity.
Qed.

(** [audioBufferToWav] never throws and returns a file of
    44 + 2 * channels * frames bytes: a 44-byte header, then the 16-bit
    samples of the frames 44, 45, ... of the buffer, channel by channel
    within a frame, and zero bytes for the rest.  The first 44 frames of the
    buffer are not in the file, and a buffer of at most 44 frames gives a
    file without any sample. *)
Theorem wav_file_holds_the_frames_from_44_on :
  forall (num : Type) (N : Number num) (buffer : AudioBuffer (num := num)),
    exists header,
      List.length header = 44%nat
      /\ audioBufferToWav buffer
         = Some (header
                 ++ flat_map le16
                      (List.concat
                         (List.map (AudioUtils.encodeFrame (channels buffer))
                                   (seq 44 (length buffer - 44))))
                 ++ repeat 0%Z (2 * numberOfChannels buffer
                                * Nat.min 44 (length buffer)))
      /\ (forall bytes, audioBufferToWav buffer = Some bytes ->
                        List.length bytes
                        = (44 + 2 * numberOfChannels buffer * length buffer)%nat)
      /\ ((length buffer <= 44)%nat ->
          audioBufferToWav buffer
          = Some (header ++ repeat 0%Z (2 * numberOfChannels buffer * length buffer))).
Proof.
  intros num N buffer. eexists. split; [|split; [|split]].
  2:{ rewrite audioBufferToWav_layout. unfold AudioUtils.dataSamples.
      rewrite encodeFrames_seq. reflexivity. }
  - apply wavHeader_length.
  - intros bytes Hb. rewrite audioBufferToWav_layout in Hb.
    apply some_eq in Hb. subst bytes.
    rewrite !length_app, wavHeader_length, repeat_length.
    unfold AudioUtils.dataSamples. rewrite encodeFrames_bytes.
    fold (numberOfChannels buffer).
    rewrite <- Nat.mul_add_distr_l. f_equal. f_equal. lia.
  - intros Hle. rewrite audioBufferToWav_layout. unfold AudioUtils.dataSamples.
    replace (length buffer - 44)%nat with 0%nat by lia.
    rewrite Nat.min_r by exact Hle. reflexivity.
Qed.

(** A mono buffer of 30 frames. *)
Lemma wav_file_holds_the_frames_from_44_on_witness :
  exists bytes,
    audioBufferToWav {| sampleRate := 24000%Q; length := 30;
                        channels := [repeat (1 # 2)%Q 30] |} = Some bytes
    /\ skipn 44 bytes = repeat 0%Z 60.
Proof.
  destruct (wav_file_holds_the_frames_from_44_on Q _
              {| sampleRate := 24000%Q; length := 30;
                 channels := [repeat (1 # 2)%Q 30] |})
    as (header & Hlen & _ & _ & Hshort).
  eexists. split.
  - apply Hshort. simpl. lia.
  - change 44%nat with (44 + 0)%nat. rewrite <- Hlen at 1.
    rewrite skipn_past. reflexivity.
Defined.

Lemma fromLe32_le32 (v : Z) : (0 <= v < 4294967296)%Z -> fromLe32 (le32 v) = v.
Proof. intros Hv. unfold fromLe32, le32. Z.div_mod_to_equations. lia. Qed.

(** The header of the file names the format and the sizes: "RIFF", the
    size of the file less 8, "WAVE", "fmt ", a format chunk of 16 bytes for
    PCM (tag 1) with the number of channels, a block of 2 bytes per channel
    and 16 bits per sample, "data", and as the size of the data chunk every
    byte after the header, for a file of less than 2^32 bytes. *)
Theorem wav_header_declares_the_sizes :
  forall (num : Type) (N : Number num) (buffer : AudioBuffer (num := num))
         (bytes : list Z),
    audioBufferToWav buffer = Some bytes ->
    (Z.of_nat (List.length bytes) < 4294967296)%Z ->
    firstn 4 bytes = [82; 73; 70; 70]%Z
    /\ fromLe32 (firstn 4 (skipn 4 bytes)) = (Z.of_nat (List.length bytes) - 8)%Z
    /\ firstn 8 (skipn 8 bytes) = [87; 65; 86; 69; 102; 109; 116; 32]%Z
    /\ firstn 6 (skipn 16 bytes) = [16; 0; 0; 0; 1; 0]%Z
    /\ firstn 2 (skipn 22 bytes) = le16 (Z.of_nat (numberOfChannels buffer))
    /\ firstn 4 (skipn 32 bytes) = le16 (Z.of_nat (numberOfChannels buffer) * 2)
                                   ++ [16; 0]%Z
    /\ firstn 4 (skipn 36 bytes) = [100; 97; 116; 97]%Z
    /\ fromLe32 (firstn 4 (skipn 40 bytes)) = Z.of_nat (List.length (skipn 44 bytes))
    /\ List.length (skipn 44 bytes)
       = (2 * numberOfChannels buffer * length buffer)%nat.
Proof.
  intros num N buffer bytes Hb Hsize.
  assert (Hlen : List.length bytes
                 = (44 + 2 * numberOfChannels buffer * length buffer)%nat).
  { rewrite audioBufferToWav_layout in Hb. apply some_eq in Hb. subst bytes.
    rewrite !length_app, wavHeader_length, repeat_length.
    unfold AudioUtils.dataSamples. rewrite encodeFrames_bytes.
    fold (numberOfChannels buffer).
    rewrite <- Nat.mul_add_distr_l. f_equal. f_equal. lia. }
  rewrite audioBufferToWav_layout in Hb. apply some_eq in Hb.
  set (n := (2 * numberOfChannels buffer * length buffer)%nat) in *.
  rewrite Hlen in Hsize |- *.
  assert (Hskip : List.length (skipn 44 bytes) = n) by (rewrite length_skipn; lia).
  rewrite Hskip. subst bytes. unfold wavHeader.
  cbn [le32 le16 app firstn skipn].
  repeat split.
  - change (fromLe32 (le32 (Z.of_nat (44 + n) - 8)) = (Z.of_nat (44 + n) - 8)%Z).
    apply fromLe32_le32. lia.
  - change (fromLe32 (le32 (Z.of_nat (44 + n) - 44)) = Z.of_nat n).
    rewrite fromLe32_le32 by lia. lia.
Qed.

(** The header of the file of a mono buffer of 100 frames. *)
Lemma wav_header_declares_the_sizes_witness :
  exists bytes,
    audioBufferToWav {| sampleRate := 24000%Q; length := 100;
                        channels := [repeat (1 # 2)%Q 100] |} = Some bytes
    /\ fromLe32 (firstn 4 (skipn 40 bytes)) = Z.of_nat (List.length (skipn 44 bytes))
    /\ List.length (skipn 44 bytes) = 200%nat.
Proof.
  destruct (audioBufferToWav {| sampleRate := 24000%Q; length := 100;
                                channels := [repeat (1 # 2)%Q 100] |})
    as [bytes|] eqn:E; [|vm_compute in E; discriminate E].
  exists bytes. split; [reflexivity|].
  destruct (wav_header_declares_the_sizes Q _ _ bytes E)
    as (_ & _ & _ & _ & _ & _ & _ & H1 & H2).
  - assert (Hl : List.length bytes = 244%nat).
    { vm_compute in E. injection E as <-. reflexivity. }
    rewrite Hl. reflexivity.
  - split; [exact H1 | exact H2].
Defined.

Lemma quot_32767 (v : Z) :
  (-32768 <= v <= 32767)%Z ->
  Z.quot (v * 32767) 32768
  = (if (v =? 0)%Z then 0 else if (0 <? v)%Z then v - 1 else v + 1)%Z.
Proof.
  intros Hv.
  pose proof (Z.quot_rem' (v * 32767) 32768) as Hqr.
  destruct (Z.eqb_spec v 0) as [-> | Hne]; [reflexivity|].
  destruct (Z.ltb_spec 0 v) as [Hpos | Hneg].
  - pose proof (Z.rem_bound_pos (v * 32767) 32768 ltac:(lia) ltac:(lia)). lia.
  - pose proof (Z.rem_bound_pos_neg (v * 32767) 32768 ltac:(lia) ltac:(lia)). lia.
Qed.

Lemma pcmToFloat_fraction (v : Z) : pcmToFloat (num := Q) v = (v # 32768)%Q.
Proof.
  unfold pcmToFloat. cbn [ndiv ofZ QNumber]. unfold Qdiv, Qmult, Qinv, inject_Z.
  cbn [Qnum Qden]. rewrite Z.mul_1_r. reflexivity.
Qed.

Lemma wrap_small (z : Z) :
  (-32768 <= z <= 32767)%Z -> wrap16 (wrap32 z) = z.
Proof.
  intros Hz. unfold wrap16, wrap32.
  rewrite (Z.mod_small (z + 2 ^ 31)) by lia.
  replace (z + 2 ^ 31 - 2 ^ 31 + 2 ^ 15)%Z with (z + 2 ^ 15)%Z by lia.
  rewrite Z.mod_small by lia. lia.
Qed.

Lemma encodeSample_pcmToFloat (v : Z) :
  (-32768 <= v <= 32767)%Z ->
  encodeSample (pcmToFloat (num := Q) v) = requantized v.
Proof.
  intros Hv.
  destruct (Z.eq_dec v (-32768)) as [-> | Hne]; [vm_compute; reflexivity|].
  rewrite pcmToFloat_fraction. unfold encodeSample, clamp.
  cbn [mathMax mathMin ofZ QNumber].
  assert (H1 : Qltb (v # 32768) (inject_Z 1) = true).
  { apply Qltb_lt. unfold Qlt, inject_Z. cbn [Qnum Qden]. lia. }
  rewrite H1.
  assert (H2 : Qltb (inject_Z (-1)) (v # 32768) = true).
  { apply Qltb_lt. unfold Qlt, inject_Z. cbn [Qnum Qden]. lia. }
  rewrite H2. unfold quantize, requantized.
  cbn [toInt32 nltb nadd ndiv nmul ofZ QNumber].
  destruct (Qltb (inject_Z 1 / inject_Z 2 + (v # 32768)) (inject_Z 0)) eqn:Et.
  - apply Qltb_lt in Et. unfold Qlt, Qplus, Qdiv, Qmult, Qinv, inject_Z in Et.
    cbn [Qnum Qden] in Et.
    destruct (Z.ltb_spec v (-16384)) as [Hlt | Hge]; [|exfalso; lia].
    unfold Qtrunc, Qmult, inject_Z. cbn [Qnum Qden].
    rewrite Pos.mul_1_r, Z.quot_mul by discriminate.
    apply wrap_small. lia.
  - apply Qltb_ge in Et. unfold Qle, Qplus, Qdiv, Qmult, Qinv, inject_Z in Et.
    cbn [Qnum Qden] in Et.
    destruct (Z.ltb_spec v (-16384)) as [Hlt | Hge]; [exfalso; lia|].
    unfold Qtrunc, Qmult, inject_Z. cbn [Qnum Qden].
    rewrite Pos.mul_1_r, quot_32767 by lia.
    rewrite wrap_small; [reflexivity|].
    destruct (Z.eqb_spec v 0); [lia|]. destruct (Z.ltb_spec 0 v); lia.
Qed.

Lemma countFrom_In (n : nat) :
  forall first v, (first <= v < first + Z.of_nat n)%Z -> In v (countFrom first n).
Proof.
  induction n as [|n IH]; intros first v Hv; [lia|].
  cbn [countFrom]. destruct (Z.eq_dec first v) as [-> | Hne];
    [left; reflexivity | right; apply IH; lia].
Qed.

Lemma allInt16_In (v : Z) : (-32768 <= v <= 32767)%Z -> In v allInt16.
Proof. intros Hv. apply countFrom_In. lia. Qed.

(** The same in binary64, by running the two conversions on each of the
    65536 samples.  (A [Float32Array] holds [v / 32768] exactly, so the
    channel data read back are these very numbers.) *)
Lemma encodeSample_pcmToFloat_binary64 (v : Z) :
  (-32768 <= v <= 32767)%Z ->
  encodeSample (pcmToFloat (num := float) v) = requantized v.
Proof.
  intros Hv.
  assert (Hall : forallb (fun v => (encodeSample (pcmToFloat (num := float) v)
                                    =? requantized v)%Z) allInt16 = true).
  { vm_compute. reflexivity. }
  rewrite forallb_forall in Hall. apply Z.eqb_eq. apply Hall.
  apply allInt16_In. exact Hv.
Qed.

(** A 16-bit sample that [decodeAudioData] turned into a float is not the
    sample [audioBufferToWav] stores for it, in exact arithmetic and in
    binary64 alike: the samples below -16384 and the sample 0 are stored as
    they were, every other sample is stored one step nearer to 0, so a
    decoded file does not survive the way back. *)
Theorem decoded_sample_is_stored_one_step_nearer_to_zero :
  forall v : Z,
    (-32768 <= v <= 32767)%Z ->
    encodeSample (pcmToFloat (num := Q) v) = requantized v
    /\ encodeSample (pcmToFloat (num := float) v) = requantized v
    /\ (requantized v = v <-> (v < -16384 \/ v = 0)%Z)
    /\ (Z.abs (requantized v) <= Z.abs v)%Z
    /\ (Z.abs (v - requantized v) <= 1)%Z.
Proof.
  intros v Hv. split; [exact (encodeSample_pcmToFloat v Hv)|].
  split; [exact (encodeSample_pcmToFloat_binary64 v Hv)|].
  unfold requantized.
  destruct (Z.ltb_spec v (-16384)); [lia|].
  destruct (Z.eqb_spec v 0); [lia|].
  destruct (Z.ltb_spec 0 v); lia.
Qed.

(** The sample 1000 comes back as 999, in exact arithmetic and in binary64. *)
Lemma decoded_sample_is_stored_one_step_nearer_to_zero_witness :
  encodeSample (pcmToFloat (num := Q) 1000) = 999%Z
  /\ encodeSample (pcmToFloat (num := float) 1000) = 999%Z.
Proof.
  destruct (decoded_sample_is_stored_one_step_nearer_to_zero 1000 ltac:(lia))
    as (HQ & HF & _).
  split; [exact HQ | exact HF].
Defined.

(* ------------------------------------------------------------------ *)
(** ** From the bytes of the speech service to the file *)
(* ------------------------------------------------------------------ *)

Import GeminiService.

Lemma wrap16_range (v : Z) : (-32768 <= wrap16 v <= 32767)%Z.
Proof.
  unfold wrap16. pose proof (Z.mod_pos_bound (v + 2 ^ 15) (2 ^ 16) ltac:(lia)). lia.
Qed.

(** Lists are taken apart two elements at a time. *)
Lemma pair_induction {A : Type} (P : list A -> Prop) :
  P [] -> (forall a, P [a]) -> (forall a b l, P l -> P (a :: b :: l)) ->
  forall l, P l.
Proof.
  intros H0 H1 H2.
  assert (H : forall l, P l /\ forall a, P (a :: l)).
  { induction l as [|b l [IH1 IH2]]; [split; [exact H0 | exact H1]|].
    split; [apply IH2 | intros a; apply H2; exact IH1]. }
  intros l. apply H.
Qed.

Lemma int16Array_Some (bytes samples : list Z) :
  int16Array bytes = Some samples ->
  List.length bytes = (2 * List.length samples)%nat
  /\ Forall (fun v => (-32768 <= v <= 32767)%Z) samples.
Proof.
  revert samples. induction bytes as [| a | a b l IH] using pair_induction;
    intros samples E.
  - injection E as <-. split; [reflexivity | constructor].
  - discriminate E.
  - cbn [int16Array] in E. destruct (int16Array l) as [s|]; [|discriminate E].
    injection E as <-. destruct (IH s eq_refl) as [Hl Hr]. split.
    + cbn [List.length]. lia.
    + constructor; [apply wrap16_range | exact Hr].
Qed.

Lemma int16Array_None (bytes : list Z) :
  int16Array bytes = None <-> Nat.odd (List.length bytes) = true.
Proof.
  induction bytes as [| a | a b l IH] using pair_induction.
  - split; discriminate.
  - split; reflexivity.
  - cbn [int16Array List.length]. change (Nat.odd (S (S (List.length l))))
      with (Nat.odd (List.length l)). rewrite <- IH.
    destruct (int16Array l); split; congruence.
Qed.

Lemma decode_length (binaryString : JSString.jsstring) :
  List.length (decode binaryString) = List.length binaryString.
Proof. apply length_map. Qed.

Lemma pcmToFloat_bounds (v : Z) :
  (-32768 <= v <= 32767)%Z ->
  (-1 <= pcmToFloat (num := Q) v)%Q /\ (pcmToFloat (num := Q) v < 1)%Q.
Proof.
  intros Hv. rewrite pcmToFloat_fraction. unfold Qle, Qlt. cbn [Qnum Qden]. lia.
Qed.

(** For a rate and a number of channels that the platform supports,
    [decodeAudioData] throws exactly when the bytes do not make up whole
    16-bit samples or hold no whole frame; otherwise the buffer has the
    given rate and channels, one frame for every [numChannels] samples,
    channels of that many samples, and every sample in [-1, 1). *)
Theorem decoded_buffer_has_whole_frames_in_range :
  forall (binaryString : JSString.jsstring) (rate : Q) (numChannels : nat),
    (decodeAudioData binaryString rate numChannels = None
     <-> (Nat.odd (List.length binaryString) = true
          \/ numChannels = 0%nat
          \/ (List.length binaryString / 2 < numChannels)%nat))
    /\ (forall buffer,
          decodeAudioData binaryString rate numChannels = Some buffer ->
          sampleRate buffer = rate
          /\ numberOfChannels buffer = numChannels
          /\ length buffer = (List.length binaryString / 2 / numChannels)%nat
          /\ (0 < length buffer)%nat
          /\ wellFormedBuffer buffer
          /\ Forall (Forall (fun s => -1 <= s /\ s < 1)%Q) (channels buffer)).
Proof.
  intros bs rate nc. unfold decodeAudioData.
  destruct (int16Array (decode bs)) as [data|] eqn:E.
  - destruct (int16Array_Some _ _ E) as [Hlen Hrange].
    rewrite decode_length in Hlen.
    assert (Hodd : Nat.odd (List.length bs) = false).
    { destruct (Nat.odd (List.length bs)) eqn:Ho; [|reflexivity].
      rewrite <- decode_length in Ho. apply int16Array_None in Ho. congruence. }
    assert (Hd : (List.length bs / 2 = List.length data)%nat).
    { rewrite Hlen, Nat.mul_comm. apply Nat.div_mul. discriminate. }
    rewrite Hd. unfold createBuffer.
    destruct nc as [|nc'].
    { split; [split; [intros _; right; left; reflexivity | reflexivity]|].
      intros buffer Hb. discriminate Hb. }
    destruct (List.length data / S nc')%nat as [|frames] eqn:Ef.
    { split.
      - split; [|reflexivity]. intros _. right. right.
        apply Nat.div_small_iff in Ef; [exact Ef | discriminate].
      - intros buffer Hb. discriminate Hb. }
    split.
    + split; [discriminate|]. intros [Ho | [Hz | Hlt]].
      * congruence.
      * discriminate Hz.
      * apply Nat.div_small in Hlt. rewrite Hlt in Ef. discriminate Ef.
    + intros buffer Hb. apply some_eq in Hb. subst buffer.
      cbn [sampleRate length channels]. unfold numberOfChannels, wellFormedBuffer.
      cbn [channels length]. rewrite length_map, length_seq.
      repeat split; try lia.
      * apply Forall_map, Forall_forall. intros c _.
        rewrite length_map, length_seq. reflexivity.
      * apply Forall_map, Forall_forall. intros c _.
        apply Forall_map, Forall_forall. intros i _.
        apply pcmToFloat_bounds.
        destruct (nth_in_or_default (i * S nc' + c) data 0%Z) as [Hin | ->]; [|lia].
        rewrite Forall_forall in Hrange. apply Hrange. exact Hin.
  - split.
    + split; [|reflexivity]. intros _. left.
      rewrite <- decode_length. apply int16Array_None. exact E.
    + intros buffer Hb. discriminate Hb.
Qed.

(** Four bytes are one frame of two channels. *)
Lemma decoded_buffer_has_whole_frames_in_range_witness :
  exists buffer,
    decodeAudioData (JSString.lit "abcd") 24000%Q 2 = Some buffer
    /\ numberOfChannels buffer = 2%nat /\ length buffer = 1%nat.
Proof.
  destruct (decodeAudioData (JSString.lit "abcd") 24000%Q 2) as [buffer|] eqn:E;
    [|vm_compute in E; discriminate E].
  exists buffer. split; [reflexivity|].
  destruct (proj2 (decoded_buffer_has_whole_frames_in_range
                     (JSString.lit "abcd") 24000%Q 2) buffer E)
    as (_ & Hc & Hl & _).
  split; [exact Hc | exact Hl].
Defined.

Lemma map_nth_seq {A : Type} (l : list A) (d : A) :
  List.map (fun i => nth i l d) (seq 0 (List.length l)) = l.
Proof.
  induction l as [|a l IH]; [reflexivity|].
  cbn [List.length seq List.map nth]. f_equal.
  rewrite <- seq_shift, map_map. exact IH.
Qed.

Lemma map_nth_error_from {A B : Type} (f : A -> B) (d : B) (l : list A) (k : nat) :
  List.map (fun p => match nth_error l p with Some s => f s | None => d end)
           (seq k (List.length l - k))
  = List.map f (skipn k l).
Proof.
  revert l; induction k as [|k IH]; intros l.
  - rewrite Nat.sub_0_r. cbn [skipn].
    induction l as [|a l IHl]; [reflexivity|].
    cbn [List.length seq List.map nth_error]. f_equal.
    rewrite <- seq_shift, map_map. exact IHl.
  - destruct l as [|a l]; [reflexivity|].
    cbn [List.length skipn Nat.sub]. rewrite <- seq_shift, map_map. apply IH.
Qed.

Lemma decodeAudioData_mono {num : Type} `{Number num}
    (binaryString : JSString.jsstring) (rate : num) (samples : list Z) :
  int16Array (decode binaryString) = Some samples -> samples <> [] ->
  decodeAudioData binaryString rate 1
  = Some {| sampleRate := rate; length := List.length samples;
            channels := [List.map pcmToFloat samples] |}.
Proof.
  intros E Hne. unfold decodeAudioData. rewrite E, Nat.div_1_r.
  assert (Hc : createBuffer 1 (List.length samples) rate
               = Some {| sampleRate := rate; length := List.length samples;
                         channels := repeat (repeat (ofZ 0) (List.length samples)) 1 |}).
  { destruct samples; [congruence | reflexivity]. }
  rewrite Hc. cbn [sampleRate length seq List.map]. f_equal. f_equal. f_equal.
  transitivity (List.map (pcmToFloat (num := num))
                  (List.map (fun i => nth i samples 0%Z)
                            (seq 0 (List.length samples)))).
  - rewrite map_map. apply map_ext. intros i.
    rewrite Nat.mul_1_r, Nat.add_0_r. reflexivity.
  - rewrite map_nth_seq. reflexivity.
Qed.

Lemma dataSamples_mono {num : Type} `{Number num} (channelData : list num) :
  dataSamples [channelData] (List.length channelData)
  = List.map encodeSample (skipn 44 channelData).
Proof.
  unfold dataSamples. rewrite encodeFrames_seq.
  rewrite <- (map_nth_error_from encodeSample 0%Z channelData 44).
  generalize (seq 44 (List.length channelData - 44)). intros l.
  induction l as [|p l IH]; [reflexivity|].
  cbn [List.map List.concat encodeFrame app]. f_equal. exact IH.
Qed.

Lemma generateSpeech_layout {num : Type} `{Number num}
    (binaryString : JSString.jsstring) (samples : list Z) :
  (forall v, (-32768 <= v <= 32767)%Z ->
             encodeSample (pcmToFloat (num := num) v) = requantized v) ->
  toInt32 (ofZ (num := num) 24000) = 24000%Z ->
  toInt32 (nmul (nmul (ofZ (num := num) 24000) (ofZ 2)) (ofZ 1)) = 48000%Z ->
  binaryString <> [] ->
  int16Array (decode binaryString) = Some samples ->
  generateSpeech (num := num) (Some binaryString)
  = Some (wavHeader 1 24000 48000 (Z.of_nat (44 + List.length binaryString))
          ++ flat_map le16 (List.map requantized (skipn 44 samples))
          ++ repeat 0%Z (2 * Nat.min 44 (List.length samples))).
Proof.
  intros Hround Hrate Hbytes Hne E.
  destruct (int16Array_Some _ _ E) as [Hlen Hrange]. rewrite decode_length in Hlen.
  assert (Hs : samples <> []).
  { intros ->. destruct binaryString; [congruence | discriminate Hlen]. }
  unfold generateSpeech. destruct binaryString as [|c bs'] eqn:Ebs; [congruence|].
  rewrite <- Ebs in *.
  rewrite (decodeAudioData_mono _ _ _ E Hs), audioBufferToWav_layout.
  unfold numberOfChannels. cbn [channels length sampleRate List.length].
  change (Z.of_nat 1) with 1%Z. rewrite Hrate, Hbytes.
  pose proof (dataSamples_mono (List.map (pcmToFloat (num := num)) samples)) as Hd.
  rewrite length_map in Hd. rewrite Hd, skipn_map, map_map.
  rewrite Hlen.
  replace (2 * 1 * List.length samples)%nat with (2 * List.length samples)%nat by lia.
  replace (2 * 1 * Nat.min 44 (List.length samples))%nat
    with (2 * Nat.min 44 (List.length samples))%nat by lia.
  rewrite (map_ext_in _ requantized (skipn 44 samples)); [reflexivity|].
  intros v Hv. apply Hround.
  rewrite Forall_forall in Hrange. apply Hrange.
  rewrite <- (firstn_skipn 44 samples). apply in_or_app. right. exact Hv.
Qed.

(** The file [generateSpeech] makes of the samples the service sent, in
    exact arithmetic and in binary64 alike: a header for mono 16-bit audio
    at 24000 Hz, then the samples from the 45th on, each below -16384 or
    equal to 0 as sent and every other one step nearer to 0, then as many
    zero bytes as the first 44 samples would have taken.  The first 44
    samples are lost. *)
Theorem speech_file_drops_the_first_44_samples :
  forall (binaryString : JSString.jsstring) (samples : list Z),
    binaryString <> [] ->
    int16Array (decode binaryString) = Some samples ->
    let file :=
      Some (wavHeader 1 24000 48000 (Z.of_nat (44 + List.length binaryString))
            ++ flat_map le16 (List.map requantized (skipn 44 samples))
            ++ repeat 0%Z (2 * Nat.min 44 (List.length samples))) in
    generateSpeech (num := Q) (Some binaryString) = file
    /\ generateSpeech (num := float) (Some binaryString) = file.
Proof.
  intros bs samples Hne E file. split.
  - apply generateSpeech_layout;
      [exact encodeSample_pcmToFloat | reflexivity | reflexivity | exact Hne | exact E].
  - apply generateSpeech_layout;
      [exact encodeSample_pcmToFloat_binary64 | vm_compute; reflexivity
       | vm_compute; reflexivity | exact Hne | exact E].
Qed.

(** 46 samples of value 24929: the file holds two samples of value 24928
    and 88 zero bytes. *)
Lemma speech_file_drops_the_first_44_samples_witness :
  generateSpeech (num := float) (Some (repeat 97%N 92))
  = Some (wavHeader 1 24000 48000 136
          ++ flat_map le16 [24928; 24928]%Z ++ repeat 0%Z 88).
Proof.
  exact (proj2 (speech_file_drops_the_first_44_samples
                  (repeat 97%N 92) (repeat 24929%Z 46)
                  ltac:(discriminate) ltac:(vm_compute; reflexivity))).
Defined.

(* ------------------------------------------------------------------ *)
(** ** Merging clips *)
(* ------------------------------------------------------------------ *)

Lemma setAt_fill {num : Type} (pre inputData : list num) (z : num) (n : nat) :
  setAt (pre ++ repeat z (List.length inputData + n)) inputData (List.length pre)
  = Some (pre ++ inputData ++ repeat z n).
Proof.
  unfold setAt. rewrite length_app, repeat_length.
  destruct (Nat.ltb_spec (List.length pre + (List.length inputData + n))
                         (List.length pre + List.length inputData)) as [Hlt | _];
    [lia|].
  f_equal. rewrite firstn_app, Nat.sub_diag, firstn_all. cbn [firstn].
  rewrite app_nil_r. f_equal. f_equal.
  rewrite (skipn_past pre _ (List.length inputData)). apply skipn_repeat.
Qed.

Lemma channel_of_wellFormed {num : Type} `{Number num} (buff : AudioBuffer) (c : nat) :
  wellFormedBuffer buff -> (c < numberOfChannels buff)%nat ->
  nth_error (channels buff) c = Some (nth c (channels buff) [])
  /\ List.length (nth c (channels buff) []) = length buff.
Proof.
  intros Hw Hc. unfold wellFormedBuffer in Hw. unfold numberOfChannels in Hc.
  split.
  - apply nth_error_nth'. exact Hc.
  - rewrite Forall_forall in Hw. apply Hw. apply nth_In. exact Hc.
Qed.

Lemma copyChannels_fill {num : Type} `{Number num} (buff : AudioBuffer)
    (z : num) (n offset : nat) (pre : nat -> list num) (k channel : nat) :
  wellFormedBuffer buff ->
  (channel + k <= numberOfChannels buff)%nat ->
  (forall c, List.length (pre c) = offset) ->
  copyChannels buff offset channel
    (List.map (fun c => pre c ++ repeat z (length buff + n)) (seq channel k))
  = Some (List.map (fun c => pre c ++ nth c (channels buff) [] ++ repeat z n)
                   (seq channel k)).
Proof.
  intros Hw. revert channel. induction k as [|k IH]; intros channel Hk Hpre;
    [reflexivity|].
  cbn [seq List.map copyChannels].
  destruct (channel_of_wellFormed buff channel Hw ltac:(lia)) as [-> Hl].
  rewrite <- Hl, <- (Hpre channel), setAt_fill, Hl.
  rewrite (Hpre channel), IH by (try lia; exact Hpre). reflexivity.
Qed.

Lemma copyBuffers_fill {num : Type} `{Number num} (audioBuffers : list AudioBuffer)
    (z : num) (n k : nat) :
  Forall wellFormedBuffer audioBuffers ->
  Forall (fun buff => (k <= numberOfChannels buff)%nat) audioBuffers ->
  forall (offset : nat) (pre : nat -> list num),
    (forall c, (c < k)%nat -> List.length (pre c) = offset) ->
    copyBuffers audioBuffers offset
      (List.map (fun c => pre c ++ repeat z (totalFrames audioBuffers + n)) (seq 0 k))
    = Some (List.map (fun c => pre c ++ concatChannel audioBuffers c ++ repeat z n)
                     (seq 0 k)).
Proof.
  intros Hw Hk. induction audioBuffers as [|buff rest IH]; intros offset pre Hpre.
  - cbn [copyBuffers]. f_equal.
  - inversion Hw as [|? ? Hw1 Hw2]; subst. inversion Hk as [|? ? Hk1 Hk2]; subst.
    cbn [copyBuffers].
    set (pre0 := fun c => if (c <? k)%nat then pre c else repeat z offset).
    assert (Hpre0 : forall c, List.length (pre0 c) = offset).
    { intros c. unfold pre0. destruct (Nat.ltb_spec c k) as [Hc | Hc];
        [apply Hpre; exact Hc | apply repeat_length]. }
    assert (Hin : List.map (fun c => pre c ++ repeat z (totalFrames (buff :: rest) + n))
                           (seq 0 k)
                  = List.map (fun c => pre0 c
                                       ++ repeat z (length buff + (totalFrames rest + n)))
                             (seq 0 k)).
    { apply map_ext_in. intros c Hc. apply in_seq in Hc. unfold pre0.
      destruct (Nat.ltb_spec c k) as [_ | Hge]; [|lia].
      f_equal. f_equal. unfold totalFrames, list_sum. cbn [List.map fold_right]. lia. }
    rewrite Hin.
    rewrite (copyChannels_fill buff z (totalFrames rest + n) offset pre0 k 0 Hw1 Hk1 Hpre0).
    assert (Hre : List.map (fun c => pre0 c ++ nth c (channels buff) []
                                     ++ repeat z (totalFrames rest + n)) (seq 0 k)
                  = List.map (fun c => (pre0 c ++ nth c (channels buff) [])
                                       ++ repeat z (totalFrames rest + n)) (seq 0 k)).
    { apply map_ext. intros c. apply app_assoc. }
    rewrite Hre, (IH Hw2 Hk2 (offset + length buff)%nat
                     (fun c => pre0 c ++ nth c (channels buff) [])).
    + f_equal. apply map_ext_in. intros c Hc. apply in_seq in Hc. unfold pre0.
      destruct (Nat.ltb_spec c k) as [_ | Hge]; [|lia].
      unfold concatChannel. cbn [List.map List.concat].
      rewrite <- !app_assoc. reflexivity.
    + intros c Hc. rewrite length_app, Hpre0.
      destruct (channel_of_wellFormed buff c Hw1 ltac:(lia)) as [_ ->]. reflexivity.
Qed.

Lemma totalLength_totalFrames {num : Type} `{Number num}
    (audioBuffers : list AudioBuffer) (acc : nat) :
  fold_left (fun acc buff => (acc + length buff)%nat) audioBuffers acc
  = (acc + totalFrames audioBuffers)%nat.
Proof.
  revert acc; induction audioBuffers as [|buff rest IH]; intros acc.
  - unfold totalFrames. simpl. lia.
  - cbn [fold_left]. rewrite IH. unfold totalFrames, list_sum. cbn [List.map fold_right]. lia.
Qed.

Lemma repeat_map_seq {A : Type} (a : A) (n start : nat) :
  repeat a n = List.map (fun _ => a) (seq start n).
Proof.
  revert start; induction n as [|n IH]; intros start; [reflexivity|].
  cbn [repeat seq List.map]. f_equal. apply IH.
Qed.

(** Clips that all have at least the channels of the first one are merged
    into one buffer at the rate of the first clip, with as many frames as
    all clips together: channel [c] of the result is channel [c] of each
    clip, one after the other, and channels that the first clip does not
    have are dropped.  (The rate and the number of channels of the first
    clip are taken to be ones the platform supports.) *)
Theorem merged_buffer_is_the_clips_one_after_the_other :
  forall (num : Type) (N : Number num)
         (firstBuffer : AudioBuffer (num := num)) (rest : list AudioBuffer),
    Forall wellFormedBuffer (firstBuffer :: rest) ->
    Forall (fun buff => (numberOfChannels firstBuffer <= numberOfChannels buff)%nat)
           rest ->
    (0 < numberOfChannels firstBuffer)%nat ->
    (0 < totalFrames (firstBuffer :: rest))%nat ->
    mergeAudioBuffers (firstBuffer :: rest)
    = Some {| sampleRate := sampleRate firstBuffer;
              length := totalFrames (firstBuffer :: rest);
              channels := List.map (concatChannel (firstBuffer :: rest))
                                   (seq 0 (numberOfChannels firstBuffer)) |}.
Proof.
  intros num N firstBuffer rest Hw Hk Hc Ht.
  unfold mergeAudioBuffers. rewrite totalLength_totalFrames. cbn [Nat.add].
  set (audioBuffers := firstBuffer :: rest) in *.
  set (k := numberOfChannels firstBuffer) in *.
  set (T := totalFrames audioBuffers) in *.
  assert (Hcreate : createBuffer k T (sampleRate firstBuffer)
                    = Some {| sampleRate := sampleRate firstBuffer; length := T;
                              channels := repeat (repeat (ofZ 0) T) k |}).
  { destruct k; [lia|]. destruct T; [lia|]. reflexivity. }
  rewrite Hcreate. cbn [channels sampleRate length].
  assert (Hout : repeat (repeat (ofZ 0) T) k
                 = List.map (fun c => (fun _ : nat => @nil num) c
                                      ++ repeat (ofZ 0) (totalFrames audioBuffers + 0))
                            (seq 0 k)).
  { rewrite Nat.add_0_r. apply repeat_map_seq. }
  rewrite Hout, (copyBuffers_fill audioBuffers (ofZ 0) 0 k Hw).
  - f_equal. f_equal. apply map_ext. intros c. cbn [app repeat].
    apply app_nil_r.
  - constructor; [apply Nat.le_refl | exact Hk].
  - intros c _. reflexivity.
Qed.

(** A mono clip of two frames and a stereo clip of one frame. *)
Lemma merged_buffer_is_the_clips_one_after_the_other_witness :
  mergeAudioBuffers
    [ {| sampleRate := 48000%Q; length := 2; channels := [[1 # 2; 1 # 4]%Q] |};
      {| sampleRate := 44100%Q; length := 1; channels := [[1 # 8]; [1 # 16]]%Q |} ]
  = Some {| sampleRate := 48000%Q; length := 3;
            channels := [[1 # 2; 1 # 4; 1 # 8]%Q] |}.
Proof.
  apply (merged_buffer_is_the_clips_one_after_the_other Q _
           {| sampleRate := 48000%Q; length := 2; channels := [[1 # 2; 1 # 4]%Q] |}
           [ {| sampleRate := 44100%Q; length := 1;
                channels := [[1 # 8]; [1 # 16]]%Q |} ]).
  - repeat constructor.
  - repeat constructor.
  - unfold numberOfChannels. simpl. lia.
  - unfold totalFrames. simpl. lia.
Defined.

Lemma copyChannels_length {num : Type} `{Number num} (buff : AudioBuffer)
    (offset : nat) (outputs : list (list num)) :
  forall channel outputs',
    copyChannels buff offset channel outputs = Some outputs' ->
    List.length outputs' = List.length outputs.
Proof.
  induction outputs as [|outputData outputs IH]; intros channel outputs' E.
  - cbn [copyChannels] in E. apply some_eq in E. subst. reflexivity.
  - cbn [copyChannels] in E.
    destruct (nth_error (channels buff) channel) as [inputData|]; [|discriminate E].
    destruct (setAt outputData inputData offset); [|discriminate E].
    destruct (copyChannels buff offset (S channel) outputs) as [outputs''|] eqn:E';
      [|discriminate E].
    apply some_eq in E. subst. cbn [List.length]. f_equal. apply (IH _ _ E').
Qed.

Lemma copyChannels_missing {num : Type} `{Number num} (buff : AudioBuffer)
    (offset : nat) (outputs : list (list num)) :
  forall channel,
    (channel <= numberOfChannels buff < channel + List.length outputs)%nat ->
    copyChannels buff offset channel outputs = None.
Proof.
  induction outputs as [|outputData outputs IH]; intros channel Hc.
  - cbn [List.length] in Hc. lia.
  - cbn [copyChannels].
    destruct (nth_error (channels buff) channel) as [inputData|] eqn:E; [|reflexivity].
    assert (Hlt : (channel < numberOfChannels buff)%nat).
    { apply nth_error_Some. congruence. }
    destruct (setAt outputData inputData offset); [|reflexivity].
    rewrite IH; [reflexivity|]. cbn [List.length] in Hc. lia.
Qed.

Lemma copyBuffers_missing {num : Type} `{Number num} (audioBuffers : list AudioBuffer) :
  forall (offset : nat) (outputs : list (list num)),
    Exists (fun buff => (numberOfChannels buff < List.length outputs)%nat)
           audioBuffers ->
    copyBuffers audioBuffers offset outputs = None.
Proof.
  induction audioBuffers as [|buff rest IH]; intros offset outputs Hex.
  - inversion Hex.
  - cbn [copyBuffers].
    destruct (copyChannels buff offset 0 outputs) as [outputs'|] eqn:E; [|reflexivity].
    inversion Hex as [? ? Hbad | ? ? Hrest]; subst.
    + rewrite copyChannels_missing in E by lia. discriminate E.
    + apply IH. rewrite (copyChannels_length _ _ _ _ _ E). exact Hrest.
Qed.

(** [mergeAudioClips] throws when there is no clip, and when some clip has
    fewer channels than the first one. *)
Theorem merge_throws_without_clips_or_on_a_missing_channel :
  forall (num : Type) (N : Number num) (audioBuffers : list (AudioBuffer (num := num))),
    (audioBuffers = []
     \/ exists firstBuffer rest,
          audioBuffers = firstBuffer :: rest
          /\ Exists (fun buff => (numberOfChannels buff
                                  < numberOfChannels firstBuffer)%nat) rest) ->
    mergeAudioClips audioBuffers = None.
Proof.
  intros num N audioBuffers [-> | (firstBuffer & rest & -> & Hex)]; [reflexivity|].
  unfold mergeAudioClips, mergeAudioBuffers.
  destruct (createBuffer (numberOfChannels firstBuffer) _ (sampleRate firstBuffer))
    as [resultBuffer|] eqn:E; [|reflexivity].
  assert (Hk : List.length (channels resultBuffer) = numberOfChannels firstBuffer).
  { unfold createBuffer in E.
    destruct (numberOfChannels firstBuffer) as [|k]; [discriminate E|].
    destruct (fold_left _ _ _) as [|t]; [discriminate E|].
    apply some_eq in E. subst resultBuffer. cbn [channels]. apply repeat_length. }
  rewrite copyBuffers_missing; [reflexivity|].
  apply Exists_cons_tl. rewrite Hk. exact Hex.
Qed.

(** A stereo clip followed by a mono clip. *)
Lemma merge_throws_without_clips_or_on_a_missing_channel_witness :
  mergeAudioClips
    [ {| sampleRate := 48000%Q; length := 1; channels := [[1 # 8]; [1 # 16]]%Q |};
      {| sampleRate := 48000%Q; length := 2; channels := [[1 # 2; 1 # 4]%Q] |} ]
  = None.
Proof.
  apply (merge_throws_without_clips_or_on_a_missing_channel Q _). right.
  eexists. eexists. split; [reflexivity|].
  apply Exists_cons_hd. unfold numberOfChannels. simpl. lia.
Defined.

(* ------------------------------------------------------------------ *)
(** ** The retry wrapper *)
(* ------------------------------------------------------------------ *)

Lemma runWithRetry_from {T : Type} (fn : nat -> Outcome T) (retries : nat) :
  forall (delay : Q) (call : nat),
    let outcome := fst (runWithRetry fn retries delay call) in
    let slept := snd (runWithRetry fn retries delay call) in
    let n := List.length slept in
    (n <= retries)%nat
    /\ outcome = fn (call + n)%nat
    /\ (forall i, (i < n)%nat ->
                  exists error, fn (call + i)%nat = rejected error
                                /\ isQuotaError error = true)
    /\ (n = retries \/ final outcome)
    /\ (forall i, (i < n)%nat ->
                  nth i slept 0%Q == delay * inject_Z (2 ^ Z.of_nat i))%Q
    /\ (fold_right Qplus 0 slept == delay * (inject_Z (2 ^ Z.of_nat n) - 1))%Q.
Proof.
  induction retries as [|retries IH]; intros delay call; cbn [runWithRetry].
  - destruct (fn call) as [value | error] eqn:E; cbn [fst snd List.length fold_right];
      rewrite Nat.add_0_r, E;
      (repeat split; [lia | intros i Hi; lia | | intros i Hi; lia | ]);
      try (left; reflexivity); try (right; exact I);
      change (inject_Z (2 ^ Z.of_nat 0)) with 1%Q; ring.
  - destruct (fn call) as [value | error] eqn:E.
    { cbn [fst snd List.length fold_right]. rewrite Nat.add_0_r, E.
      repeat split; [lia | intros i Hi; lia | right; exact I | intros i Hi; lia |].
      change (inject_Z (2 ^ Z.of_nat 0)) with 1%Q. ring. }
    destruct (isQuotaError error) eqn:Eq.
    2:{ cbn [fst snd List.length fold_right]. rewrite Nat.add_0_r, E.
        repeat split; [lia | intros i Hi; lia | right; exact Eq | intros i Hi; lia |].
        change (inject_Z (2 ^ Z.of_nat 0)) with 1%Q. ring. }
    specialize (IH (nmul delay (ofZ 2)) (S call)).
    destruct (runWithRetry fn retries (nmul delay (ofZ 2)) (S call)) as [outcome slept].
    cbn [fst snd] in IH |- *. cbn [List.length fold_right].
    destruct IH as (Hn & Hout & Hquota & Hstop & Hnth & Hsum).
    assert (Hpow : forall m : nat,
               (inject_Z (2 ^ Z.of_nat (S m)) == 2 * inject_Z (2 ^ Z.of_nat m))%Q).
    { intros m. rewrite Nat2Z.inj_succ, Z.pow_succ_r by lia.
      rewrite inject_Z_mult. reflexivity. }
    repeat split.
    + lia.
    + rewrite Hout. f_equal. lia.
    + intros [|i] Hi.
      * exists error. rewrite Nat.add_0_r. split; assumption.
      * destruct (Hquota i ltac:(lia)) as (e & He & Hq). exists e.
        replace (call + S i)%nat with (S call + i)%nat by lia. split; assumption.
    + destruct Hstop as [-> | Hf]; [left; reflexivity | right; exact Hf].
    + intros [|i] Hi; cbn [nth].
      * change (inject_Z (2 ^ Z.of_nat 0)) with 1%Q. ring.
      * rewrite (Hnth i ltac:(lia)), Hpow. cbn [nmul ofZ QNumber].
        change (inject_Z 2) with 2%Q. ring.
    + rewrite Hsum, Hpow. cbn [nmul ofZ QNumber].
      change (inject_Z 2) with 2%Q. ring.
Qed.

(** [runWithRetry] calls [fn] again only after a quota error and at most
    [retries] times; it ends as the first call that returns a value or
    fails with another error, or as call number [retries + 1].  Before the
    retry number [i] it sleeps [delay * 2^(i-1)], so that [n] retries cost
    [delay * (2^n - 1)] in all. *)
Theorem retry_ends_as_the_first_final_call :
  forall (T : Type) (fn : nat -> Outcome T) (retries : nat) (delay : Q),
    let outcome := fst (runWithRetry fn retries delay 0) in
    let slept := snd (runWithRetry fn retries delay 0) in
    let n := List.length slept in
    (n <= retries)%nat
    /\ outcome = fn n
    /\ (forall i, (i < n)%nat ->
                  exists error, fn i = rejected error /\ isQuotaError error = true)
    /\ (n = retries \/ final outcome)
    /\ (forall i, (i < n)%nat ->
                  nth i slept 0%Q == delay * inject_Z (2 ^ Z.of_nat i))%Q
    /\ (fold_right Qplus 0 slept == delay * (inject_Z (2 ^ Z.of_nat n) - 1))%Q.
Proof.
  intros T fn retries delay. exact (runWithRetry_from fn retries delay 0).
Qed.

(** A quota error on the first two calls, then a value, with the default
    five retries from 4000 ms: the third call ends the run. *)
Lemma retry_ends_as_the_first_final_call_witness :
  let fn := fun call : nat =>
              if (call <? 2)%nat
              then rejected {| status := Some 429%Z; message := None;
                               toString := JSString.lit "Error" |}
              else resolved 7%Z in
  fst (runWithRetry fn 5 4000%Q 0) = resolved 7%Z
  /\ (fold_right Qplus 0 (snd (runWithRetry fn 5 4000%Q 0)) == 12000)%Q.
Proof.
  intros fn.
  destruct (retry_ends_as_the_first_final_call Z fn 5 4000%Q)
    as (_ & Hout & _ & _ & _ & Hsum).
  split; [exact Hout | exact Hsum].
Defined.

(* ------------------------------------------------------------------ *)
(** ** The chat sessions *)
(* ------------------------------------------------------------------ *)

Lemma updated_session_keeps_id {M : Type} (session s : Sessions.ChatSession M) :
  Sessions.id (if JSString.eqb (Sessions.id s) (Sessions.id session)
               then session else s)
  = Sessions.id s.
Proof.
  destruct (JSString.eqb (Sessions.id s) (Sessions.id session)) eqn:E;
    [|reflexivity].
  apply eqb_eq in E. symmetry. exact E.
Qed.

(** From the initial state on, whatever handler of the chat sessions
    runs, the list of sessions holds the current session; in particular
    it is never empty. *)
Theorem sessions_keep_a_current_session :
  forall (M : Type) (now : Z),
    Sessions.hasCurrent (Sessions.INITIAL_STATE M now)
    /\ forall prev next : Sessions.State M,
         Sessions.hasCurrent prev -> Sessions.step prev next ->
         Sessions.hasCurrent next /\ Sessions.chatSessions next <> [].
Proof.
  intros M now. split.
  { exists {| Sessions.id := JSString.lit "default-session";
              Sessions.title := JSString.lit "New Chat";
              Sessions.messages := [];
              Sessions.lastUpdated := now |}.
    split; [left; reflexivity | reflexivity]. }
  intros prev next (s & Hin & Hcur) Hstep.
  assert (Hgoal : Sessions.hasCurrent next).
  { destruct Hstep as [now1 now2 | session | s' Hs' | now1 now2 id'].
    - exists {| Sessions.id := JSString.lit "session-" ++ JSString.decimal now1;
                Sessions.title := JSString.lit "New Chat";
                Sessions.messages := [];
                Sessions.lastUpdated := now2 |}.
      split; [|reflexivity].
      cbn [Sessions.handleNewSession Sessions.chatSessions].
      apply in_or_app. right. left. reflexivity.
    - exists (if JSString.eqb (Sessions.id s) (Sessions.id session) then session else s).
      cbn [Sessions.handleUpdateSession Sessions.chatSessions
           Sessions.currentChatSessionId].
      split.
      + apply (in_map (fun s0 => if JSString.eqb (Sessions.id s0) (Sessions.id session)
                                 then session else s0)). exact Hin.
      + rewrite updated_session_keeps_id. exact Hcur.
    - exists s'. split; [exact Hs' | reflexivity].
    - unfold Sessions.handleDeleteSession. rewrite Hcur.
      set (newSessions := filter _ (Sessions.chatSessions prev)).
      destruct (JSString.eqb id' (Sessions.id s)) eqn:E.
      + destruct newSessions as [|s0 rest] eqn:En.
        * cbn [Sessions.falsy andb List.length Nat.eqb].
          exists {| Sessions.id := JSString.lit "session-" ++ JSString.decimal now1;
                    Sessions.title := JSString.lit "New Chat";
                    Sessions.messages := [];
                    Sessions.lastUpdated := now2 |}.
          split; [left; reflexivity | reflexivity].
        * assert (Hnot : Sessions.falsy (Some (Sessions.id s0))
                         && (List.length (s0 :: rest) =? 0)%nat = false).
          { cbn [List.length Nat.eqb]. apply andb_false_r. }
          rewrite Hnot. exists s0. split; [left; reflexivity | reflexivity].
      + assert (Hkept : In s newSessions).
        { apply filter_In. split; [exact Hin|].
          destruct (JSString.eqb (Sessions.id s) id') eqn:E'; [|reflexivity].
          apply eqb_eq in E'. rewrite E', eqb_refl in E. discriminate E. }
        assert (Hnot : Sessions.falsy (Some (Sessions.id s))
                       && (List.length newSessions =? 0)%nat = false).
        { destruct newSessions; [destruct Hkept|].
          cbn [List.length Nat.eqb]. apply andb_false_r. }
        rewrite Hnot. exists s. split; [exact Hkept | reflexivity]. }
  split; [exact Hgoal|].
  destruct Hgoal as (s1 & H1 & _). intros Hnil. rewrite Hnil in H1. destruct H1.
Qed.

(** Deleting the only session brings a new one. *)
Lemma sessions_keep_a_current_session_witness :
  Sessions.hasCurrent
    (Sessions.handleDeleteSession 1700000000000 1700000000001
       (JSString.lit "default-session") (Sessions.INITIAL_STATE unit 0)).
Proof.
  destruct (sessions_keep_a_current_session unit 0) as [Hinit Hstep].
  apply (Hstep _ _ Hinit). apply Sessions.step_delete.
Defined.

(* ------------------------------------------------------------------ *)
(** ** The audio clips and their selection *)
(* ------------------------------------------------------------------ *)

Lemma NoDup_snoc {A : Type} (l : list A) (x : A) :
  NoDup l -> ~ In x l -> NoDup (l ++ [x]).
Proof.
  intros Hl Hx. apply (Permutation_NoDup (Permutation_cons_append l x)).
  constructor; assumption.
Qed.

Lemma neqb_true (a b : JSString.jsstring) :
  negb (JSString.eqb a b) = true <-> a <> b.
Proof.
  rewrite negb_true_iff. split.
  - intros E Heq. subst. rewrite eqb_refl in E. discriminate E.
  - intros Hne. destruct (JSString.eqb a b) eqn:E; [|reflexivity].
    apply eqb_eq in E. contradiction.
Qed.

(** From a selection without duplicates that names clips of the list,
    every handler leaves such a selection: deleting a clip, selecting or
    deselecting a clip of the list, and adding a spoken or merged clip. *)
Theorem selection_stays_within_the_clips :
  forall (num : Type) (N : Number num) (prev next : AudioClips.State (num := num)),
    AudioClips.selectionOfClips prev -> AudioClips.step prev next ->
    AudioClips.selectionOfClips next.
Proof.
  intros num N prev next [Hnd Hsub] Hstep.
  destruct Hstep as [id' | c Hc | newClip]; split.
  - apply NoDup_filter. exact Hnd.
  - cbn [AudioClips.handleDeleteAudio AudioClips.selectedAudioIds
         AudioClips.audioClips].
    intros sid Hsid. apply filter_In in Hsid. destruct Hsid as [Hin Hne].
    destruct (Hsub sid Hin) as (c & Hc & Hid). exists c. split; [|exact Hid].
    apply filter_In. split; [exact Hc | rewrite Hid; exact Hne].
  - cbn [AudioClips.handleAudioSelect AudioClips.selectedAudioIds].
    destruct (JSString.includes (AudioClips.selectedAudioIds prev) (AudioClips.id c))
      eqn:E.
    + apply NoDup_filter. exact Hnd.
    + apply NoDup_snoc; [exact Hnd|]. intros Hin. apply includes_In in Hin.
      congruence.
  - cbn [AudioClips.handleAudioSelect AudioClips.selectedAudioIds
         AudioClips.audioClips].
    intros sid Hsid.
    destruct (JSString.includes (AudioClips.selectedAudioIds prev) (AudioClips.id c)).
    + apply filter_In in Hsid. apply Hsub. apply Hsid.
    + apply in_app_or in Hsid. destruct Hsid as [Hin | [<- | []]].
      * apply Hsub. exact Hin.
      * exists c. split; [exact Hc | reflexivity].
  - cbn [AudioClips.addClip AudioClips.selectedAudioIds].
    constructor; [intros [] | constructor].
  - cbn [AudioClips.addClip AudioClips.selectedAudioIds AudioClips.audioClips].
    intros sid [<- | []]. exists newClip. split; [left; reflexivity | reflexivity].
Qed.

(** A spoken clip is added and then selected again. *)
Lemma selection_stays_within_the_clips_witness :
  let clip := AudioClips.speechClip (num := Q) 1700000000000 1700000000001
                (JSString.lit "Hello") (JSString.lit "blob:1") in
  AudioClips.selectionOfClips
    (AudioClips.handleAudioSelect (AudioClips.id clip)
       (AudioClips.addClip clip
          {| AudioClips.audioClips := []; AudioClips.selectedAudioIds := [] |})).
Proof.
  intros clip.
  apply (selection_stays_within_the_clips Q _
           (AudioClips.addClip clip
              {| AudioClips.audioClips := []; AudioClips.selectedAudioIds := [] |})).
  - split; [repeat constructor; intros [] |].
    intros sid [<- | []]. exists clip. split; [left; reflexivity | reflexivity].
  - apply AudioClips.step_select. left. reflexivity.
Defined.





(* ------------------------------------------------------------------ *)
(** ** The images of a beat *)
(* ------------------------------------------------------------------ *)

Import Images.

Section AnyNumber.
Context {num : Type} `{Number num}.

Lemma Forall_map_if {A : Type} (P : A -> Prop) (test : A -> bool) (f : A -> A)
    (l : list A) :
  Forall P l -> (forall a, In a l -> test a = true -> P a -> P (f a)) ->
  Forall P (List.map (fun a => if test a then f a else a) l).
Proof.
  intros Hl Hf. apply Forall_map, Forall_forall. intros a Ha.
  rewrite Forall_forall in Hl. destruct (test a) eqn:E; [|apply Hl; exact Ha].
  apply Hf; [exact Ha | exact E | apply Hl; exact Ha].
Qed.

Lemma chosen_last (b : Beat num) (img : JSString.jsstring) (options : list JSString.jsstring)
    (prompt : JSString.jsstring) :
  chosenInGallery (withImage b (Some img) (options ++ [img]) prompt).
Proof.
  unfold chosenInGallery, withImage, optionsOrEmpty. cbn [bRollImage bRollOptions].
  destruct img as [|c img]; [exact I|]. apply in_or_app. right. left. reflexivity.
Qed.

Lemma chosen_spread_last (b : Beat num) (img : JSString.jsstring) (options : list JSString.jsstring) :
  chosenInGallery (spread b (imageUpdates img (Some (options ++ [img])))).
Proof.
  unfold chosenInGallery, spread, imageUpdates, optionsOrEmpty, orKeep.
  cbn [bRollImage bRollOptions Partial.bRollImage Partial.bRollOptions].
  destruct img as [|c img]; [exact I|]. apply in_or_app. right. left. reflexivity.
Qed.

Lemma chosen_fresh (l : list (Beat num)) :
  Forall (fun b => bRollImage b = None) l -> Forall chosenInGallery l.
Proof.
  apply Forall_impl. intros b Hb. unfold chosenInGallery. rewrite Hb. exact I.
Qed.

Lemma splitLoop_fresh (dateNow : Z -> Z) (ob : Beat num) (L : Z) (D : num)
    (parts : list Part) :
  forall (i : Z) (t : num),
    Forall (fun b => bRollImage b = None) (splitLoop dateNow ob L D i t parts).
Proof.
  induction parts as [|p parts IH]; intros i t; cbn [splitLoop]; constructor;
    [reflexivity | apply IH].
Qed.

Lemma assignTimes_fresh (beats : list (Beat num)) :
  Forall (fun b => bRollImage b = None) beats ->
  forall t, Forall (fun b => bRollImage b = None) (assignTimes t beats).
Proof.
  induction 1 as [|b beats Hb _ IH]; intros t; cbn [assignTimes]; constructor;
    [exact Hb | apply IH].
Qed.

Lemma analyzeBeatsFrom_fresh (dateNow : Z -> Z) (items : list Item) :
  forall index,
    Forall (fun b : Beat num => bRollImage b = None)
           (analyzeBeatsFrom dateNow index items).
Proof.
  induction items as [|item items IH]; intros index; cbn [analyzeBeatsFrom];
    constructor; [reflexivity | apply IH].
Qed.

Lemma chosen_merged (now : Z) (firstBeat lastBeat : Beat num)
    (selectedBeats : list (Beat num)) :
  chosenInGallery (mergedBeat now firstBeat lastBeat selectedBeats).
Proof.
  unfold chosenInGallery, mergedBeat, optionsOrEmpty, mergedImages.
  cbn [bRollImage bRollOptions].
  destruct (bRollImage firstBeat) as [[|c image]|]; try exact I.
  cbn [JSString.eqb negb andb].
  destruct (JSString.includes _ (c :: image)) eqn:E; cbn [negb].
  - apply includes_In. exact E.
  - left. reflexivity.
Qed.

Lemma chosen_imageStep (prev next : list (Beat num)) :
  Forall chosenInGallery prev -> imageStep prev next -> Forall chosenInGallery next.
Proof.
  intros Hprev Hstep.
  destruct Hstep as [beat img | beat j img | beatId prompt img
                     | beatId url stateBeats | beatId imageUrl Hoffer].
  - apply (Forall_map_if chosenInGallery
             (fun b => JSString.eqb (id b) (id beat))); [exact Hprev|].
    intros b _ _ _. apply chosen_spread_last.
  - unfold bulkUpdater.
    apply (Forall_map_if chosenInGallery (fun b => JSString.eqb (id b) (id beat))
             (fun b => withImage b _ _ _)); [exact Hprev|].
    intros b _ _ Hb.
    destruct (negb (truthy (bRollImage b))
              && (Z.of_nat (List.length (optionsOrEmpty b)) =? 0)%Z && (j =? 0)%Z);
      [apply chosen_last|].
    destruct (truthy (bRollImage b)) eqn:Et; [|apply chosen_last].
    unfold chosenInGallery, withImage, optionsOrEmpty in *.
    cbn [bRollImage bRollOptions].
    destruct (bRollImage b) as [[|c image]|]; try exact I.
    apply in_or_app. left. exact Hb.
  - unfold promptUpdater.
    destruct (find (fun bt => JSString.eqb (id bt) beatId) prev) as [b|];
      [|exact Hprev].
    apply (Forall_map_if chosenInGallery (fun bt => JSString.eqb (id bt) beatId)
             (fun bt => withImage bt _ _ _)); [exact Hprev|].
    intros bt _ _ _. apply chosen_last.
  - unfold handleUploadImage.
    destruct (find (fun b => JSString.eqb (id b) beatId) stateBeats) as [currentBeat|];
      [|exact Hprev].
    apply (Forall_map_if chosenInGallery (fun b => JSString.eqb (id b) beatId));
      [exact Hprev|].
    intros b _ _ _. apply chosen_spread_last.
  - apply (Forall_map_if chosenInGallery (fun b => JSString.eqb (id b) beatId));
      [exact Hprev|].
    intros b Hb Hid _. apply eqb_eq in Hid.
    unfold chosenInGallery, spread, imageUpdates, optionsOrEmpty, orKeep.
    cbn [bRollImage bRollOptions Partial.bRollImage Partial.bRollOptions].
    destruct imageUrl as [|c image]; [exact I|].
    exact (Hoffer b Hb Hid).
Qed.

End AnyNumber.

(** Whatever handler changes the beats (the analysis, a split, a merge,
    the removal of the video, a generated, uploaded or selected image), the
    image a beat shows stays one of the images of its gallery. *)
Theorem chosen_image_stays_in_the_gallery :
  forall (num : Type) (N : Number num) (prev next : list (Beat num)),
    Forall chosenInGallery prev -> step prev next -> Forall chosenInGallery next.
Proof.
  intros num N prev next Hprev Hstep.
  destruct Hstep as [next Himage | dateNow items
                     | dateNow beatId startIdx endIdx next Hsplit
                     | now beatIds next Hmerge | ].
  - exact (chosen_imageStep prev next Hprev Himage).
  - apply chosen_fresh. apply assignTimes_fresh. apply analyzeBeatsFrom_fresh.
  - unfold handleSplitBeat in Hsplit.
    destruct (findIndex _ prev =? -1)%Z; [discriminate Hsplit|].
    destruct (nth_error prev _) as [originalBeat|]; [|discriminate Hsplit].
    destruct (_ || _ || _); [discriminate Hsplit|].
    apply some_eq in Hsplit. subst next. unfold splice1.
    set (n := Z.to_nat (findIndex _ prev)).
    apply Forall_app. split; [|apply Forall_app; split].
    + rewrite <- (firstn_skipn n prev) in Hprev. apply Forall_app in Hprev.
      apply Hprev.
    + apply chosen_fresh. apply splitLoop_fresh.
    + rewrite <- (firstn_skipn (S n) prev) in Hprev. apply Forall_app in Hprev.
      apply Hprev.
  - unfold handleMergeBeats in Hmerge.
    destruct (List.length (selectBeats beatIds prev) <? 2)%nat; [discriminate Hmerge|].
    cbv zeta in Hmerge.
    destruct (sortBy byStartTime (selectBeats beatIds prev)) as [|firstBeat rest];
      [discriminate Hmerge|].
    apply some_eq in Hmerge. subst next.
    apply (Permutation_Forall (Permutation_sym (sortBy_perm _ _))).
    apply Forall_app. split.
    + unfold remainingBeats. rewrite Forall_forall in *. intros b Hb.
      apply filter_In in Hb. apply Hprev. apply Hb.
    + constructor; [apply chosen_merged | constructor].
  - constructor.
Qed.

(** A second image for the beat ["b"] of three beats that show the only
    image of their gallery. *)
Lemma chosen_image_stays_in_the_gallery_witness :
  Forall chosenInGallery
    (bulkUpdater (Scenario.beat (num := Q) "b" 1 2 "B") 1 (JSString.lit "blob:2")
       Scenario.threeBeats).
Proof.
  apply (chosen_image_stays_in_the_gallery Q _ Scenario.threeBeats).
  - repeat constructor.
  - apply step_image. apply step_bulk.
Defined.

Section AnyNumber.
Context {num : Type} `{Number num}.

Lemma sameSlot_refl (b : Beat num) : sameSlot b b.
Proof. repeat split. Qed.

Lemma sameSlot_map_if (test : Beat num -> bool) (f : Beat num -> Beat num)
    (l : list (Beat num)) :
  (forall b, sameSlot b (f b)) ->
  Forall2 sameSlot l (List.map (fun b => if test b then f b else b) l).
Proof.
  intros Hf. induction l as [|b l IH]; cbn [List.map]; constructor; [|exact IH].
  destruct (test b); [apply Hf | apply sameSlot_refl].
Qed.

Lemma sameSlot_all (l : list (Beat num)) : Forall2 sameSlot l l.
Proof. induction l; constructor; [apply sameSlot_refl | assumption]. Qed.

Lemma sameSlot_imageStep (prev next : list (Beat num)) :
  imageStep prev next -> Forall2 sameSlot prev next.
Proof.
  intros Hstep.
  destruct Hstep as [beat img | beat j img | beatId prompt img
                     | beatId url stateBeats | beatId imageUrl Hoffer].
  - apply sameSlot_map_if. intros b. repeat split.
  - unfold bulkUpdater.
    apply (sameSlot_map_if (fun b => JSString.eqb (id b) (id beat))
             (fun b => withImage b _ _ _)).
    intros b. repeat split.
  - unfold promptUpdater.
    destruct (find (fun bt => JSString.eqb (id bt) beatId) prev) as [b|];
      [|apply sameSlot_all].
    apply (sameSlot_map_if (fun bt => JSString.eqb (id bt) beatId)
             (fun bt => withImage bt _ _ _)).
    intros bt. repeat split.
  - unfold handleUploadImage.
    destruct (find (fun b => JSString.eqb (id b) beatId) stateBeats) as [currentBeat|];
      [|apply sameSlot_all].
    apply sameSlot_map_if. intros b. repeat split.
  - apply sameSlot_map_if. intros b. repeat split.
Qed.

End AnyNumber.

Lemma Forall_sameSlot (P : Beat Q -> Prop) (l l' : list (Beat Q)) :
  (forall b b', sameSlot b b' -> P b -> P b') ->
  Forall2 sameSlot l l' -> Forall P l -> Forall P l'.
Proof.
  intros HP H2. induction H2 as [|b b' l l' Hb _ IH]; intros Hl; [constructor|].
  inversion Hl; subst. constructor; [apply (HP b b'); assumption | apply IH; assumption].
Qed.

Lemma adjacent_sameSlot (R : Beat Q -> Beat Q -> Prop) (l l' : list (Beat Q)) :
  (forall a a' b b', sameSlot a a' -> sameSlot b b' -> R a b -> R a' b') ->
  Forall2 sameSlot l l' -> adjacent R l -> adjacent R l'.
Proof.
  intros HR H2. induction H2 as [|a a' l l' Ha Hl IH]; intros Hadj; [exact I|].
  destruct Hl as [|b b' l l' Hb Hl]; [exact I|].
  cbn [adjacent] in *. destruct Hadj as [Hab Hrest].
  split; [apply (HR a a' b b'); assumption | apply IH; exact Hrest].
Qed.

Lemma nonOverlapping_sameSlot (l l' : list (Beat Q)) :
  Forall2 sameSlot l l' -> nonOverlapping l -> nonOverlapping l'.
Proof.
  assert (Hov : forall a a' b b', sameSlot a a' -> sameSlot b b' ->
                                  ~ overlap a b -> ~ overlap a' b').
  { intros a a' b b' (_ & Hs & He & _) (_ & Hs' & He' & _) Hn.
    unfold overlap in *. rewrite Hs, He, Hs', He'. exact Hn. }
  unfold nonOverlapping. intros H2.
  induction H2 as [|a a' l l' Ha Hl IH]; intros Hn; [constructor|].
  inversion Hn as [|? ? Hall Hrest]; subst. constructor; [|apply IH; exact Hrest].
  clear IH Hrest Hn. induction Hl as [|b b' l l' Hb _ IH]; [constructor|].
  inversion Hall; subst.
  constructor; [apply (Hov a a' b b'); assumption | apply IH; assumption].
Qed.

(** A generated, uploaded or selected image changes neither the number nor
    the order of the beats, nor the id, the times, the text, the
    visibility, the layout or the settings of any beat; so the beats tile
    the time line after it as they did before. *)
Theorem image_handlers_leave_the_timeline_alone :
  forall prev next : list (Beat Q),
    imageStep prev next ->
    Forall2 sameSlot prev next /\ (valid prev -> valid next).
Proof.
  intros prev next Hstep. pose proof (sameSlot_imageStep prev next Hstep) as H2.
  split; [exact H2|]. intros (Hw & Hc & Hn & Ho). repeat split.
  - apply (Forall_sameSlot wellFormed prev next); [|exact H2 | exact Hw].
    intros b b' (_ & Hs & He & _). unfold wellFormed. rewrite Hs, He. trivial.
  - apply (adjacent_sameSlot _ prev next); [|exact H2 | exact Hc].
    intros a a' b b' (_ & _ & He & _) (_ & Hs & _). cbv beta.
    rewrite He, Hs. trivial.
  - apply (nonOverlapping_sameSlot prev next H2 Hn).
  - apply (adjacent_sameSlot _ prev next); [|exact H2 | exact Ho].
    intros a a' b b' (_ & Hs & _) (_ & Hs' & _). cbv beta.
    rewrite Hs, Hs'. trivial.
Qed.

(** An uploaded image for the beat ["b"] of three beats that tile three
    seconds. *)
Lemma image_handlers_leave_the_timeline_alone_witness :
  valid (handleUploadImage (JSString.lit "b") (JSString.lit "blob:9")
           Scenario.threeBeats Scenario.threeBeats).
Proof.
  apply (image_handlers_leave_the_timeline_alone Scenario.threeBeats).
  - apply step_upload.
  - exact threeBeats_valid.
Defined.

(* ------------------------------------------------------------------ *)
(** ** Dragging a block of the script *)
(* ------------------------------------------------------------------ *)

Lemma insertAt_spec {A : Type} (to : nat) (item : A) (arr : list A) :
  (to <= List.length arr)%nat ->
  nth_error (ScriptEditor.insertAt to item arr) to = Some item
  /\ ScriptEditor.removeAt to (ScriptEditor.insertAt to item arr) = arr
  /\ Permutation (ScriptEditor.insertAt to item arr) (item :: arr).
Proof.
  intros Hto. unfold ScriptEditor.insertAt, ScriptEditor.removeAt.
  assert (Hlen : List.length (firstn to arr) = to) by (apply firstn_length_le; exact Hto).
  repeat split.
  - rewrite nth_error_app2 by lia. rewrite Hlen, Nat.sub_diag. reflexivity.
  - rewrite <- Hlen at 1. rewrite firstn_app, firstn_all, Nat.sub_diag. cbn [firstn].
    rewrite app_nil_r.
    replace (S to) with (List.length (firstn to arr) + 1)%nat by lia.
    rewrite skipn_past. cbn [skipn]. apply firstn_skipn.
  - apply Permutation_sym.
    rewrite <- (firstn_skipn to arr) at 1. apply Permutation_middle.
Qed.

(** A block dragged from one place of the script onto another one lands
    at the place it was dropped on; the other blocks keep their order, and
    no block is lost or doubled. *)
Theorem dragged_block_lands_where_it_was_dropped :
  forall (blocks : list ScriptEditor.ScriptBlock) (from to : nat),
    (from < List.length blocks)%nat -> (to < List.length blocks)%nat -> from <> to ->
    exists moved,
      ScriptEditor.handleSort (Some from) (Some to) blocks
      = Some (List.map Some moved)
      /\ nth_error moved to = nth_error blocks from
      /\ ScriptEditor.removeAt to moved = ScriptEditor.removeAt from blocks
      /\ Permutation moved blocks.
Proof.
  intros blocks from to Hfrom Hto Hne.
  destruct (nth_error blocks from) as [x|] eqn:Ex;
    [|apply nth_error_None in Ex; lia].
  destruct (nth_error_split blocks from Ex) as (pre & post & Hb & Hpre).
  assert (Hrest : ScriptEditor.removeAt from blocks = pre ++ post).
  { unfold ScriptEditor.removeAt. subst blocks. rewrite <- Hpre.
    rewrite firstn_app, firstn_all, Nat.sub_diag. cbn [firstn]. rewrite app_nil_r.
    replace (S (List.length pre)) with (List.length pre + 1)%nat by lia.
    rewrite skipn_past. reflexivity. }
  assert (Hlen : (to <= List.length (pre ++ post))%nat).
  { subst blocks. rewrite length_app in *. cbn [List.length] in Hto. lia. }
  destruct (insertAt_spec to x (pre ++ post) Hlen) as (Hnth & Hrem & Hperm).
  exists (ScriptEditor.insertAt to x (pre ++ post)). repeat split.
  - unfold ScriptEditor.handleSort.
    destruct (Nat.eqb_spec from to) as [Heq | _]; [contradiction|].
    rewrite Ex, Hrest. unfold ScriptEditor.insertAt.
    rewrite firstn_map, skipn_map, map_app. reflexivity.
  - exact Hnth.
  - rewrite Hrem, Hrest. reflexivity.
  - rewrite Hperm, Hb. apply Permutation_middle.
Qed.

(** The first of three blocks dropped on the third. *)
Lemma dragged_block_lands_where_it_was_dropped_witness :
  let block := fun name : string =>
                 {| ScriptEditor.id := JSString.lit name;
                    ScriptEditor.content := JSString.lit name;
                    ScriptEditor.align := ScriptEditor.left;
                    ScriptEditor.type := ScriptEditor.p |} in
  ScriptEditor.handleSort (Some 0%nat) (Some 2%nat) [block "a"%string; block "b"%string; block "c"%string]
  = Some [Some (block "b"%string); Some (block "c"%string); Some (block "a"%string)].
Proof.
  intros block.
  destruct (dragged_block_lands_where_it_was_dropped
              [block "a"%string; block "b"%string; block "c"%string] 0 2)
    as (moved & E & _); [simpl; lia | simpl; lia | discriminate |].
  reflexivity.
Defined.

(* ------------------------------------------------------------------ *)
(** ** The time shown by the player *)
(* ------------------------------------------------------------------ *)

Lemma Qfloor_unique (z : Z) (x : Q) :
  (inject_Z z <= x)%Q -> (x < inject_Z (z + 1))%Q -> Qfloor x = z.
Proof.
  intros Hlo Hhi.
  assert (H1 : (z <= Qfloor x)%Z).
  { rewrite <- (Qfloor_Z z). apply Qfloor_resp_le. exact Hlo. }
  assert (H2 : (Qfloor x < z + 1)%Z).
  { rewrite Zlt_Qlt. apply (Qle_lt_trans _ x); [apply Qfloor_le | exact Hhi]. }
  lia.
Qed.

Lemma Qtrunc_nonneg (q : Q) : (0 <= q)%Q -> JSNumber.Qtrunc q = Qfloor q.
Proof.
  destruct q as [n d]. unfold Qle, JSNumber.Qtrunc, Qfloor. cbn [Qnum Qden].
  intros Hn. apply Z.quot_div_nonneg; lia.
Qed.

Lemma padStart2_decimal (s : Z) :
  (0 <= s < 60)%Z ->
  VideoComposer.padStart2 (JSString.decimal s) = VideoComposer.twoDigits s.
Proof.
  intros Hs. rewrite <- (Z2Nat.id s) by lia.
  assert (Hk : (Z.to_nat s < 60)%nat) by lia.
  generalize dependent (Z.to_nat s). clear s Hs. intros k Hk.
  do 60 (destruct k as [|k]; [vm_compute; reflexivity|]). lia.
Qed.

(** For a time that is not negative, [formatTime] shows, in exact
    arithmetic, the whole seconds of the time as minutes, a colon, and two
    digits of seconds below 60. *)
Theorem formatTime_shows_the_whole_seconds :
  forall t : Q,
    (0 <= t)%Q ->
    VideoComposer.formatTime t
    = JSString.decimal (Qfloor t / 60)
      ++ JSString.lit ":" ++ VideoComposer.twoDigits (Qfloor t mod 60).
Proof.
  intros t Ht. unfold VideoComposer.formatTime, Compositor.mathFloor.
  pose proof (Qfloor_le t) as Hlo. pose proof (Qlt_floor t) as Hhi.
  set (n := Qfloor t) in *.
  pose proof (Z.div_mod n 60 ltac:(lia)) as Hdm.
  pose proof (Z.mod_pos_bound n 60 ltac:(lia)) as Hmod.
  set (m := (n / 60)%Z) in *. set (r := (n mod 60)%Z) in *.
  assert (Hn : (inject_Z n == inject_Z 60 * inject_Z m + inject_Z r)%Q).
  { rewrite <- inject_Z_mult, <- inject_Z_plus, Hdm. reflexivity. }
  assert (Hn1 : (inject_Z (n + 1) == inject_Z n + 1)%Q).
  { rewrite inject_Z_plus. reflexivity. }
  assert (Hr : (0 <= inject_Z r)%Q /\ (inject_Z r <= 59)%Q).
  { split; [change 0%Q with (inject_Z 0) | change 59%Q with (inject_Z 59)];
      rewrite <- Zle_Qle; lia. }
  change (inject_Z 60) with 60%Q in Hn.
  assert (Hm : Qfloor (t / 60) = m).
  { apply Qfloor_unique.
    - apply Qle_shift_div_l; [reflexivity|]. lra.
    - apply Qlt_shift_div_r; [reflexivity|]. rewrite inject_Z_plus.
      change (inject_Z 1) with 1%Q. lra. }
  assert (Hq : (0 <= t / 60)%Q).
  { apply Qle_shift_div_l; [reflexivity|]. lra. }
  assert (Hs : Qfloor (VideoComposer.remainder t 60) = r).
  { unfold VideoComposer.remainder. rewrite (Qtrunc_nonneg _ Hq), Hm.
    apply Qfloor_unique.
    - lra.
    - rewrite inject_Z_plus. change (inject_Z 1) with 1%Q. lra. }
  rewrite Hm, Hs, padStart2_decimal by lia. reflexivity.
Qed.

(** 125.9 seconds are shown as 2:05. *)
Lemma formatTime_shows_the_whole_seconds_witness :
  VideoComposer.formatTime (1259 # 10) = JSString.lit "2:05".
Proof.
  rewrite (formatTime_shows_the_whole_seconds (1259 # 10)); [reflexivity|].
  unfold Qle. simpl. lia.
Defined.
